(** * Battleship: the game core and the turn drivers

    A shallow embedding of [battleship_game.py], [server.py] and
    [client.py], followed by the properties of the shot resolver, the fleet
    placement, the two driver loops and the boards printed on the screen.

    Conventions of the embedding.
    - A Python [str] is a [string]: a sequence of code points, here the code
      points U+0000..U+00FF (one [ascii] each).  The builtins [str.isalpha],
      [str.isdigit], [str.upper] and [int] are tabulated on that range exactly
      as CPython defines them; [str.upper] may leave the range, so its result
      is a list of code points.  The interpreter's configurable limit on the
      number of digits [int] converts is not modelled.  The shot resolver
      depends on a move only through what the move decodes to.
    - Python integers are [Z].
    - A [set] is a [gset]; a [dict] whose iteration order the code relies on is
      an association list in insertion order; a list indexed in place is a
      [list] with Python's index rule (negative indices count from the end,
      anything else out of range raises [IndexError]).
    - A method is a computation in the monad [M E S]: it reads and writes a
      state of type [S], may raise, and emits the events of type [E] (console
      output, messages sent on the socket) it performs, in order.
    - The [random] module is a stream of raw values from which
      [random.choice] and [random.randint] take one value each; the socket
      and the keyboard are the lists of what [recv] and [input] will return.
    - A [while] loop without a bound in the source takes fuel; a loop still
      running when the fuel is used up ends as [Unfinished]. *)

From Stdlib Require Import ZArith String Ascii List Lia Bool.
From Stdlib Require Import Decimal DecimalString DecimalPos.
From stdpp Require Import base tactics option list list_numbers gmap sets fin_sets strings.

#[local] Set Warnings "-clear-no-such-hyp".

Local Open Scope string_scope.
Local Open Scope list_scope.
Local Open Scope Z_scope.

(** * Part I: the programs *)

(** ** Python builtins on characters and strings *)

Module Py.

(** The exceptions the modelled code can raise. *)
Inductive exn := IndexError | ValueError | TypeError | KeyError | EOFError.

#[global] Instance exn_eq_dec : EqDecision exn.
Proof. solve_decision. Defined.

(** [ord c] for a one-character string. *)
Definition ord (c : ascii) : Z := Z.of_N (N_of_ascii c).

Definition between (lo n hi : Z) : bool := (lo <=? n) && (n <=? hi).

(** [c.isalpha()]: the letters among U+0000..U+00FF. *)
Definition isalpha (c : ascii) : bool :=
  let n := ord c in
  between 65 n 90 || between 97 n 122
  || (n =? 170) || (n =? 181) || (n =? 186)
  || between 192 n 214 || between 216 n 246 || between 248 n 255.

(** [c.isdigit()]: the ASCII digits and the superscripts U+00B2, U+00B3,
    U+00B9, which have the Unicode property Digit without being decimal. *)
Definition isdigit (c : ascii) : bool :=
  let n := ord c in
  between 48 n 57 || (n =? 178) || (n =? 179) || (n =? 185).

(** [s.isdigit()]: false on the empty string. *)
Fixpoint all_digits (s : string) : bool :=
  match s with
  | EmptyString => true
  | String c s' => isdigit c && all_digits s'
  end.

Definition str_isdigit (s : string) : bool :=
  match s with
  | EmptyString => false
  | _ => all_digits s
  end.

(** [c.upper()], as the code points of the resulting string: U+00DF
    uppercases to the two letters "SS", U+00B5 and U+00FF leave the
    range. *)
Definition upper (c : ascii) : list Z :=
  let n := ord c in
  if between 97 n 122 then [n - 32]
  else if n =? 181 then [924]
  else if n =? 223 then [83; 83]
  else if between 224 n 254 && negb (n =? 247) then [n - 32]
  else if n =? 255 then [376]
  else [n].

(** [ord(s)] of a string given by its code points: a [TypeError] unless the
    string has length one. *)
Definition ord_str (s : list Z) : exn + Z :=
  match s with
  | [n] => inr n
  | _ => inl TypeError
  end.

(** [s[0]] and [s[1:]]. *)
Definition head (s : string) : exn + ascii :=
  match s with
  | EmptyString => inl IndexError
  | String c _ => inr c
  end.

Definition tail (s : string) : string :=
  match s with
  | EmptyString => EmptyString
  | String _ s' => s'
  end.

(** Whitespace that [int] strips on both sides. *)
Definition isspace (c : ascii) : bool :=
  let n := ord c in
  between 9 n 13 || (n =? 32) || (n =? 133) || (n =? 160).

Fixpoint lstrip (s : string) : string :=
  match s with
  | EmptyString => EmptyString
  | String c s' => if isspace c then lstrip s' else s
  end.

Definition digit_value (c : ascii) : option Z :=
  let n := ord c in
  if between 48 n 57 then Some (n - 48) else None.

Definition is_underscore (c : ascii) : bool := ord c =? 95.

(** The digit scan of [int]: decimal digits, with single underscores
    allowed between two digits.  Returns the value read and the unread
    rest; [None] when an underscore is doubled or is not followed by a
    digit. *)
Fixpoint scan_digits (acc : Z) (after_underscore : bool) (s : string)
  : option (Z * string) :=
  match s with
  | EmptyString => if after_underscore then None else Some (acc, s)
  | String c s' =>
      match digit_value c with
      | Some d => scan_digits (10 * acc + d) false s'
      | None =>
          if after_underscore then None
          else if is_underscore c then scan_digits acc true s'
          else Some (acc, s)
      end
  end.

(** [int(s)] in base ten; [None] stands for [ValueError]. *)
Definition int (s : string) : option Z :=
  let s1 := lstrip s in
  let '(sign, s2) :=
    match s1 with
    | String c r =>
        if ord c =? 43 then (1, r)
        else if ord c =? 45 then (-1, r)
        else (1, s1)
    | EmptyString => (1, s1)
    end in
  match s2 with
  | EmptyString => None
  | String c _ =>
      match digit_value c with
      | None => None
      | Some _ =>
          match scan_digits 0 false s2 with
          | None => None
          | Some (n, rest) =>
              match lstrip rest with
              | EmptyString => Some (sign * n)
              | _ => None
              end
          end
      end
  end.

(** [list[i] = v] on a Python list. *)
Definition index {A} (l : list A) (i : Z) : option nat :=
  let len := Z.of_nat (length l) in
  if (0 <=? i) && (i <? len) then Some (Z.to_nat i)
  else if (- len <=? i) && (i <? 0) then Some (Z.to_nat (len + i))
  else None.

(** [needle in haystack] on strings. *)
Fixpoint is_prefix (p s : string) : bool :=
  match p, s with
  | EmptyString, _ => true
  | String a p', String b s' => bool_decide (a = b) && is_prefix p' s'
  | String _ _, EmptyString => false
  end.

Fixpoint contains (needle haystack : string) : bool :=
  is_prefix needle haystack
  || match haystack with
     | EmptyString => false
     | String _ h' => contains needle h'
     end.

(** [chr(n)] for a code point of the modelled range, and [str(n)]. *)
Definition chr (n : Z) : ascii := ascii_of_N (Z.to_N n).

Definition str (n : Z) : string := NilZero.string_of_int (Z.to_int n).

End Py.

(** ** The monad of methods *)

(** A computation over a state [S] emitting events [E]: result or exception,
    final state, events emitted. *)
Definition M (E S A : Type) : Type := S -> (Py.exn + A) * S * list E.

#[global] Instance M_ret {E S} : MRet (M E S) :=
  fun A a s => (inr a, s, []).

#[global] Instance M_bind {E S} : MBind (M E S) :=
  fun A B k m s =>
    match m s with
    | (inl e, s1, t1) => (inl e, s1, t1)
    | (inr a, s1, t1) =>
        match k a s1 with
        | (r, s2, t2) => (r, s2, t1 ++ t2)
        end
    end.

Section Monad.
Context {E S : Type}.

Definition raise {A} (e : Py.exn) : M E S A := fun s => (inl e, s, []).
Definition get : M E S S := fun s => (inr s, s, []).
Definition modify (f : S -> S) : M E S unit := fun s => (inr tt, f s, []).
Definition emit (e : E) : M E S unit := fun s => (inr tt, s, [e]).

(** A pure step that may raise. *)
Definition lift {A} (r : Py.exn + A) : M E S A := fun s => (r, s, []).

(** [try: body except <caught>: handler]. *)
Definition try_except {A} (body : M E S A) (caught : Py.exn -> bool)
    (handler : Py.exn -> M E S A) : M E S A :=
  fun s =>
    match body s with
    | (inl e, s1, t1) =>
        if caught e then
          match handler e s1 with
          | (r, s2, t2) => (r, s2, t1 ++ t2)
          end
        else (inl e, s1, t1)
    | r => r
    end.

(** [for x in xs: body x]. *)
Fixpoint for_each {A} (xs : list A) (body : A -> M E S unit) : M E S unit :=
  match xs with
  | [] => mret tt
  | x :: xs' => body x ;; for_each xs' body
  end.
End Monad.

(** ** battleship_game.py: the game object *)

Abbreviation coord := (Z * Z)%type.

(** The five banners the game prints; their glyphs lie outside the modelled
    alphabet, so each is a token. *)
Inductive art := HIT_ART | MISS_ART | WIN_ART | LOSE_ART | SUNK_ART.

(** What a run makes observable, in order. *)
Inductive event :=
  | Banner (a : art)                     (* print(f"{HIT_ART}") and the like *)
  | Line (text : string)                 (* print of a line of text *)
  | Boards (my_board : list (list ascii)) (shots hits : gset coord)
                                         (* print_boards(...) *)
  | Sent (msg : string)                  (* conn.send(msg.encode()) *)
  | Report (e : Py.exn)                  (* print(f"Error: {e}") *)
  | Closed.                              (* the sockets are closed *)

#[global] Instance art_eq_dec : EqDecision art.
Proof. solve_decision. Defined.

#[global] Instance event_eq_dec : EqDecision event.
Proof. solve_decision. Defined.

(** The attributes of a [BattleshipGame] that change; [board_size] and
    [ships] are set once in [__init__] and never assigned again. *)
Record Game := mkGame {
  board : list (list ascii);
  opponent_shots : gset coord;
  ship_positions : list (string * gset coord);
  sunk_ships : gset string;
  shots : gset coord;
  hits : gset coord
}.

Definition board_size : Z := 10.

Definition ships : list (string * Z) :=
  [("Carrier", 5); ("Battleship", 4); ("Cruiser", 3); ("Submarine", 3);
   ("Destroyer", 2)].

(** [BattleshipGame.__init__]. *)
Definition init : Game :=
  {| board := replicate (Z.to_nat board_size)
                (replicate (Z.to_nat board_size) " "%char);
     opponent_shots := ∅;
     ship_positions :=
       [("Carrier", ∅); ("Battleship", ∅); ("Cruiser", ∅); ("Submarine", ∅);
        ("Destroyer", ∅)];
     sunk_ships := ∅;
     shots := ∅;
     hits := ∅ |}.

Definition set_board b (g : Game) : Game :=
  {| board := b; opponent_shots := opponent_shots g;
     ship_positions := ship_positions g; sunk_ships := sunk_ships g;
     shots := shots g; hits := hits g |}.

Definition set_opponent_shots s (g : Game) : Game :=
  {| board := board g; opponent_shots := s;
     ship_positions := ship_positions g; sunk_ships := sunk_ships g;
     shots := shots g; hits := hits g |}.

Definition set_ship_positions d (g : Game) : Game :=
  {| board := board g; opponent_shots := opponent_shots g;
     ship_positions := d; sunk_ships := sunk_ships g;
     shots := shots g; hits := hits g |}.

Definition set_sunk_ships s (g : Game) : Game :=
  {| board := board g; opponent_shots := opponent_shots g;
     ship_positions := ship_positions g; sunk_ships := s;
     shots := shots g; hits := hits g |}.

Definition set_shots s (g : Game) : Game :=
  {| board := board g; opponent_shots := opponent_shots g;
     ship_positions := ship_positions g; sunk_ships := sunk_ships g;
     shots := s; hits := hits g |}.

Definition set_hits s (g : Game) : Game :=
  {| board := board g; opponent_shots := opponent_shots g;
     ship_positions := ship_positions g; sunk_ships := sunk_ships g;
     shots := shots g; hits := s |}.

(** [self.board[row][col] = v]. *)
Definition board_assign (row col : Z) (v : ascii) : M event Game unit :=
  fun g =>
    match Py.index (board g) row with
    | None => (inl Py.IndexError, g, [])
    | Some r =>
        match board g !! r with
        | None => (inl Py.IndexError, g, [])
        | Some line =>
            match Py.index line col with
            | None => (inl Py.IndexError, g, [])
            | Some c =>
                (inr tt, set_board (<[r := <[c := v]> line]> (board g)) g, [])
            end
        end
    end.

(** [d[ship].add(pos)] on the dictionary of positions; [None] stands for
    [KeyError]. *)
Fixpoint dict_add (ship : string) (pos : coord)
    (d : list (string * gset coord)) : option (list (string * gset coord)) :=
  match d with
  | [] => None
  | (k, v) :: d' =>
      if decide (k = ship) then Some ((k, {[pos]} ∪ v) :: d')
      else cons (k, v) <$> dict_add ship pos d'
  end.

Definition positions_add (ship : string) (pos : coord) : M event Game unit :=
  fun g =>
    match dict_add ship pos (ship_positions g) with
    | None => (inl Py.KeyError, g, [])
    | Some d => (inr tt, set_ship_positions d g, [])
    end.

(** *** place_ships_randomly *)

(** The generator of the [random] module: the raw values it will deliver,
    by position.  Every value [random.randint] or [random.choice] can return
    is delivered by some generator. *)
Definition Rng := nat -> Z.

Definition draw : M event (Game * Rng) Z :=
  fun '(g, rng) => (inr (rng 0%nat), (g, fun i => rng (S i)), []).

(** [random.choice([True, False])]. *)
Definition random_choice : M event (Game * Rng) bool :=
  r ← draw; mret (default false ([true; false] !! Z.to_nat (r `mod` 2))).

(** [random.randint(a, b)]. *)
Definition randint (a b : Z) : M event (Game * Rng) Z :=
  if b <? a then raise Py.ValueError
  else r ← draw; mret (a + r `mod` (b - a + 1)).

(** A method of the game run while the generator is part of the state. *)
Definition on_game {A} (m : M event Game A) : M event (Game * Rng) A :=
  fun '(g, rng) => match m g with (r, g', t) => (r, (g', rng), t) end.

(** [[p for ship_pos in self.ship_positions.values() for p in ship_pos]]. *)
Definition claimed (g : Game) : list coord :=
  concat (map (fun kv => elements (snd kv)) (ship_positions g)).

(** The [while attempts < 100] loop for one ship, [budget] being the number
    of attempts left.  Leaving the loop by [break] and leaving it because the
    condition failed both return normally. *)
Fixpoint place_ship (budget : nat) (ship : string) (size : Z)
    : M event (Game * Rng) unit :=
  match budget with
  | O => mret tt
  | S budget' =>
      horizontal ← random_choice;
      positions ←
        (if horizontal : bool then
           x ← randint 0 (board_size - size);
           y ← randint 0 (board_size - 1);
           mret (map (fun i => (x + i, y)) (seqZ 0 size))
         else
           x ← randint 0 (board_size - 1);
           y ← randint 0 (board_size - size);
           mret (map (fun i => (x, y + i)) (seqZ 0 size)));
      '(g, _) ← get;
      if negb (existsb (fun pos => bool_decide (pos ∈ claimed g)) positions)
      then
        for_each positions (fun pos =>
          on_game (board_assign (snd pos) (fst pos) "S"%char);;
          on_game (positions_add ship pos))
      else place_ship budget' ship size
  end.

Definition place_ships_randomly : M event (Game * Rng) unit :=
  for_each ships (fun '(ship, size) => place_ship 100 ship size).

(** *** check_ship_sunk *)

Fixpoint check_ship_sunk_from (items : list (string * gset coord))
    (hit_pos : coord) : M event Game string :=
  match items with
  | [] => mret ""
  | (ship, positions) :: items' =>
      g ← get;
      if bool_decide (hit_pos ∈ positions)
         && negb (bool_decide (ship ∈ sunk_ships g))
      then
        if forallb (fun p => bool_decide (p ∈ opponent_shots g))
             (elements positions)
        then
          modify (fun g => set_sunk_ships ({[ship]} ∪ sunk_ships g) g);;
          mret ("Sunk " +:+ ship +:+ "!")
        else check_ship_sunk_from items' hit_pos
      else check_ship_sunk_from items' hit_pos
  end.

Definition check_ship_sunk (hit_pos : coord) : M event Game string :=
  g ← get; check_ship_sunk_from (ship_positions g) hit_pos.

(** *** process_shot *)

(** The two statements that decode a move (lines 162 and 163):
    [col = ord(move[0].upper()) - ord('A')] and [row = int(move[1:])]. *)
Definition decode_move (move : string) : Py.exn + coord :=
  match Py.head move with
  | inl e => inl e
  | inr c =>
      match Py.ord_str (Py.upper c) with
      | inl e => inl e
      | inr u =>
          match Py.int (Py.tail move) with
          | None => inl Py.ValueError
          | Some row => inr (u - Py.ord "A"%char, row)
          end
      end
  end.

(** The newline inside the hit-and-sunk token. *)
Definition hit_sunk : string := "hit" +:+ String "010"%char "sunk".

Definition format_error : string :=
  "Invalid move format! Use letter + number (e.g. A5)".

(** The loop [for positions in self.ship_positions.values()] and the two
    statements after it. *)
Fixpoint resolve_hit (values : list (gset coord)) (col row : Z)
    : M event Game string :=
  match values with
  | [] =>
      board_assign row col "M"%char;;
      mret "miss"
  | positions :: values' =>
      if bool_decide ((col, row) ∈ positions) then
        board_assign row col "H"%char;;
        sunk_message ← check_ship_sunk (col, row);
        g ← get;
        if bool_decide (size (sunk_ships g) = length ships) then
          mret "gameover"
        else if negb (String.eqb sunk_message "") then mret hit_sunk
        else mret "hit"
      else resolve_hit values' col row
  end.

(** [except (IndexError, ValueError)]. *)
Definition caught (e : Py.exn) : bool :=
  bool_decide (e = Py.IndexError) || bool_decide (e = Py.ValueError).

Definition process_shot (move : string) : M event Game string :=
  try_except
    ('(col, row) ← lift (decode_move move);
     if negb ((0 <=? col) && (col <? board_size)
              && (0 <=? row) && (row <? board_size))
     then mret "invalid"
     else
       g ← get;
       if bool_decide ((col, row) ∈ opponent_shots g) then mret "repeat"
       else
         modify (fun g => set_opponent_shots ({[(col, row)]} ∪ opponent_shots g) g);;
         g ← get;
         resolve_hit (map snd (ship_positions g)) col row)
    caught (fun _ => mret format_error).

(** *** handle_move_result, handle_opponent_move, validate_move *)

Definition handle_move_result (move result : string) : M event Game unit :=
  if String.eqb result ""
     || bool_decide (result ∈ ["invalid"; "repeat"])
  then mret tt
  else
    '(col, row) ← lift (decode_move move);
    modify (fun g => set_shots ({[(col, row)]} ∪ shots g) g);;
    if Py.contains "hit" result then
      modify (fun g => set_hits ({[(col, row)]} ∪ hits g) g);;
      emit (Banner HIT_ART);;
      if Py.contains "sunk" result then emit (Banner SUNK_ART) else mret tt
    else if Py.contains "miss" result then emit (Banner MISS_ART)
    else if String.eqb result "gameover" then emit (Banner WIN_ART)
    else mret tt.

Definition newline : string := String "010"%char "".

Definition handle_opponent_move (move : string) : M event Game string :=
  result ← process_shot move;
  emit (Line (newline +:+ "Opponent's move: " +:+ move));;
  (if Py.contains "hit" result then
     emit (Banner HIT_ART);;
     if Py.contains "sunk" result then emit (Banner SUNK_ART) else mret tt
   else if Py.contains "miss" result then emit (Banner MISS_ART)
   else if String.eqb result "gameover" then emit (Banner LOSE_ART)
   else mret tt);;
  mret result.

Definition display_game_state : M event Game unit :=
  g ← get; emit (Boards (board g) (shots g) (hits g)).

Definition validate_move (move : string) : bool :=
  (2 <=? Z.of_nat (String.length move))
  && match Py.head move with
     | inr c => Py.isalpha c
     | inl _ => false
     end
  && Py.str_isdigit (Py.tail move).

(** What both drivers do before the first move: [game = BattleshipGame()]
    followed by [game.place_ships_randomly()]. *)
Definition setup (rng : Rng) : Game := (place_ships_randomly (init, rng)).1.2.1.

(** ** server.py and client.py: the turn drivers *)

(** A peer process: its game, the generator of [random], and what the
    outside world will deliver.  [inbox] lists what the successive
    [recv(1024).decode()] return; once it is exhausted the other side has
    closed the connection and [recv] returns the empty string.  [keyboard]
    lists the lines the successive [input()] return; [input] raises
    [EOFError] once it is exhausted. *)
Record Peer := mkPeer {
  game : Game;
  rng : Rng;
  inbox : list string;
  keyboard : list string
}.

Definition on_peer {A} (m : M event Game A) : M event Peer A :=
  fun p =>
    match m (game p) with
    | (r, g', t) =>
        (r, {| game := g'; rng := rng p; inbox := inbox p;
               keyboard := keyboard p |}, t)
    end.

Definition on_placement {A} (m : M event (Game * Rng) A) : M event Peer A :=
  fun p =>
    match m (game p, rng p) with
    | (r, (g', rng'), t) =>
        (r, {| game := g'; rng := rng'; inbox := inbox p;
               keyboard := keyboard p |}, t)
    end.

Definition recv : M event Peer string :=
  fun p =>
    match inbox p with
    | [] => (inr "", p, [])
    | msg :: rest =>
        (inr msg, {| game := game p; rng := rng p; inbox := rest;
                     keyboard := keyboard p |}, [])
    end.

Definition send (msg : string) : M event Peer unit := emit (Sent msg).

Definition print (text : string) : M event Peer unit := emit (Line text).

Definition read_line : M event Peer string :=
  fun p =>
    match keyboard p with
    | [] => (inl Py.EOFError, p, [])
    | line :: rest =>
        (inr line, {| game := game p; rng := rng p; inbox := inbox p;
                      keyboard := rest |}, [])
    end.

Definition input (prompt : string) : M event Peer string :=
  print prompt;; read_line.

(** How a loop modelled with fuel stands when it is left: [Unfinished] when
    the fuel ran out with the loop still running. *)
Inductive run (A : Type) := Done (a : A) | Unfinished.

Arguments Done {A} a.

Arguments Unfinished {A}.

(** How one pass through the body of the main loop ends: with the value of
    [my_turn] for the next pass, or by leaving the loop. *)
Inductive flow := Next (my_turn : bool) | Stop.

(** The loop that asks for a move until [validate_move] accepts it; the two
    drivers have the same text for it. *)
Fixpoint ask_move (fuel : nat) : M event Peer (run string) :=
  match fuel with
  | O => mret Unfinished
  | S fuel' =>
      move ← input (newline +:+ "Your move (e.g. A5): ");
      if validate_move move then mret (Done move)
      else print "Invalid move format!";; ask_move fuel'
  end.

Module Server.

(** The loop [while result == "repeat" or result == "invalid" or
    result == ""] of the opponent's turn. *)
Fixpoint answer (fuel : nat) (data result : string) : M event Peer (run string) :=
  if String.eqb result "repeat" || String.eqb result "invalid"
     || String.eqb result ""
  then
    match fuel with
    | O => mret Unfinished
    | S fuel' =>
        result ← on_peer (handle_opponent_move data);
        send result;;
        if String.eqb result "gameover"
        then on_peer display_game_state;; mret (Done result)
        else answer fuel' data result
    end
  else mret (Done result).

(** One pass through the body of [while True]. *)
Definition iteration (fuel : nat) (my_turn : bool) : M event Peer (run flow) :=
  on_peer display_game_state;;
  if negb my_turn then
    print (newline +:+ "Waiting for opponent's move...");;
    data ← recv;
    if String.eqb data "" then mret (Done Stop)
    else
      r ← answer fuel data "";
      match r with
      | Unfinished => mret Unfinished
      | Done _ => mret (Done (Next true))
      end
  else
    m ← ask_move fuel;
    match m with
    | Unfinished => mret Unfinished
    | Done move =>
        send move;;
        result ← recv;
        if String.eqb result "repeat" then
          print (newline +:+ "You already shot there!");;
          mret (Done (Next my_turn))
        else if String.eqb result "invalid" then
          print (newline +:+ "Invalid move! Try again");;
          mret (Done (Next my_turn))
        else
          on_peer (handle_move_result move result);;
          if String.eqb result "gameover"
          then on_peer display_game_state;; mret (Done Stop)
          else mret (Done (Next false))
    end.

Fixpoint loop (fuel : nat) (my_turn : bool) : M event Peer (run unit) :=
  match fuel with
  | O => mret Unfinished
  | S fuel' =>
      r ← iteration fuel' my_turn;
      match r with
      | Unfinished => mret Unfinished
      | Done Stop => mret (Done tt)
      | Done (Next my_turn') => loop fuel' my_turn'
      end
  end.

(** [main] from the moment the opponent has connected.  The [finally]
    clause runs once the [try] statement is left, by the end of the loop or
    by an exception; while the loop is still running nothing is closed. *)
Definition main (fuel : nat) : M event Peer (run unit) :=
  send "ready";;
  on_placement place_ships_randomly;;
  print (newline +:+ "Game started! All ships have been placed.");;
  r ← try_except (loop fuel false) (fun _ => true)
        (fun e => emit (Report e);; mret (Done tt));
  match r with
  | Unfinished => mret Unfinished
  | Done _ => emit Closed;; mret r
  end.

End Server.

Module Client.

(** The loop [while not is_valid] of the opponent's turn: [Some result] when
    it ends with [is_valid] set, [None] when it is left by [break]. *)
Fixpoint answer (fuel : nat) : M event Peer (run (option string)) :=
  match fuel with
  | O => mret Unfinished
  | S fuel' =>
      data ← recv;
      if String.eqb data "" then mret (Done None)
      else
        result ← on_peer (handle_opponent_move data);
        send result;;
        if String.eqb result "repeat" || String.eqb result "invalid"
        then answer fuel'
        else mret (Done (Some result))
  end.

(** One pass through the body of [while True]. *)
Definition iteration (fuel : nat) (my_turn : bool) : M event Peer (run flow) :=
  on_peer display_game_state;;
  if my_turn then
    m ← ask_move fuel;
    match m with
    | Unfinished => mret Unfinished
    | Done move =>
        send move;;
        response ← recv;
        if String.eqb response "repeat" then
          print (newline +:+ "You already shot there!");;
          mret (Done (Next my_turn))
        else if String.eqb response "invalid" then
          print (newline +:+ "Invalid move! Try again");;
          mret (Done (Next my_turn))
        else
          on_peer (handle_move_result move response);;
          if String.eqb response "gameover"
          then on_peer display_game_state;; mret (Done Stop)
          else mret (Done (Next false))
    end
  else
    print (newline +:+ "Waiting for opponent's move...");;
    r ← answer fuel;
    match r with
    | Unfinished => mret Unfinished
    | Done None => mret (Done Stop)
    | Done (Some result) =>
        if String.eqb result "gameover"
        then on_peer display_game_state;; mret (Done Stop)
        else mret (Done (Next true))
    end.

Fixpoint loop (fuel : nat) (my_turn : bool) : M event Peer (run unit) :=
  match fuel with
  | O => mret Unfinished
  | S fuel' =>
      r ← iteration fuel' my_turn;
      match r with
      | Unfinished => mret Unfinished
      | Done Stop => mret (Done tt)
      | Done (Next my_turn') => loop fuel' my_turn'
      end
  end.

(** [main] from the moment the connection is established.  As in the
    server, the [finally] clause runs once the [try] statement is left. *)
Definition main (fuel : nat) : M event Peer (run unit) :=
  r ← try_except
        (recv;;
         on_placement place_ships_randomly;;
         print (newline +:+ "Game Started! All ships have been placed:");;
         loop fuel true)
        (fun _ => true)
        (fun e => emit (Report e);; mret (Done tt));
  match r with
  | Unfinished => mret Unfinished
  | Done _ => emit Closed;; mret r
  end.

End Client.

(** ** battleship_game.py: print_boards *)

(** [' '.join(row)] for a row of one-character strings. *)
Fixpoint join_cells (row : list ascii) : string :=
  match row with
  | [] => ""
  | [c] => String c ""
  | c :: rest => String c (String " " (join_cells rest))
  end.

(** The loop [for j in range(10)] of the enemy board, for the row [i]:
    [if (j, i) in shots: row[j] = "X" if (j, i) in hits else "O"]. *)
Definition enemy_row (shots_ hits_ : gset coord) (i : nat) : list ascii :=
  foldl (fun row j =>
           if bool_decide ((Z.of_nat j, Z.of_nat i) ∈ shots_)
           then <[j := if bool_decide ((Z.of_nat j, Z.of_nat i) ∈ hits_)
                       then "X"%char else "O"%char]> row
           else row)
        (replicate 10 " "%char) (seq 0 10).

Definition enemy_rows (shots_ hits_ : gset coord) : list string :=
  ["   A B C D E F G H I J    "; "  +-------------------+   "]
  ++ map (fun i => Py.str (Z.of_nat i) +:+ " |"
                   +:+ join_cells (enemy_row shots_ hits_ i) +:+ "|   ")
       (seq 0 10)
  ++ ["  +-------------------+   "; "  [    ENEMY BOARD    ]   "].

(** The loop [for j in range(10)] of the player's board: [row[j]] is read,
    and replaced when it is ['H'] or ['M']. *)
Fixpoint convert_row (js : list nat) (row : list ascii)
  : Py.exn + list ascii :=
  match js with
  | [] => inr row
  | j :: js' =>
      match row !! j with
      | None => inl Py.IndexError
      | Some c =>
          convert_row js'
            (if Ascii.eqb c "H" then <[j := "X"%char]> row
             else if Ascii.eqb c "M" then <[j := "O"%char]> row
             else row)
      end
  end.

(** The loop [for i in range(10)] of the player's board, [row] being
    [list(my_board[i])]. *)
Fixpoint my_board_rows (my_board : list (list ascii)) (rows : list nat)
  : Py.exn + list string :=
  match rows with
  | [] => inr []
  | i :: rows' =>
      match my_board !! i with
      | None => inl Py.IndexError
      | Some line =>
          match convert_row (seq 0 10) line with
          | inl e => inl e
          | inr row =>
              match my_board_rows my_board rows' with
              | inl e => inl e
              | inr rest =>
                  inr ((Py.str (Z.of_nat i) +:+ " |" +:+ join_cells row
                        +:+ "|") :: rest)
              end
          end
      end
  end.

Definition my_rows (my_board : list (list ascii)) : Py.exn + list string :=
  match my_board_rows my_board (seq 0 10) with
  | inl e => inl e
  | inr rows =>
      inr (["   A B C D E F G H I J"; "  +-------------------+"]
           ++ rows
           ++ ["  +-------------------+"; "  [     YOUR BOARD    ]"])
  end.

(** The loop [for i in range(len(enemy_rows))] that prints the two boards
    side by side. *)
Fixpoint side_by_side (enemy mine : list string) (rows : list nat)
  : Py.exn + list string :=
  match rows with
  | [] => inr []
  | i :: rows' =>
      match enemy !! i, mine !! i with
      | Some e, Some m =>
          match side_by_side enemy mine rows' with
          | inl err => inl err
          | inr rest => inr ((e +:+ "    " +:+ m) :: rest)
          end
      | _, _ => inl Py.IndexError
      end
  end.

(** [print_boards(my_board, shots, hits)]: the texts of the successive
    [print] calls, or the exception raised before the first of them.  This
    is what the event [Boards my_board shots hits] stands for. *)
Definition print_boards (my_board : list (list ascii))
    (shots_ hits_ : gset coord) : Py.exn + list string :=
  let enemy := enemy_rows shots_ hits_ in
  match my_rows my_board with
  | inl e => inl e
  | inr mine =>
      match side_by_side enemy mine (seq 0 (length enemy)) with
      | inl e => inl e
      | inr lines => inr ([newline] ++ lines ++ [newline])
      end
  end.

(** * Part II: the vocabulary of the properties *)

(** ** Coordinates and shots *)

Definition in_bounds (c : coord) : Prop :=
  0 <= c.1 < board_size /\ 0 <= c.2 < board_size.

#[global] Instance in_bounds_dec c : Decision (in_bounds c).
Proof. unfold in_bounds. apply _. Defined.

(** The game once a fresh shot has been recorded. *)
Definition fire (col row : Z) (g : Game) : Game :=
  set_opponent_shots ({[(col, row)]} ∪ opponent_shots g) g.

(** ** Well-formed games *)

Definition board_ok (b : list (list ascii)) : Prop :=
  length b = Z.to_nat board_size
  /\ Forall (fun line => length line = Z.to_nat board_size) b.

(** No two entries of the dictionary of positions share a coordinate. *)
Definition fleet_disjoint (d : list (string * gset coord)) : Prop :=
  forall i j kv1 kv2,
    d !! i = Some kv1 -> d !! j = Some kv2 -> i <> j -> kv1.2 ## kv2.2.

(** A ship is sunk when it occupies at least one cell and every cell it
    occupies has been shot. *)
Definition all_shot (g : Game) (ship : string) : Prop :=
  exists positions,
    (ship, positions) ∈ ship_positions g
    /\ positions <> ∅ /\ positions ⊆ opponent_shots g.

Record wf (g : Game) : Prop := {
  wf_board : board_ok (board g);
  wf_names : map fst (ship_positions g) = map fst ships;
  wf_disjoint : fleet_disjoint (ship_positions g);
  wf_fleet : forall kv c, kv ∈ ship_positions g -> c ∈ kv.2 -> in_bounds c;
  wf_shots : forall c, c ∈ opponent_shots g -> in_bounds c;
  wf_sunk : forall ship, ship ∈ sunk_ships g <-> all_shot g ship
}.

(** ** Sinking *)

(** The test [check_ship_sunk] applies to an entry of the dictionary. *)
Definition sinkable (g : Game) (hit_pos : coord) (kv : string * gset coord)
  : bool :=
  bool_decide (hit_pos ∈ kv.2)
  && negb (bool_decide (kv.1 ∈ sunk_ships g))
  && forallb (fun p => bool_decide (p ∈ opponent_shots g)) (elements kv.2).

Definition sink (ship : string) (g : Game) : Game :=
  set_sunk_ships ({[ship]} ∪ sunk_ships g) g.

Definition fleet_names : list string := map fst ships.

Definition hit_outcome (sunk_now : bool) (g : Game) : string :=
  if bool_decide (size (sunk_ships g) = length ships) then "gameover"
  else if sunk_now then hit_sunk else "hit".

(** Every ship but [ship] is sunk. *)
Definition last_afloat (g : Game) (ship : string) : Prop :=
  forall other, other ∈ fleet_names -> other <> ship -> other ∈ sunk_ships g.

(** The outcome of a shot at a fresh coordinate [c] and the sunk set it
    leaves. *)
Inductive resolved (g : Game) (c : coord) : string -> gset string -> Prop :=
  | resolved_miss :
      (forall kv, kv ∈ ship_positions g -> c ∉ kv.2) ->
      resolved g c "miss" (sunk_ships g)
  | resolved_hit ship positions :
      (ship, positions) ∈ ship_positions g -> c ∈ positions ->
      ship ∉ sunk_ships g ->
      ~ positions ∖ {[c]} ⊆ opponent_shots g ->
      resolved g c "hit" (sunk_ships g)
  | resolved_sunk ship positions :
      (ship, positions) ∈ ship_positions g -> c ∈ positions ->
      ship ∉ sunk_ships g ->
      positions ∖ {[c]} ⊆ opponent_shots g ->
      ~ last_afloat g ship ->
      resolved g c hit_sunk ({[ship]} ∪ sunk_ships g)
  | resolved_gameover ship positions :
      (ship, positions) ∈ ship_positions g -> c ∈ positions ->
      ship ∉ sunk_ships g ->
      positions ∖ {[c]} ⊆ opponent_shots g ->
      last_afloat g ship ->
      resolved g c "gameover" ({[ship]} ∪ sunk_ships g).

(** ** Fleet placement *)

(** The cells of a candidate placement, as [place_ships_randomly] lists
    them. *)
Definition run_cells (horizontal : bool) (x y size : Z) : list coord :=
  if horizontal then map (fun i => (x + i, y)) (seqZ 0 size)
  else map (fun i => (x, y + i)) (seqZ 0 size).

(** The anchors [random.randint] can deliver for a ship of length [size]. *)
Definition anchored (horizontal : bool) (x y size : Z) : Prop :=
  if horizontal then 0 <= x <= board_size - size /\ 0 <= y <= board_size - 1
  else 0 <= x <= board_size - 1 /\ 0 <= y <= board_size - size.

(** The dictionary after [d[ship] = d[ship] ∪ cells]. *)
Definition with_cells (ship : string) (cells : gset coord)
    (d : list (string * gset coord)) : list (string * gset coord) :=
  map (fun kv => if decide (kv.1 = ship) then (kv.1, cells ∪ kv.2) else kv) d.

(** A ship sits on a straight run of [size] cells inside the board. *)
Definition is_run (size : Z) (positions : gset coord) : Prop :=
  exists h x y,
    anchored h x y size /\ positions = list_to_set (run_cells h x y size).

(** The state between two ships, [todo] being the ships still to place. *)
Record placement_ok (todo : list (string * Z)) (g : Game) : Prop := {
  po_board : board_ok (board g);
  po_names : map fst (ship_positions g) = fleet_names;
  po_disjoint : fleet_disjoint (ship_positions g);
  po_runs : forall ship size positions,
      (ship, size) ∈ ships -> (ship, positions) ∈ ship_positions g ->
      positions = ∅ \/ is_run size positions;
  po_todo : forall ship size,
      (ship, size) ∈ todo -> (ship, ∅) ∈ ship_positions g;
  po_shots : opponent_shots g = ∅;
  po_sunk : sunk_ships g = ∅;
  po_own : shots g = ∅ /\ hits g = ∅
}.

(** ** Reachable games *)

(** The games a peer can hold: the one set up before the first move, and
    those the methods called by the drivers lead to ([handle_opponent_move]
    changes the game as [process_shot] does, [display_game_state] not at
    all). *)
Inductive reachable : Game -> Prop :=
  | reach_setup rng : reachable (setup rng)
  | reach_shot g move :
      reachable g -> reachable (process_shot move g).1.2
  | reach_result g move result :
      reachable g -> reachable (handle_move_result move result g).1.2.

(** Every case of [process_shot] on a well-formed game. *)
Inductive shot_view (g : Game) (move : string)
  : (Py.exn + string) * Game * list event -> Prop :=
  | view_undecodable e :
      decode_move move = inl e ->
      shot_view g move
        (if caught e then inr format_error else inl e, g, [])
  | view_invalid c :
      decode_move move = inr c -> ~ in_bounds c ->
      shot_view g move (inr "invalid", g, [])
  | view_repeat c :
      decode_move move = inr c -> in_bounds c -> c ∈ opponent_shots g ->
      shot_view g move (inr "repeat", g, [])
  | view_fresh c r g' :
      decode_move move = inr c -> in_bounds c -> c ∉ opponent_shots g ->
      wf g' ->
      ship_positions g' = ship_positions g ->
      opponent_shots g' = {[c]} ∪ opponent_shots g ->
      shots g' = shots g -> hits g' = hits g ->
      resolved g c r (sunk_ships g') ->
      shot_view g move (inr r, g', []).

(** The six outcome tokens. *)
Definition tokens : list string :=
  ["invalid"; "repeat"; "miss"; "hit"; hit_sunk; "gameover"].

(** Modelled from the spec: the encoder of a coordinate.  The source has
    none (moves are typed by the player); the move string of a coordinate
    is the column letter [chr(ord('A') + col)] followed by the decimal
    digits of the row. *)
Definition encode_move (c : coord) : string :=
  String (Py.chr (Py.ord "A"%char + c.1)) (Py.str c.2).

(** Every ship has been placed: a ship whose attempts all collided keeps the
    empty set [__init__] gave it, a placed ship holds its cells. *)
Definition all_placed (g : Game) : Prop :=
  forall kv, kv ∈ ship_positions g -> kv.2 <> ∅.

(** The cells form one straight, gap-free run of [len] cells: a row
    segment or a column segment. *)
Definition straight (len : Z) (positions : gset coord) : Prop :=
  exists x y,
    (forall c, c ∈ positions <-> exists i, 0 <= i < len /\ c = (x + i, y))
    \/ (forall c, c ∈ positions <-> exists i, 0 <= i < len /\ c = (x, y + i)).

(** A generator that puts the five ships on the first five rows. *)
Definition rows_rng : Rng :=
  fun i => if (i mod 3 =? 2)%nat then Z.of_nat (i / 3) else 0.

(** ** A run of shots *)

(** The opponent's moves resolved one after the other: the results, and the
    game they leave. *)
Fixpoint play (g : Game) (moves : list string)
  : list (Py.exn + string) * Game :=
  match moves with
  | [] => ([], g)
  | move :: moves' =>
      let rest := play (process_shot move g).1.2 moves' in
      ((process_shot move g).1.1 :: rest.1, rest.2)
  end.

(** [c] is the last cell of [positions] not yet shot. *)
Definition completes (g : Game) (positions : gset coord) (c : coord) : Prop :=
  c ∈ positions /\ (c ∉ opponent_shots g)
  /\ positions ∖ {[c]} ⊆ opponent_shots g.

(** The result tells the shooter that a piece went down. *)
Definition reports_sink (r : Py.exn + string) : Prop :=
  r = inr hit_sunk \/ r = inr "gameover".

#[global] Instance reports_sink_dec r : Decision (reports_sink r).
Proof. unfold reports_sink. apply _. Defined.



(** ** Moves and drivers *)

(** U+00DF, the one character of the range whose uppercase is not one
    character. *)
Definition sharp_s : ascii := ascii_of_nat 223.

(** Every character of the string is an ASCII character. *)
Fixpoint ascii_only (s : string) : bool :=
  match s with
  | EmptyString => true
  | String c s' => (Py.ord c <? 128) && ascii_only s'
  end.

(** The trace of a server that answers the same refused move [n] times. *)
Definition answers (data r : string) (n : nat) : list event :=
  concat (replicate n
            [Line (newline +:+ "Opponent's move: " +:+ data); Sent r]).

(** The messages a run has sent, in order. *)
Definition sent (t : list event) : list string :=
  omap (fun e => match e with Sent msg => Some msg | _ => None end) t.

(** The generator that always delivers zero: every candidate placement is
    the row segment that starts at [A0]. *)
Definition stuck_rng : Rng := fun _ => 0.

(** ** The marks on the board *)

(** [board[row][col]], for a coordinate with non-negative components. *)
Definition cell (b : list (list ascii)) (c : coord) : option ascii :=
  match b !! Z.to_nat c.2 with
  | Some line => line !! Z.to_nat c.1
  | None => None
  end.

(** The mark the cell [c] of the board carries: ['H'] on a shot cell of a
    ship, ['M'] on a shot cell of the water, ['S'] on a cell of a ship not
    shot yet, a blank elsewhere. *)
Definition mark (g : Game) (c : coord) : ascii :=
  if decide (c ∈ opponent_shots g)
  then (if decide (c ∈ claimed g) then "H" else "M")%char
  else (if decide (c ∈ claimed g) then "S" else " ")%char.


(** The board and the sets of the game agree on every cell of the grid. *)
Definition marked (g : Game) : Prop :=
  forall c : coord, in_bounds c -> cell (board g) c = Some (mark g c).

(** ** What an outcome makes a peer print *)

(** The banners for an outcome, on the side of the peer who fired ([own]) and
    on the side of the peer who was fired at. *)
Definition outcome_banners (own : bool) (r : string) : list event :=
  if String.eqb r "hit" then [Banner HIT_ART]
  else if String.eqb r hit_sunk then [Banner HIT_ART; Banner SUNK_ART]
  else if String.eqb r "miss" then [Banner MISS_ART]
  else if String.eqb r "gameover"
       then [Banner (if own then WIN_ART else LOSE_ART)]
  else [].

(** The lines the prompt loop prints for the lines of input it refuses. *)
Definition refusals (bad : list string) : list event :=
  concat (map (fun _ => [Line (newline +:+ "Your move (e.g. A5): ");
                         Line "Invalid move format!"]) bad).

(** ** A game played to the end *)

(** The moves that shoot every cell of the fleet [rows_rng] places, but the
    last cell of the Destroyer. *)
Definition rows_moves : list string :=
  ["A0"; "B0"; "C0"; "D0"; "E0"; "A1"; "B1"; "C1"; "D1";
   "A2"; "B2"; "C2"; "A3"; "B3"; "C3"; "A4"].

(** The game [rows_moves] leads to. *)
Definition last_shot_game : Game := (play (setup rows_rng) rows_moves).2.

(** The fleet [rows_rng] places after the two shots that sink its
    Destroyer. *)
Definition destroyer_sunk_game : Game :=
  (play (setup rows_rng) ["A4"; "B4"]).2.

(** The peer that holds it and is about to receive the last shot. *)
Definition last_shot_peer : Peer :=
  {| game := last_shot_game; rng := rows_rng; inbox := ["B4"];
     keyboard := [] |}.

(** ** The picture of a game *)

(** What [print_boards] puts in the place of a mark of the board. *)
Definition screen_mark (c : ascii) : ascii :=
  if Ascii.eqb c "H" then "X"%char
  else if Ascii.eqb c "M" then "O"%char else c.

(** What the enemy board shows at a coordinate: the peer's own shots, the
    hits among them as [X], the others as [O]. *)
Definition shown_enemy (g : Game) (c : coord) : ascii :=
  if decide (c ∈ shots g)
  then (if decide (c ∈ hits g) then "X" else "O")%char
  else " "%char.

(** What the player's board shows at a coordinate: the opponent's shots, as
    [X] on a ship and [O] on the water, and the ships not shot as [S]. *)
Definition shown_own (g : Game) (c : coord) : ascii :=
  if decide (c ∈ opponent_shots g)
  then (if decide (c ∈ claimed g) then "X" else "O")%char
  else (if decide (c ∈ claimed g) then "S" else " ")%char.

(** The row [i] of the two boards side by side. *)
Definition picture_row (g : Game) (i : nat) : string :=
  (Py.str (Z.of_nat i) +:+ " |"
   +:+ join_cells (map (fun j => shown_enemy g (Z.of_nat j, Z.of_nat i))
                     (seq 0 10))
   +:+ "|   ")
  +:+ "    "
  +:+ (Py.str (Z.of_nat i) +:+ " |"
       +:+ join_cells (map (fun j => shown_own g (Z.of_nat j, Z.of_nat i))
                         (seq 0 10))
       +:+ "|").

Definition picture (g : Game) : list string :=
  [newline;
   "   A B C D E F G H I J    " +:+ "    " +:+ "   A B C D E F G H I J";
   "  +-------------------+   " +:+ "    " +:+ "  +-------------------+"]
  ++ map (picture_row g) (seq 0 10)
  ++ ["  +-------------------+   " +:+ "    " +:+ "  +-------------------+";
      "  [    ENEMY BOARD    ]   " +:+ "    " +:+ "  [     YOUR BOARD    ]";
      newline].

(** ** Closing the connection *)



(** * Part III: lemmas and theorems *)

(** ** Running the monad *)

(** Running a sequence whose first part is known. *)
Lemma bind_run {E S A B} (m : M E S A) (k : A -> M E S B) s a s1 t1 :
  m s = (inr a, s1, t1) ->
  (m ≫= k) s = match k a s1 with (r, s2, t2) => (r, s2, t1 ++ t2) end.
Proof. intros Hm. unfold mbind, M_bind. by rewrite Hm. Qed.

Lemma bind_run_quiet {E S A B} (m : M E S A) (k : A -> M E S B) s a s1 :
  m s = (inr a, s1, []) -> (m ≫= k) s = k a s1.
Proof.
  intros Hm. rewrite (bind_run m k s a s1 [] Hm).
  by destruct (k a s1) as [[r s2] t2].
Qed.

(** ** The shot resolver, case by case *)

Lemma bounds_test_true col row :
  in_bounds (col, row) ->
  (0 <=? col) && (col <? board_size) && (0 <=? row) && (row <? board_size)
  = true.
Proof.
  unfold in_bounds; simpl; intros [[? ?] [? ?]].
  repeat (apply andb_true_intro; split);
    first [ by apply Z.leb_le | by apply Z.ltb_lt ].
Qed.

Lemma bounds_test_false col row :
  ~ in_bounds (col, row) ->
  (0 <=? col) && (col <? board_size) && (0 <=? row) && (row <? board_size)
  = false.
Proof.
  unfold in_bounds; simpl; intros Hn.
  apply not_true_is_false; intros Ht; apply Hn.
  repeat (apply andb_prop in Ht; destruct Ht as [Ht ?]).
  repeat match goal with
         | H : (_ <=? _) = true |- _ => apply Z.leb_le in H
         | H : (_ <? _) = true |- _ => apply Z.ltb_lt in H
         end.
  lia.
Qed.

Lemma process_shot_undecodable move e (g : Game) :
  decode_move move = inl e ->
  process_shot move g
  = if caught e then (inr format_error, g, []) else (inl e, g, []).
Proof.
  intros Hd. unfold process_shot, try_except, mbind, M_bind, lift.
  rewrite Hd. destruct (caught e); reflexivity.
Qed.

Lemma process_shot_out_of_bounds move col row (g : Game) :
  decode_move move = inr (col, row) ->
  ~ in_bounds (col, row) ->
  process_shot move g = (inr "invalid", g, []).
Proof.
  intros Hd Hb. unfold process_shot, try_except, mbind, M_bind, lift.
  rewrite Hd. rewrite (bounds_test_false _ _ Hb). reflexivity.
Qed.

Lemma process_shot_already_shot move col row (g : Game) :
  decode_move move = inr (col, row) ->
  in_bounds (col, row) ->
  (col, row) ∈ opponent_shots g ->
  process_shot move g = (inr "repeat", g, []).
Proof.
  intros Hd Hb Hin. unfold process_shot, try_except, mbind, M_bind, lift.
  rewrite Hd. rewrite (bounds_test_true _ _ Hb). cbn [negb].
  unfold get. rewrite (bool_decide_eq_true_2 _ Hin). reflexivity.
Qed.

Lemma process_shot_fresh move col row (g : Game) :
  decode_move move = inr (col, row) ->
  in_bounds (col, row) ->
  (col, row) ∉ opponent_shots g ->
  process_shot move g
  = match resolve_hit (map snd (ship_positions g)) col row (fire col row g) with
    | (inl e, g', t) =>
        if caught e then (inr format_error, g', t ++ []) else (inl e, g', t)
    | r => r
    end.
Proof.
  intros Hd Hb Hin. unfold process_shot, try_except, mbind, M_bind, lift.
  rewrite Hd. rewrite (bounds_test_true _ _ Hb). cbn [negb].
  unfold get, modify. rewrite (bool_decide_eq_false_2 _ Hin).
  fold (fire col row g). cbn [ship_positions fire set_opponent_shots].
  destruct (resolve_hit _ col row _) as [[[e|r] g'] t]; cbn; try reflexivity.
Qed.

(** ** Well-formed games *)

Lemma board_ok_init : board_ok (board init).
Proof.
  split; [reflexivity|]. cbv. repeat constructor.
Qed.

Lemma index_in_range {A} (l : list A) (i : Z) :
  0 <= i < Z.of_nat (length l) -> Py.index l i = Some (Z.to_nat i).
Proof.
  intros [H0 H1]. unfold Py.index.
  destruct (Z.leb_spec 0 i); [|lia]. destruct (Z.ltb_spec i (Z.of_nat (length l))); [|lia].
  reflexivity.
Qed.

Lemma board_assign_ok row col v (g : Game) :
  board_ok (board g) -> in_bounds (col, row) ->
  exists b, board_ok b /\ board_assign row col v g = (inr tt, set_board b g, []).
Proof.
  intros [Hlen Hrows] [[Hc0 Hc1] [Hr0 Hr1]]. simpl in *.
  unfold board_assign.
  rewrite index_in_range; [|rewrite Hlen; unfold board_size in *; lia].
  destruct (board g !! Z.to_nat row) as [line|] eqn:Hline.
  2:{ apply lookup_ge_None in Hline. rewrite Hlen in Hline.
      unfold board_size in *; lia. }
  assert (Hll : length line = Z.to_nat board_size).
  { rewrite Forall_forall in Hrows. apply Hrows.
    eapply list_elem_of_lookup_2; eauto. }
  rewrite index_in_range; [|rewrite Hll; unfold board_size in *; lia].
  eexists; split; [|reflexivity].
  split.
  - by rewrite length_insert.
  - apply Forall_insert; [done|]. by rewrite length_insert.
Qed.

(** *** What [check_ship_sunk] finds *)

Lemma check_ship_sunk_from_find items hit_pos (g : Game) :
  check_ship_sunk_from items hit_pos g
  = match find (sinkable g hit_pos) items with
    | Some kv => (inr ("Sunk " +:+ fst kv +:+ "!"), sink (fst kv) g, [])
    | None => (inr "", g, [])
    end.
Proof.
  induction items as [|[ship positions] items IH]; [reflexivity|].
  cbn [check_ship_sunk_from find]. unfold mbind, M_bind, get at 1.
  unfold sinkable at 1. cbn [fst snd].
  destruct (bool_decide (hit_pos ∈ positions)
            && negb (bool_decide (ship ∈ sunk_ships g))); cbn [andb].
  - destruct (forallb _ (elements positions)).
    + reflexivity.
    + rewrite IH. by destruct (find _ items).
  - rewrite IH. by destruct (find _ items).
Qed.

Lemma forallb_elements_subseteq (positions shots_ : gset coord) :
  forallb (fun p => bool_decide (p ∈ shots_)) (elements positions) = true
  <-> positions ⊆ shots_.
Proof.
  rewrite forallb_forall. split.
  - intros H p Hp. apply (bool_decide_eq_true_1 _).
    apply H. apply list_elem_of_In. by apply elem_of_elements.
  - intros H p Hp. apply bool_decide_eq_true_2. apply H.
    apply elem_of_elements. by apply list_elem_of_In.
Qed.

Lemma sinkable_spec (g : Game) hit_pos kv :
  sinkable g hit_pos kv = true
  <-> hit_pos ∈ kv.2 /\ (kv.1 ∉ sunk_ships g) /\ kv.2 ⊆ opponent_shots g.
Proof.
  unfold sinkable. rewrite !andb_true_iff, negb_true_iff.
  rewrite bool_decide_eq_true, bool_decide_eq_false.
  rewrite forallb_elements_subseteq. tauto.
Qed.

(** In a fleet whose entries are disjoint, the entry that holds a coordinate
    is unique. *)
Lemma fleet_owner_unique d (c : coord) kv1 kv2 :
  fleet_disjoint d -> kv1 ∈ d -> kv2 ∈ d -> c ∈ kv1.2 -> c ∈ kv2.2 ->
  kv1 = kv2.
Proof.
  intros Hd [i Hi]%list_elem_of_lookup [j Hj]%list_elem_of_lookup H1 H2.
  destruct (decide (i = j)) as [->|Hne]; [congruence|].
  pose proof (Hd i j kv1 kv2 Hi Hj Hne) as Hdis. set_solver.
Qed.

Lemma find_sinkable_owner (g : Game) c kv :
  fleet_disjoint (ship_positions g) ->
  kv ∈ ship_positions g -> c ∈ kv.2 ->
  find (sinkable g c) (ship_positions g)
  = if sinkable g c kv then Some kv else None.
Proof.
  intros Hd Hin Hc.
  destruct (find (sinkable g c) (ship_positions g)) as [kv'|] eqn:Hf.
  - apply find_some in Hf as [Hin' Hs].
    assert (kv' = kv) as ->.
    { apply sinkable_spec in Hs as (Hc' & _).
      eapply fleet_owner_unique; eauto. by apply list_elem_of_In. }
    by rewrite Hs.
  - destruct (sinkable g c kv) eqn:Hs; [|done].
    eapply find_none in Hf; [|apply list_elem_of_In; exact Hin]. congruence.
Qed.

(** *** The sunk set and the end of the game *)

Lemma fleet_names_size : size (list_to_set fleet_names : gset string) = length ships.
Proof. by vm_compute. Qed.

Lemma sunk_subseteq_names (g : Game) :
  wf g -> sunk_ships g ⊆ list_to_set fleet_names.
Proof.
  intros Hwf ship Hs. apply (wf_sunk g Hwf) in Hs as (positions & Hin & _).
  apply elem_of_list_to_set. unfold fleet_names. rewrite <- (wf_names g Hwf).
  apply list_elem_of_fmap. by exists (ship, positions).
Qed.

Lemma all_sunk_size (s : gset string) :
  s ⊆ list_to_set fleet_names ->
  size s = length ships <-> (forall ship, ship ∈ fleet_names -> ship ∈ s).
Proof.
  intros Hsub. split.
  - intros Hsz ship Hship.
    assert (s = list_to_set fleet_names) as ->.
    { apply set_eq. apply set_subseteq_size_equiv; [done|].
      rewrite fleet_names_size. lia. }
    by apply elem_of_list_to_set.
  - intros Hall.
    assert (s = list_to_set fleet_names) as ->; [|apply fleet_names_size].
    apply set_eq. intros x. split; [apply Hsub|].
    intros Hx%elem_of_list_to_set. by apply Hall.
Qed.

(** *** The scan of the fleet *)

Lemma resolve_hit_miss values col row (g : Game) :
  board_ok (board g) -> in_bounds (col, row) ->
  (forall positions, positions ∈ values -> (col, row) ∉ positions) ->
  exists b, board_ok b
    /\ resolve_hit values col row g = (inr "miss", set_board b g, []).
Proof.
  intros Hb Hin. induction values as [|positions values IH]; intros Hno.
  - destruct (board_assign_ok row col "M"%char g Hb Hin) as (b & Hbok & Hset).
    exists b. split; [done|].
    cbn [resolve_hit]. unfold mbind, M_bind. by rewrite Hset.
  - cbn [resolve_hit].
    rewrite bool_decide_eq_false_2 by (apply Hno; left).
    apply IH. intros p Hp. apply Hno. by right.
Qed.

Lemma resolve_hit_found values col row (g : Game) :
  board_ok (board g) -> in_bounds (col, row) ->
  (exists positions, positions ∈ values /\ (col, row) ∈ positions) ->
  exists b, board_ok b
    /\ resolve_hit values col row g
       = match find (sinkable g (col, row)) (ship_positions g) with
         | Some kv =>
             (inr (hit_outcome true (sink (fst kv) (set_board b g))),
              sink (fst kv) (set_board b g), [])
         | None =>
             (inr (hit_outcome false (set_board b g)), set_board b g, [])
         end.
Proof.
  intros Hb Hin. induction values as [|positions values IH]; intros Hex.
  - destruct Hex as (p & Hp & _). by apply elem_of_nil in Hp.
  - cbn [resolve_hit].
    destruct (decide ((col, row) ∈ positions)) as [Hc|Hc].
    + rewrite (bool_decide_eq_true_2 _ Hc).
      destruct (board_assign_ok row col "H"%char g Hb Hin) as (b & Hbok & Hset).
      exists b. split; [done|].
      unfold mbind, M_bind at 1. rewrite Hset.
      unfold check_ship_sunk, mbind, M_bind, get.
      rewrite check_ship_sunk_from_find.
      change (ship_positions (set_board b g)) with (ship_positions g).
      change (sinkable (set_board b g)) with (sinkable g).
      destruct (find (sinkable g (col, row)) (ship_positions g)) as [kv|];
        unfold hit_outcome; cbn [app].
      * destruct (bool_decide (size (sunk_ships (sink kv.1 (set_board b g)))
                               = length ships)); reflexivity.
      * destruct (bool_decide (size (sunk_ships (set_board b g))
                               = length ships)); reflexivity.
    + rewrite (bool_decide_eq_false_2 _ Hc). apply IH.
      destruct Hex as (p & Hp & Hcp).
      apply elem_of_cons in Hp as [->|Hp]; [done|]. eauto.
Qed.

(** *** One shot on a well-formed game *)

Lemma fleet_names_NoDup : NoDup fleet_names.
Proof. apply (bool_decide_unpack _). by vm_compute. Qed.

Lemma fleet_entry_unique (g : Game) ship p1 p2 :
  wf g -> (ship, p1) ∈ ship_positions g -> (ship, p2) ∈ ship_positions g ->
  p1 = p2.
Proof.
  intros Hwf [i Hi]%list_elem_of_lookup [j Hj]%list_elem_of_lookup.
  assert (Hn : forall k p, ship_positions g !! k = Some (ship, p) ->
                      fleet_names !! k = Some ship).
  { intros k p Hk. unfold fleet_names. rewrite <- (wf_names g Hwf).
    change (map fst (ship_positions g)) with (fst <$> ship_positions g).
    by rewrite list_lookup_fmap, Hk. }
  assert (i = j) as ->.
  { eapply NoDup_lookup; [apply fleet_names_NoDup|eauto..]. }
  congruence.
Qed.

Lemma fleet_entry_name (g : Game) ship positions :
  wf g -> (ship, positions) ∈ ship_positions g -> ship ∈ fleet_names.
Proof.
  intros Hwf Hin. unfold fleet_names. rewrite <- (wf_names g Hwf).
  change (map fst (ship_positions g)) with (fst <$> ship_positions g).
  apply list_elem_of_fmap. by exists (ship, positions).
Qed.

Lemma unsunk_while_afloat (g : Game) ship positions c :
  wf g -> (ship, positions) ∈ ship_positions g -> c ∈ positions ->
  c ∉ opponent_shots g -> ship ∉ sunk_ships g.
Proof.
  intros Hwf Hin Hc Hfresh Hs.
  apply (wf_sunk g Hwf) in Hs as (p & Hp & _ & Hsub).
  rewrite (fleet_entry_unique g ship p positions Hwf Hp Hin) in Hsub.
  by apply Hfresh, Hsub.
Qed.

Lemma last_afloat_size (g : Game) ship positions :
  wf g -> (ship, positions) ∈ ship_positions g ->
  size ({[ship]} ∪ sunk_ships g) = length ships <-> last_afloat g ship.
Proof.
  intros Hwf Hin. rewrite all_sunk_size.
  - unfold last_afloat. split.
    + intros H other Ho Hne.
      specialize (H other Ho). apply elem_of_union in H as [Hs|Hs]; [|done].
      by apply elem_of_singleton in Hs.
    + intros H other Ho. destruct (decide (other = ship)) as [->|Hne].
      * apply elem_of_union_l. by apply elem_of_singleton.
      * apply elem_of_union_r. by apply H.
  - pose proof (sunk_subseteq_names g Hwf).
    pose proof (fleet_entry_name g ship positions Hwf Hin).
    intros x [->%elem_of_singleton|Hx]%elem_of_union; [|by auto].
    by apply elem_of_list_to_set.
Qed.

Lemma afloat_size (g : Game) ship positions :
  wf g -> (ship, positions) ∈ ship_positions g -> ship ∉ sunk_ships g ->
  size (sunk_ships g) <> length ships.
Proof.
  intros Hwf Hin Hs Hsz.
  destruct (all_sunk_size _ (sunk_subseteq_names g Hwf)) as [Hall _].
  apply Hs, Hall; [done|]. eapply fleet_entry_name; eauto.
Qed.

Lemma all_shot_after (g g' : Game) c ship :
  ship_positions g' = ship_positions g ->
  opponent_shots g' = {[c]} ∪ opponent_shots g ->
  all_shot g' ship
  <-> all_shot g ship
      \/ exists positions,
           (ship, positions) ∈ ship_positions g /\ c ∈ positions
           /\ positions ⊆ {[c]} ∪ opponent_shots g.
Proof.
  intros Hfleet Hshots. unfold all_shot. rewrite Hfleet, Hshots. split.
  - intros (positions & Hin & Hne & Hsub).
    destruct (decide (c ∈ positions)) as [Hc|Hc].
    + right. by exists positions.
    + left. exists positions. split_and!; [done..|].
      intros p Hp. specialize (Hsub p Hp).
      apply elem_of_union in Hsub as [Hs%elem_of_singleton|Hs]; [|done].
      by subst.
  - intros [(positions & Hin & Hne & Hsub)|(positions & Hin & Hc & Hsub)];
      exists positions; split_and!; try done.
    + intros p Hp. by apply elem_of_union_r, Hsub.
    + intros ->. by apply not_elem_of_empty in Hc.
Qed.

Lemma completes_iff (positions shots_ : gset coord) c :
  positions ⊆ {[c]} ∪ shots_ <-> positions ∖ {[c]} ⊆ shots_.
Proof.
  split.
  - intros H p [Hp Hne]%elem_of_difference.
    apply H, elem_of_union in Hp as [Hp|Hp]; done.
  - intros H p Hp. destruct (decide (p = c)) as [->|Hne].
    + by apply elem_of_union_l, elem_of_singleton.
    + apply elem_of_union_r, H, elem_of_difference.
      split; [done|]. by rewrite elem_of_singleton.
Qed.

Lemma shot_step (g : Game) move c :
  wf g -> decode_move move = inr c -> in_bounds c ->
  c ∉ opponent_shots g ->
  exists r g',
    process_shot move g = (inr r, g', [])
    /\ wf g'
    /\ ship_positions g' = ship_positions g
    /\ opponent_shots g' = {[c]} ∪ opponent_shots g
    /\ shots g' = shots g /\ hits g' = hits g
    /\ resolved g c r (sunk_ships g').
Proof.
  intros Hwf Hd Hb Hfresh. destruct c as [col row].
  rewrite (process_shot_fresh move col row g Hd Hb Hfresh).
  assert (Hbok : board_ok (board (fire col row g))) by apply (wf_board g Hwf).
  assert (Hin' : forall c', c' ∈ {[(col, row)]} ∪ opponent_shots g -> in_bounds c').
  { intros c' [->%elem_of_singleton|Hc']%elem_of_union; [done|].
    by apply (wf_shots g Hwf). }
  destruct (decide (Exists (fun kv => (col, row) ∈ kv.2) (ship_positions g)))
    as [Hex|Hno].
  - (* the coordinate belongs to a ship *)
    apply Exists_exists in Hex as ([ship positions] & Hkv & Hc). simpl in Hc.
    destruct (resolve_hit_found (map snd (ship_positions g)) col row
                (fire col row g) Hbok Hb) as (b & Hb' & ->).
    { exists positions. split; [|done].
      change positions with (snd (ship, positions)).
      by apply (list_elem_of_fmap_2 snd). }
    rewrite (find_sinkable_owner (fire col row g) (col, row) (ship, positions))
      by (try apply (wf_disjoint g Hwf); done).
    pose proof (unsunk_while_afloat g ship positions _ Hwf Hkv Hc Hfresh) as Hafloat.
    destruct (sinkable (fire col row g) (col, row) (ship, positions)) eqn:Hs;
      cbn [fst snd].
    + (* the ship goes down *)
      apply sinkable_spec in Hs as (_ & _ & Hsub). cbn in Hsub.
      eexists _, _. split; [reflexivity|].
      assert (Hwf' : wf (sink ship (set_board b (fire col row g)))).
      { split; try done; try apply Hwf.
        intros s. rewrite (all_shot_after g _ (col, row) s) by done.
        cbn. rewrite elem_of_union, elem_of_singleton, (wf_sunk g Hwf).
        split.
        - intros [->|Hs]; [right|by left]. by exists positions.
        - intros [Hs|(p & Hp & Hcp & _)]; [by right|left].
          assert (E : (s, p) = (ship, positions))
            by (eapply fleet_owner_unique; eauto; apply Hwf).
          congruence. }
      split_and!; try done.
      unfold hit_outcome.
      change (sunk_ships (sink ship (set_board b (fire col row g))))
        with ({[ship]} ∪ sunk_ships g).
      apply completes_iff in Hsub.
      pose proof (last_afloat_size g ship positions Hwf Hkv) as Hlast.
      destruct (decide (size ({[ship]} ∪ sunk_ships g) = length ships))
        as [Hl|Hl].
      * rewrite (bool_decide_eq_true_2 _ Hl).
        eapply resolved_gameover; eauto. by apply Hlast.
      * rewrite (bool_decide_eq_false_2 _ Hl).
        eapply resolved_sunk; eauto. intros Hl'. by apply Hl, Hlast.
    + (* the ship stays afloat *)
      assert (Hnot : ~ positions ⊆ {[(col, row)]} ∪ opponent_shots g).
      { intros Hsub. apply not_true_iff_false in Hs. apply Hs.
        by apply sinkable_spec. }
      eexists _, _. split; [reflexivity|].
      assert (Hwf' : wf (set_board b (fire col row g))).
      { split; try done; try apply Hwf.
        intros s. rewrite (all_shot_after g _ (col, row) s) by done.
        cbn. rewrite (wf_sunk g Hwf). split; [by left|].
        intros [Hs'|(p & Hp & Hcp & Hsub)]; [done|].
        assert (E : (s, p) = (ship, positions))
          by (eapply fleet_owner_unique; eauto; apply Hwf).
        inversion E; subst. done. }
      split_and!; try done.
      unfold hit_outcome.
      change (sunk_ships (set_board b (fire col row g))) with (sunk_ships g).
      rewrite bool_decide_eq_false_2 by (by eapply afloat_size).
      eapply resolved_hit; eauto. by rewrite <- completes_iff.
  - (* the coordinate belongs to no ship *)
    assert (Hnone : forall kv, kv ∈ ship_positions g -> (col, row) ∉ kv.2).
    { intros kv Hkv Hc. apply Hno, Exists_exists. eauto. }
    destruct (resolve_hit_miss (map snd (ship_positions g)) col row
                (fire col row g) Hbok Hb) as (b & Hb' & ->).
    { intros p [kv [-> Hkv]]%list_elem_of_fmap. by apply Hnone. }
    eexists _, _. split; [reflexivity|].
    split_and!; try done;
      [|change (sunk_ships (set_board b (fire col row g))) with (sunk_ships g);
        by apply resolved_miss].
    split; try done; try apply Hwf.
    intros s. rewrite (all_shot_after g _ (col, row) s) by done.
    cbn. rewrite (wf_sunk g Hwf). split; [by left|].
    intros [Hs'|(p & Hp & Hcp & _)]; [done|]. by destruct (Hnone _ Hp).
Qed.

(** ** Fleet placement *)

Lemma elem_of_run_cells h x y size c :
  c ∈ run_cells h x y size
  <-> exists i, 0 <= i < size
        /\ c = if h then (x + i, y) else (x, y + i).
Proof.
  unfold run_cells. destruct h.
  - change (map ?f ?l) with (f <$> l). rewrite list_elem_of_fmap. split.
    + intros (i & -> & Hi%elem_of_seqZ). exists i. split; [lia|done].
    + intros (i & Hi & ->). exists i. split; [done|]. apply elem_of_seqZ. lia.
  - change (map ?f ?l) with (f <$> l). rewrite list_elem_of_fmap. split.
    + intros (i & -> & Hi%elem_of_seqZ). exists i. split; [lia|done].
    + intros (i & Hi & ->). exists i. split; [done|]. apply elem_of_seqZ. lia.
Qed.

Lemma run_cells_in_bounds h x y size c :
  0 < size -> anchored h x y size -> c ∈ run_cells h x y size -> in_bounds c.
Proof.
  intros Hsz Ha (i & Hi & ->)%elem_of_run_cells.
  unfold anchored, in_bounds, board_size in *. destruct h; simpl; lia.
Qed.

Lemma run_cells_NoDup h x y size : NoDup (run_cells h x y size).
Proof.
  unfold run_cells. destruct h;
    (apply (NoDup_fmap_2_strong _); [|apply NoDup_seqZ]);
    intros i j _ _ E; inversion E; lia.
Qed.

Lemma run_cells_length h x y size :
  length (run_cells h x y size) = Z.to_nat size.
Proof.
  unfold run_cells. destruct h; by rewrite length_map, length_seqZ.
Qed.

(** A coordinate is free when no entry of the dictionary holds it. *)
Lemma elem_of_claimed (g : Game) c :
  c ∈ claimed g <-> exists kv, kv ∈ ship_positions g /\ c ∈ kv.2.
Proof.
  unfold claimed. rewrite list_elem_of_In, in_concat. split.
  - intros (l & Hl & Hc). apply in_map_iff in Hl as (kv & <- & Hkv).
    exists kv. split; [by apply list_elem_of_In|].
    by apply elem_of_elements, list_elem_of_In.
  - intros (kv & Hkv & Hc). exists (elements kv.2). split.
    + apply in_map_iff. exists kv. split; [done|]. by apply list_elem_of_In.
    + by apply list_elem_of_In, elem_of_elements.
Qed.

Lemma overlap_test (g : Game) cells :
  existsb (fun pos => bool_decide (pos ∈ claimed g)) cells = false
  <-> forall c kv, c ∈ cells -> kv ∈ ship_positions g -> c ∉ kv.2.
Proof.
  rewrite <- not_true_iff_false, existsb_exists. split.
  - intros Hno c kv Hc Hkv Hin. apply Hno. exists c. split.
    + by apply list_elem_of_In.
    + apply bool_decide_eq_true_2, elem_of_claimed. eauto.
  - intros Hfree (c & Hc%list_elem_of_In & Ht).
    apply bool_decide_eq_true_1, elem_of_claimed in Ht as (kv & Hkv & Hin).
    by apply (Hfree c kv).
Qed.

Lemma with_cells_names ship cells d :
  map fst (with_cells ship cells d) = map fst d.
Proof.
  unfold with_cells. induction d as [|[k v] d IH]; [done|].
  cbn. rewrite IH. by destruct (decide (k = ship)).
Qed.

Lemma with_cells_absent ship cells d :
  ship ∉ map fst d -> with_cells ship cells d = d.
Proof.
  unfold with_cells. induction d as [|[k v] d IH]; [done|]. cbn.
  intros Hn. apply not_elem_of_cons in Hn as [Hne Hn].
  rewrite IH by done. destruct (decide (k = ship)); congruence.
Qed.

Lemma dict_add_with_cells ship pos d :
  NoDup (map fst d) -> ship ∈ map fst d ->
  dict_add ship pos d = Some (with_cells ship {[pos]} d).
Proof.
  induction d as [|[k v] d IH]; cbn; intros Hnd Hin.
  - by apply elem_of_nil in Hin.
  - apply NoDup_cons in Hnd as [Hk Hnd].
    destruct (decide (k = ship)) as [->|Hne].
    + fold (with_cells ship {[pos]} d). by rewrite with_cells_absent.
    + apply elem_of_cons in Hin as [->|Hin]; [done|].
      rewrite IH by done. reflexivity.
Qed.

Lemma with_cells_twice (ship : string) (a b : gset coord)
    (d : list (string * gset coord)) :
  with_cells ship a (with_cells ship b d) = with_cells ship (b ∪ a) d.
Proof.
  unfold with_cells. rewrite map_map. apply map_ext. intros [k v]. cbn.
  destruct (decide (k = ship)) as [->|Hne]; cbn.
  - rewrite decide_True by done. f_equal. set_solver.
  - by rewrite decide_False.
Qed.

Lemma with_cells_empty (ship : string) (d : list (string * gset coord)) :
  with_cells ship ∅ d = d.
Proof.
  unfold with_cells. rewrite <- (map_id d) at 2. apply map_ext. intros [k v].
  cbn. destruct (decide (k = ship)); [|done]. f_equal. set_solver.
Qed.

Lemma game_eta (g : Game) :
  set_ship_positions (ship_positions g) (set_board (board g) g) = g.
Proof. by destruct g. Qed.

(** The inner [for pos in positions] loop marks the cells on the board and
    adds them to the ship's entry; it cannot raise on cells in bounds. *)
Lemma place_cells ship cells (g : Game) (rng : Rng) :
  board_ok (board g) ->
  NoDup (map fst (ship_positions g)) -> ship ∈ map fst (ship_positions g) ->
  (forall c, c ∈ cells -> in_bounds c) ->
  exists b, board_ok b
    /\ for_each cells (fun pos =>
         on_game (board_assign (snd pos) (fst pos) "S"%char);;
         on_game (positions_add ship pos)) (g, rng)
       = (inr tt,
          (set_ship_positions
             (with_cells ship (list_to_set cells) (ship_positions g))
             (set_board b g), rng), []).
Proof.
  revert g. induction cells as [|c cells IH]; intros g Hb Hnd Hin Hcells.
  - exists (board g). split; [done|]. cbn.
    by rewrite with_cells_empty, game_eta.
  - destruct c as [x y].
    destruct (board_assign_ok y x "S"%char g Hb) as (b1 & Hb1 & Hset).
    { apply Hcells. by left. }
    set (g1 := set_ship_positions
                 (with_cells ship {[(x, y)]} (ship_positions g))
                 (set_board b1 g)).
    destruct (IH g1) as (b2 & Hb2 & Hrest).
    + done.
    + cbn. by rewrite with_cells_names.
    + cbn. by rewrite with_cells_names.
    + intros c' Hc'. apply Hcells. by right.
    + exists b2. split; [done|].
      assert (H1 : on_game (board_assign y x "S"%char) (g, rng)
                   = (inr tt, (set_board b1 g, rng), [])).
      { unfold on_game. by rewrite Hset. }
      assert (H2 : on_game (positions_add ship (x, y)) (set_board b1 g, rng)
                   = (inr tt, (g1, rng), [])).
      { unfold on_game, positions_add. cbn [ship_positions set_board].
        by rewrite (dict_add_with_cells ship (x, y) (ship_positions g) Hnd Hin). }
      cbn [for_each].
      rewrite (bind_run_quiet _ _ (g, rng) tt (g1, rng)).
      * rewrite Hrest. unfold g1, set_ship_positions, set_board.
        cbn [board opponent_shots ship_positions sunk_ships shots hits].
        by rewrite with_cells_twice.
      * cbn [fst snd]. by rewrite (bind_run_quiet _ _ _ _ _ H1).
Qed.

Lemma random_choice_run (g : Game) (rng : Rng) :
  exists h, random_choice (g, rng) = (inr h, (g, fun i => rng (S i)), []).
Proof. eexists. reflexivity. Qed.

Lemma randint_run a b (g : Game) (rng : Rng) :
  a <= b ->
  exists x, a <= x <= b
    /\ randint a b (g, rng) = (inr x, (g, fun i => rng (S i)), []).
Proof.
  intros Hab. exists (a + rng 0%nat `mod` (b - a + 1)). split.
  - pose proof (Z.mod_pos_bound (rng 0%nat) (b - a + 1)). lia.
  - unfold randint. destruct (Z.ltb_spec b a); [lia|]. reflexivity.
Qed.

(** One ship: the loop returns normally, and either leaves the game as it
    was (every attempt collided) or has put the ship on free cells. *)
Lemma place_ship_run budget ship size (g : Game) (rng : Rng) :
  board_ok (board g) ->
  NoDup (map fst (ship_positions g)) -> ship ∈ map fst (ship_positions g) ->
  0 < size <= board_size ->
  exists g' rng',
    place_ship budget ship size (g, rng) = (inr tt, (g', rng'), [])
    /\ (g' = g
        \/ exists h x y b,
             anchored h x y size /\ board_ok b
             /\ (forall c kv, c ∈ run_cells h x y size ->
                              kv ∈ ship_positions g -> c ∉ kv.2)
             /\ g' = set_ship_positions
                       (with_cells ship (list_to_set (run_cells h x y size))
                          (ship_positions g))
                       (set_board b g)).
Proof.
  intros Hb Hnd Hin Hsz. revert rng.
  induction budget as [|budget IH]; intros rng.
  - exists g, rng. split; [reflexivity|by left].
  - cbn [place_ship].
    destruct (random_choice_run g rng) as (h & Hh).
    set (rng1 := fun i => rng (S i)) in *.
    assert (Hcand : exists x y rng3,
      anchored h x y size
      /\ (if h
          then x ← randint 0 (board_size - size);
               y ← randint 0 (board_size - 1);
               mret (map (fun i => (x + i, y)) (seqZ 0 size))
          else x ← randint 0 (board_size - 1);
               y ← randint 0 (board_size - size);
               mret (map (fun i => (x, y + i)) (seqZ 0 size))) (g, rng1)
         = (inr (run_cells h x y size), (g, rng3), [])).
    { unfold anchored, run_cells, board_size in *. destruct h.
      - destruct (randint_run 0 (10 - size) g rng1) as (x & Hx & Ex); [lia|].
        destruct (randint_run 0 (10 - 1) g (fun i => rng1 (S i)))
          as (y & Hy & Ey); [lia|].
        exists x, y, (fun i => rng1 (S (S i))). split; [lia|].
        by rewrite (bind_run_quiet _ _ _ _ _ Ex), (bind_run_quiet _ _ _ _ _ Ey).
      - destruct (randint_run 0 (10 - 1) g rng1) as (x & Hx & Ex); [lia|].
        destruct (randint_run 0 (10 - size) g (fun i => rng1 (S i)))
          as (y & Hy & Ey); [lia|].
        exists x, y, (fun i => rng1 (S (S i))). split; [lia|].
        by rewrite (bind_run_quiet _ _ _ _ _ Ex), (bind_run_quiet _ _ _ _ _ Ey). }
    destruct Hcand as (x & y & rng3 & Hanch & Hcand).
    rewrite (bind_run_quiet _ _ _ _ _ Hh).
    rewrite (bind_run_quiet _ _ _ _ _ Hcand).
    rewrite (bind_run_quiet get _ _ (g, rng3) (g, rng3) eq_refl).
    destruct (existsb (fun pos => bool_decide (pos ∈ claimed g))
                (run_cells h x y size)) eqn:Hov; cbn [negb].
    + destruct (IH rng3) as (g' & rng' & Hrun & Hres).
      exists g', rng'. rewrite Hrun. split; [reflexivity|done].
    + destruct (place_cells ship (run_cells h x y size) g rng3 Hb Hnd Hin)
        as (b & Hb' & Hplace).
      { intros c Hc. eapply run_cells_in_bounds; eauto. lia. }
      rewrite Hplace. eexists _, _. split; [reflexivity|].
      right. exists h, x, y, b. split_and!; try done.
      by apply overlap_test.
Qed.

(** *** The invariant of the placement loop *)

Lemma names_lookup (d : list (string * gset coord)) i kv :
  map fst d = fleet_names -> d !! i = Some kv -> fleet_names !! i = Some kv.1.
Proof.
  intros <- Hi. change (map fst d) with (fst <$> d).
  by rewrite list_lookup_fmap, Hi.
Qed.

Lemma entry_unique (d : list (string * gset coord)) ship p1 p2 :
  map fst d = fleet_names -> (ship, p1) ∈ d -> (ship, p2) ∈ d -> p1 = p2.
Proof.
  intros Hn [i Hi]%list_elem_of_lookup [j Hj]%list_elem_of_lookup.
  pose proof (names_lookup d i _ Hn Hi) as Ni.
  pose proof (names_lookup d j _ Hn Hj) as Nj.
  assert (i = j) as ->; [|congruence].
  eapply NoDup_lookup; [apply fleet_names_NoDup|exact Ni|exact Nj].
Qed.

Lemma ship_size_unique ship s1 s2 :
  (ship, s1) ∈ ships -> (ship, s2) ∈ ships -> s1 = s2.
Proof.
  intros [i Hi]%list_elem_of_lookup [j Hj]%list_elem_of_lookup.
  assert (i = j) as ->; [|congruence].
  eapply NoDup_lookup; [apply fleet_names_NoDup|..]; unfold fleet_names;
    change (map fst ships) with (fst <$> ships);
    rewrite list_lookup_fmap; [by rewrite Hi|by rewrite Hj].
Qed.

Lemma ship_size_bounds ship size :
  (ship, size) ∈ ships -> 2 <= size <= 5.
Proof.
  unfold ships. rewrite !elem_of_cons, elem_of_nil.
  intros [E|[E|[E|[E|[E|[]]]]]]; inversion E; lia.
Qed.

Lemma placement_ok_init : placement_ok ships init.
Proof.
  split; try done.
  - apply board_ok_init.
  - intros i j kv1 kv2 Hi Hj _.
    assert (H1 : kv1.2 = ∅).
    { apply list_elem_of_lookup_2 in Hi. cbn in Hi.
      rewrite !elem_of_cons, elem_of_nil in Hi.
      destruct Hi as [->|[->|[->|[->|[->|[]]]]]]; done. }
    rewrite H1. apply disjoint_empty_l.
  - intros ship size positions _ Hin. left. cbn in Hin.
    rewrite !elem_of_cons, elem_of_nil in Hin.
    destruct Hin as [E|[E|[E|[E|[E|[]]]]]]; by inversion E.
  - intros ship size Hin. unfold ships in Hin. cbn.
    rewrite !elem_of_cons, elem_of_nil in Hin. rewrite !elem_of_cons.
    destruct Hin as [E|[E|[E|[E|[E|[]]]]]]; inversion E; subst; tauto.
Qed.

Lemma with_cells_lookup (ship : string) (cells : gset coord)
    (d : list (string * gset coord)) (i : nat) :
  with_cells ship cells d !! i
  = (fun kv => if decide (kv.1 = ship) then (kv.1, cells ∪ kv.2) else kv)
    <$> d !! i.
Proof. unfold with_cells. apply list_lookup_fmap. Qed.

(** Placing one ship keeps the invariant and takes the ship off the list. *)
Lemma placement_ok_step ship size todo (g g' : Game) h x y b :
  placement_ok ((ship, size) :: todo) g ->
  (ship, size) ∈ ships -> ship ∉ map fst todo ->
  anchored h x y size -> board_ok b ->
  (forall c kv, c ∈ run_cells h x y size ->
                kv ∈ ship_positions g -> c ∉ kv.2) ->
  g' = set_ship_positions
         (with_cells ship (list_to_set (run_cells h x y size))
            (ship_positions g))
         (set_board b g) ->
  placement_ok todo g'.
Proof.
  intros Hok Hship Hnot Hanch Hb Hfree ->.
  set (cells := list_to_set (run_cells h x y size) : gset coord).
  assert (Hvoid : (ship, ∅) ∈ ship_positions g)
    by (apply (po_todo _ _ Hok ship size); left).
  assert (Hupd : forall kv, kv ∈ ship_positions g -> kv.1 = ship -> kv.2 = ∅).
  { intros [k v] Hkv E. cbn in E. subst k. cbn.
    eapply entry_unique; eauto. apply Hok. }
  split; cbn [board ship_positions opponent_shots sunk_ships shots hits
              set_ship_positions set_board]; try apply Hok; try done.
  - rewrite with_cells_names. apply Hok.
  - intros i j kv1 kv2. rewrite !with_cells_lookup.
    destruct (ship_positions g !! i) as [e1|] eqn:Hi; [|done].
    destruct (ship_positions g !! j) as [e2|] eqn:Hj; [|done].
    cbn. intros [= <-] [= <-] Hne.
    pose proof (list_elem_of_lookup_2 _ _ _ Hi) as Hin1.
    pose proof (list_elem_of_lookup_2 _ _ _ Hj) as Hin2.
    pose proof (po_disjoint _ _ Hok i j e1 e2 Hi Hj Hne) as Hdis.
    destruct (decide (e1.1 = ship)) as [E1|N1];
      destruct (decide (e2.1 = ship)) as [E2|N2]; cbn; try done.
    + exfalso. apply Hne. eapply NoDup_lookup; [apply fleet_names_NoDup|..].
      * eapply names_lookup; [apply Hok|exact Hi].
      * rewrite E1, <- E2. eapply names_lookup; [apply Hok|exact Hj].
    + rewrite (Hupd e1 Hin1 E1), (right_id_L ∅ (∪)).
      apply elem_of_disjoint. intros c Hc%elem_of_list_to_set Hc2.
      by apply (Hfree c e2).
    + rewrite (Hupd e2 Hin2 E2), (right_id_L ∅ (∪)).
      apply elem_of_disjoint. intros c Hc1 Hc%elem_of_list_to_set.
      by apply (Hfree c e1).
  - intros s sz positions Hs Hin.
    apply list_elem_of_lookup in Hin as [i Hi].
    rewrite with_cells_lookup in Hi.
    destruct (ship_positions g !! i) as [e|] eqn:He; [|done].
    cbn in Hi. pose proof (list_elem_of_lookup_2 _ _ _ He) as Hine.
    destruct (decide (e.1 = ship)) as [E|N].
    + injection Hi as <- <-. right.
      rewrite (Hupd e Hine E), (right_id_L ∅ (∪)).
      rewrite E in Hs. rewrite (ship_size_unique ship sz size Hs Hship).
      by exists h, x, y.
    + injection Hi as ->. by apply (po_runs _ _ Hok s sz).
  - intros s sz Hin.
    assert (Hne : s <> ship).
    { intros ->. apply Hnot.
      change (map fst todo) with (fst <$> todo).
      apply list_elem_of_fmap. by exists (ship, sz). }
    assert (Hs : (s, ∅) ∈ ship_positions g)
      by (apply (po_todo _ _ Hok s sz); by right).
    apply list_elem_of_lookup in Hs as [i Hi].
    apply list_elem_of_lookup. exists i.
    rewrite with_cells_lookup, Hi. cbn. by rewrite decide_False.
Qed.

Lemma placement_ok_weaken x todo (g : Game) :
  placement_ok (x :: todo) g -> placement_ok todo g.
Proof.
  intros Hok. split; try apply Hok.
  intros ship size Hin. apply (po_todo _ _ Hok ship size). by right.
Qed.

(** The outer [for ship, size in self.ships.items()] loop. *)
Lemma place_fleet_run todo (g : Game) (rng : Rng) :
  placement_ok todo g ->
  (forall x, x ∈ todo -> x ∈ ships) -> NoDup (map fst todo) ->
  exists g' rng',
    for_each todo (fun '(ship, size) => place_ship 100 ship size) (g, rng)
    = (inr tt, (g', rng'), [])
    /\ placement_ok [] g'.
Proof.
  revert g rng. induction todo as [|[ship size] todo IH]; intros g rng Hok Hsub Hnd.
  - exists g, rng. by split.
  - cbn in Hnd. apply NoDup_cons in Hnd as [Hnot Hnd].
    assert (Hship : (ship, size) ∈ ships) by (apply Hsub; left).
    pose proof (ship_size_bounds ship size Hship) as Hsz.
    destruct (place_ship_run 100 ship size g rng) as (g1 & rng1 & Hrun & Hres).
    { apply Hok. }
    { rewrite (po_names _ _ Hok). apply fleet_names_NoDup. }
    { rewrite (po_names _ _ Hok). unfold fleet_names.
      change (map fst ships) with (fst <$> ships).
      apply list_elem_of_fmap. by exists (ship, size). }
    { unfold board_size. lia. }
    assert (Hok1 : placement_ok todo g1).
    { destruct Hres as [->|(h & x & y & b & Hanch & Hb & Hfree & ->)].
      - by eapply placement_ok_weaken.
      - by eapply placement_ok_step. }
    destruct (IH g1 rng1 Hok1) as (g' & rng' & Hrest & Hok').
    { intros x Hx. apply Hsub. by right. }
    { done. }
    exists g', rng'. split; [|done].
    cbn [for_each]. by rewrite (bind_run_quiet _ _ _ _ _ Hrun).
Qed.

(** Placement always returns, whatever the generator delivers. *)
Lemma place_ships_randomly_returns (rng : Rng) :
  exists rng',
    place_ships_randomly (init, rng) = (inr tt, (setup rng, rng'), [])
    /\ placement_ok [] (setup rng).
Proof.
  destruct (place_fleet_run ships init rng placement_ok_init)
    as (g & rng' & Hrun & Hok).
  - done.
  - apply fleet_names_NoDup.
  - exists rng'. unfold setup, place_ships_randomly. rewrite Hrun. by split.
Qed.

Lemma placement_ok_wf (g : Game) : placement_ok [] g -> wf g.
Proof.
  intros Hok. split; try apply Hok.
  - intros [ship positions] c Hin Hc. cbn in Hc.
    assert (Hname : ship ∈ fst <$> ships).
    { change (fst <$> ships) with fleet_names. rewrite <- (po_names _ _ Hok).
      change (map fst (ship_positions g)) with (fst <$> ship_positions g).
      apply list_elem_of_fmap. by exists (ship, positions). }
    apply list_elem_of_fmap in Hname as ([s len] & -> & Hs). cbn in *.
    destruct (po_runs _ _ Hok s len positions Hs Hin)
      as [->|(h & x & y & Hanch & ->)].
    + by apply not_elem_of_empty in Hc.
    + apply elem_of_list_to_set in Hc.
      pose proof (ship_size_bounds s len Hs).
      eapply run_cells_in_bounds; eauto. lia.
  - intros c. rewrite (po_shots _ _ Hok). by intros ?%not_elem_of_empty.
  - intros ship. rewrite (po_sunk _ _ Hok). split.
    + by intros ?%not_elem_of_empty.
    + intros (positions & _ & Hne & Hsub).
      rewrite (po_shots _ _ Hok) in Hsub. exfalso. apply Hne.
      apply set_eq. intros c. split; [apply Hsub|by intros ?%not_elem_of_empty].
Qed.

(** ** Reachable games *)

(** Whatever the move, [process_shot] keeps a well-formed game well formed
    and never touches the fleet. *)
Lemma process_shot_wf (g : Game) move :
  wf g ->
  wf (process_shot move g).1.2
  /\ ship_positions (process_shot move g).1.2 = ship_positions g
  /\ opponent_shots g ⊆ opponent_shots (process_shot move g).1.2
  /\ sunk_ships g ⊆ sunk_ships (process_shot move g).1.2.
Proof.
  intros Hwf. destruct (decode_move move) as [e|c] eqn:Hd.
  - rewrite (process_shot_undecodable move e g Hd). by destruct (caught e).
  - destruct (decide (in_bounds c)) as [Hb|Hb].
    + destruct (decide (c ∈ opponent_shots g)) as [Hin|Hin].
      * destruct c as [col row].
        by rewrite (process_shot_already_shot move col row g Hd Hb Hin).
      * destruct (shot_step g move c Hwf Hd Hb Hin)
          as (r & g' & -> & Hwf' & Hf & Hs & _ & _ & Hres).
        cbn. split_and!; try done.
        -- rewrite Hs. apply union_subseteq_r.
        -- inversion Hres; try done; apply union_subseteq_r.
    + destruct c as [col row].
      by rewrite (process_shot_out_of_bounds move col row g Hd Hb).
Qed.

Lemma handle_move_result_frame (g : Game) move result :
  let g' := (handle_move_result move result g).1.2 in
  board g' = board g /\ opponent_shots g' = opponent_shots g
  /\ ship_positions g' = ship_positions g /\ sunk_ships g' = sunk_ships g.
Proof.
  unfold handle_move_result.
  destruct (String.eqb result "" || bool_decide (result ∈ ["invalid"; "repeat"]));
    [done|].
  unfold mbind, M_bind, lift, modify, emit, mret, M_ret.
  destruct (decode_move move) as [e|[col row]]; [done|]. cbn.
  destruct (Py.contains "hit" result); cbn.
  - by destruct (Py.contains "sunk" result).
  - destruct (Py.contains "miss" result); cbn; [done|].
    by destruct (String.eqb result "gameover").
Qed.

Lemma reachable_wf (g : Game) : reachable g -> wf g.
Proof.
  induction 1 as [rng|g move _ IH|g move result _ IH].
  - destruct (place_ships_randomly_returns rng) as (_ & _ & Hok).
    by apply placement_ok_wf.
  - by apply process_shot_wf.
  - destruct (handle_move_result_frame g move result) as (Hb & Hs & Hf & Hk).
    destruct IH as [Ib In Id Is Ik].
    split; unfold all_shot in *; rewrite ?Hb, ?Hs, ?Hf, ?Hk; done.
Qed.

(** ** Every case of [process_shot] on a well-formed game *)

Lemma shot_viewP (g : Game) move : wf g -> shot_view g move (process_shot move g).
Proof.
  intros Hwf. destruct (decode_move move) as [e|c] eqn:Hd.
  - rewrite (process_shot_undecodable move e g Hd).
    pose proof (view_undecodable g move e Hd) as V. by destruct (caught e).
  - destruct (decide (in_bounds c)) as [Hb|Hb].
    + destruct (decide (c ∈ opponent_shots g)) as [Hin|Hin].
      * destruct c as [col row].
        rewrite (process_shot_already_shot move col row g Hd Hb Hin).
        by eapply view_repeat.
      * destruct (shot_step g move c Hwf Hd Hb Hin)
          as (r & g' & -> & Hwf' & Hf & Hs & Ho & Hh & Hres).
        by eapply view_fresh.
    + destruct c as [col row].
      rewrite (process_shot_out_of_bounds move col row g Hd Hb).
      by eapply view_invalid.
Qed.

Lemma resolved_token (g : Game) c r sunk :
  resolved g c r sunk -> r ∈ ["miss"; "hit"; hit_sunk; "gameover"].
Proof. destruct 1; set_solver. Qed.

(** ** Shots off the board and repeated shots *)

(** C5. A move that decodes to a coordinate outside [0,10) x [0,10) makes
    [process_shot] return the token [invalid], print nothing, and leave the
    whole game as it was: [opponent_shots], [board] and [sunk_ships]
    included. *)
Theorem out_of_bounds_shot_is_invalid (g : Game) (move : string) (col row : Z) :
  decode_move move = inr (col, row) ->
  ~ (0 <= col < 10 /\ 0 <= row < 10) ->
  process_shot move g = (inr "invalid", g, [])
  /\ opponent_shots (process_shot move g).1.2 = opponent_shots g
  /\ board (process_shot move g).1.2 = board g
  /\ sunk_ships (process_shot move g).1.2 = sunk_ships g.
Proof.
  intros Hd Hb.
  by rewrite (process_shot_out_of_bounds move col row g Hd Hb).
Qed.

Lemma out_of_bounds_shot_is_invalid_witness :
  process_shot "Z9" init = (inr "invalid", init, [])
  /\ opponent_shots (process_shot "Z9" init).1.2 = opponent_shots init
  /\ board (process_shot "Z9" init).1.2 = board init
  /\ sunk_ships (process_shot "Z9" init).1.2 = sunk_ships init.
Proof.
  apply (out_of_bounds_shot_is_invalid init "Z9" 25 9); [reflexivity|lia].
Defined.

(** C6. On a game a peer can hold, a move that decodes to a coordinate
    already in [opponent_shots] makes [process_shot] return the token
    [repeat] and leave the whole game as it was, so that repeating the shot
    once more gives the same answer. *)
Theorem repeated_shot_is_repeat (g : Game) (move : string) (col row : Z) :
  reachable g ->
  decode_move move = inr (col, row) ->
  (col, row) ∈ opponent_shots g ->
  process_shot move g = (inr "repeat", g, [])
  /\ process_shot move (process_shot move g).1.2 = process_shot move g.
Proof.
  intros Hr Hd Hin. pose proof (reachable_wf g Hr) as Hwf.
  assert (E : process_shot move g = (inr "repeat", g, [])).
  { apply (process_shot_already_shot move col row g Hd); [|done].
    by apply (wf_shots g Hwf). }
  by rewrite E.
Qed.

Lemma repeated_shot_is_repeat_witness :
  let g := (process_shot "A0" (setup (fun _ => 0))).1.2 in
  process_shot "A0" g = (inr "repeat", g, [])
  /\ process_shot "A0" (process_shot "A0" g).1.2 = process_shot "A0" g.
Proof.
  apply (repeated_shot_is_repeat _ "A0" 0 0).
  - apply reach_shot, reach_setup.
  - reflexivity.
  - apply (bool_decide_unpack _). vm_compute. exact I.
Defined.

(** ** Encoding a coordinate *)

(** Case analysis on every integer comparison in sight, then arithmetic. *)
Ltac bool_lia :=
  repeat match goal with
    | H : context [?a <=? ?b] |- _ => destruct (Z.leb_spec a b)
    | H : context [?a <? ?b] |- _ => destruct (Z.ltb_spec a b)
    | H : context [?a =? ?b] |- _ => destruct (Z.eqb_spec a b)
    | |- context [?a <=? ?b] => destruct (Z.leb_spec a b)
    | |- context [?a <? ?b] => destruct (Z.ltb_spec a b)
    | |- context [?a =? ?b] => destruct (Z.eqb_spec a b)
    end;
  cbn in *; try discriminate; try reflexivity; try lia.

(** Evaluates [Py.digit_value] on the literal character under scrutiny. *)
Ltac eval_digit :=
  cbn [Py.scan_digits];
  match goal with
  | |- context [Py.digit_value ?c] =>
      let v := eval vm_compute in (Py.digit_value c) in
      change (Py.digit_value c) with v
  end;
  cbv iota beta.

Lemma scan_digits_acc (d : Decimal.uint) (acc : positive) :
  Py.scan_digits (Z.pos acc) false (NilEmpty.string_of_uint d)
  = Some (Z.pos (Pos.of_uint_acc d acc), "").
Proof.
  revert acc. induction d; intros acc;
    cbn [NilEmpty.string_of_uint Pos.of_uint_acc];
    [reflexivity|..];
    eval_digit; rewrite <- IHd; f_equal; lia.
Qed.

Lemma scan_digits_uint (d : Decimal.uint) :
  Py.scan_digits 0 false (NilEmpty.string_of_uint d)
  = Some (Z.of_N (Pos.of_uint d), "").
Proof.
  induction d; cbn [NilEmpty.string_of_uint Pos.of_uint];
    [reflexivity|..];
    eval_digit; first [exact IHd | apply scan_digits_acc].
Qed.

Lemma to_uint_digits (p : positive) :
  exists c s, NilEmpty.string_of_uint (Pos.to_uint p) = String c s
              /\ Py.between 48 (Py.ord c) 57 = true.
Proof.
  assert (H : Pos.to_uint p <> Decimal.Nil).
  { intros E. pose proof (DecimalPos.Unsigned.of_to p) as Hp.
    rewrite E in Hp. discriminate. }
  destruct (Pos.to_uint p); [done|..]; cbn; eexists _, _; split; reflexivity.
Qed.

Lemma int_str (n : Z) : 0 <= n -> Py.int (Py.str n) = Some n.
Proof.
  intros Hn. unfold Py.str. destruct n as [|p|p]; [reflexivity| |lia].
  cbn [Z.to_int NilZero.string_of_int].
  assert (E : NilZero.string_of_uint (Pos.to_uint p)
              = NilEmpty.string_of_uint (Pos.to_uint p)).
  { unfold NilZero.string_of_uint.
    destruct (to_uint_digits p) as (c & s & Hs & _).
    by destruct (Pos.to_uint p). }
  rewrite E. destruct (to_uint_digits p) as (c & s & Hs & Hc).
  pose proof (scan_digits_uint (Pos.to_uint p)) as Hscan.
  rewrite DecimalPos.Unsigned.of_to in Hscan.
  unfold Py.int. rewrite Hs in *. cbn [Py.lstrip].
  assert (Hsp : Py.isspace c = false).
  { unfold Py.isspace, Py.between in *. by bool_lia. }
  rewrite Hsp.
  assert (Hplus : (Py.ord c =? 43) = false)
    by (unfold Py.between in Hc; by bool_lia).
  assert (Hminus : (Py.ord c =? 45) = false)
    by (unfold Py.between in Hc; by bool_lia).
  rewrite Hplus, Hminus.
  unfold Py.digit_value at 1. rewrite Hc, Hscan. cbn. reflexivity.
Qed.

Lemma ord_chr (n : Z) : 0 <= n < 256 -> Py.ord (Py.chr n) = n.
Proof.
  intros Hn. unfold Py.ord, Py.chr. rewrite N_ascii_embedding; lia.
Qed.

(** Every capital letter followed by the decimal digits of a natural number
    decodes to the coordinate it was made from. *)
Lemma decode_encode_letters (col row : Z) :
  0 <= col < 26 -> 0 <= row ->
  decode_move (encode_move (col, row)) = inr (col, row).
Proof.
  intros Hc Hr. unfold decode_move, encode_move. cbn [Py.head Py.tail fst snd].
  change (Py.ord "A"%char) with 65.
  assert (Hu : Py.upper (Py.chr (65 + col)) = [65 + col]).
  { unfold Py.upper. rewrite ord_chr by lia. unfold Py.between. by bool_lia. }
  rewrite Hu. cbn [Py.ord_str]. rewrite (int_str row Hr).
  do 2 f_equal. lia.
Qed.

(** C9. For every coordinate of the board, the move string made of the
    column letter and the decimal digits of the row decodes, by the two
    statements [process_shot] starts with, to that coordinate. *)
Theorem decode_encode (col row : Z) :
  0 <= col < 10 -> 0 <= row < 10 ->
  decode_move (encode_move (col, row)) = inr (col, row).
Proof.
  intros Hc Hr. apply decode_encode_letters; lia.
Qed.

Lemma decode_encode_witness :
  decode_move (encode_move (3, 7)) = inr (3, 7).
Proof. apply (decode_encode 3 7); lia. Defined.

(** ** The placed fleet *)

Lemma fleet_entry_exists (d : list (string * gset coord)) ship len :
  map fst d = fleet_names -> (ship, len) ∈ ships ->
  exists positions, (ship, positions) ∈ d.
Proof.
  intros Hn Hs.
  assert (Hin : ship ∈ fst <$> d).
  { change (fst <$> d) with (map fst d). rewrite Hn. unfold fleet_names.
    change (map fst ships) with (fst <$> ships).
    apply list_elem_of_fmap. by exists (ship, len). }
  apply list_elem_of_fmap in Hin as ([s p] & -> & Hin). by exists p.
Qed.

(** After placement a ship holds either no cell (its attempts all collided)
    or one run of its declared length: being placed and holding a cell are
    the same. *)
Lemma setup_fleet (rng : Rng) ship len positions :
  (ship, len) ∈ ships -> (ship, positions) ∈ ship_positions (setup rng) ->
  positions = ∅ \/ is_run len positions.
Proof.
  destruct (place_ships_randomly_returns rng) as (_ & _ & Hok).
  apply (po_runs _ _ Hok).
Qed.

(** C7. Whatever the generator delivers, if every ship has been placed then
    the sets of cells of two different ships are disjoint, and the set of
    each ship has exactly as many cells as the ship is long, all inside the
    board, forming one row segment or one column segment without gaps. *)
Theorem placed_fleet_is_disjoint_runs (rng : Rng) :
  all_placed (setup rng) ->
  (forall ship1 p1 ship2 p2,
     (ship1, p1) ∈ ship_positions (setup rng) ->
     (ship2, p2) ∈ ship_positions (setup rng) ->
     ship1 <> ship2 -> p1 ## p2)
  /\ (forall ship len,
        (ship, len) ∈ ships ->
        exists positions,
          (ship, positions) ∈ ship_positions (setup rng)
          /\ size positions = Z.to_nat len
          /\ (forall c, c ∈ positions -> in_bounds c)
          /\ straight len positions).
Proof.
  intros Hall.
  destruct (place_ships_randomly_returns rng) as (_ & _ & Hok).
  split.
  - intros ship1 p1 ship2 p2 [i Hi]%list_elem_of_lookup
      [j Hj]%list_elem_of_lookup Hne.
    apply (po_disjoint _ _ Hok i j (ship1, p1) (ship2, p2) Hi Hj).
    intros ->. rewrite Hi in Hj. congruence.
  - intros ship len Hs.
    destruct (fleet_entry_exists _ ship len (po_names _ _ Hok) Hs)
      as (positions & Hin).
    exists positions. split; [done|].
    destruct (po_runs _ _ Hok ship len positions Hs Hin)
      as [->|(h & x & y & Hanch & ->)].
    { by destruct (Hall _ Hin). }
    pose proof (ship_size_bounds ship len Hs) as Hlen.
    split_and!.
    + rewrite size_list_to_set by apply run_cells_NoDup.
      apply run_cells_length.
    + intros c Hc%elem_of_list_to_set.
      eapply run_cells_in_bounds; eauto. lia.
    + exists x, y. destruct h; [left|right]; intros c;
        by rewrite elem_of_list_to_set, elem_of_run_cells.
Qed.

Lemma placed_fleet_is_disjoint_runs_witness :
  all_placed (setup rows_rng)
  /\ (forall ship1 p1 ship2 p2,
        (ship1, p1) ∈ ship_positions (setup rows_rng) ->
        (ship2, p2) ∈ ship_positions (setup rows_rng) ->
        ship1 <> ship2 -> p1 ## p2)
  /\ (forall ship len,
        (ship, len) ∈ ships ->
        exists positions,
          (ship, positions) ∈ ship_positions (setup rows_rng)
          /\ size positions = Z.to_nat len
          /\ (forall c, c ∈ positions -> in_bounds c)
          /\ straight len positions).
Proof.
  assert (H : all_placed (setup rows_rng)).
  { unfold all_placed. apply Forall_forall.
    apply (bool_decide_unpack _). vm_compute. exact I. }
  split; [exact H|]. apply (placed_fleet_is_disjoint_runs rows_rng H).
Defined.

(** ** A run of shots *)


(** *** Shots at a ship *)


Lemma sink_only_completing (g : Game) move c :
  wf g -> decode_move move = inr c ->
  reports_sink (process_shot move g).1.1 ->
  exists ship positions,
    (ship, positions) ∈ ship_positions g /\ completes g positions c
    /\ ((process_shot move g).1.1 = inr "gameover" ->
        last_afloat g ship
        /\ forall name, name ∈ fleet_names ->
                        name ∈ sunk_ships (process_shot move g).1.2).
Proof.
  intros Hwf Hd Hrep. pose proof (shot_viewP g move Hwf) as V.
  destruct V as [e He|c' Hc' Hb|c' Hc' Hb Hin
                 |c' r g' Hc' Hb Hfresh Hwf' Hf Hs Ho Hh Hres];
    cbn in Hrep.
  - congruence.
  - destruct Hrep; discriminate.
  - destruct Hrep; discriminate.
  - assert (c' = c) as -> by congruence. cbn.
    remember (sunk_ships g') as sunk' eqn:Esunk.
    destruct Hres as [Hnone|s p Hsp Hcp _ Hnot|s p Hsp Hcp Hfl Hall Hlast
                      |s p Hsp Hcp Hfl Hall Hlast].
    + destruct Hrep; discriminate.
    + destruct Hrep; discriminate.
    + exists s, p. by split_and!.
    + exists s, p. split_and!; try done. intros _. split; [done|].
      intros name Hname.
      destruct (decide (name = s)) as [->|Hne].
      * by apply elem_of_union_l, elem_of_singleton.
      * apply elem_of_union_r. by apply Hlast.
Qed.



(** *** Counting the sinks reported for a piece *)






(** ** Moves that fail to decode *)

Lemma ord_upper (c : ascii) :
  (c = sharp_s /\ Py.ord_str (Py.upper c) = inl Py.TypeError)
  \/ (c <> sharp_s /\ exists u, Py.ord_str (Py.upper c) = inr u).
Proof.
  destruct c as [[] [] [] [] [] [] [] []];
    first [ left; split; reflexivity
          | right; split; [discriminate|eexists; reflexivity] ].
Qed.



Lemma process_shot_returns_token (g : Game) move r :
  wf g -> (process_shot move g).1.1 = inr r ->
  r ∈ tokens \/ r = format_error.
Proof.
  intros Hwf. pose proof (shot_viewP g move Hwf) as V.
  destruct V as [e He|c Hc Hb|c Hc Hb Hshot
                 |c r' g' Hc Hb Hfresh Hwf' Hf Hs Ho Hh Hres]; cbn.
  - destruct (caught e); [|discriminate]. intros [= <-]. by right.
  - intros [= <-]. left. set_solver.
  - intros [= <-]. left. set_solver.
  - intros [= <-]. left. apply resolved_token in Hres. set_solver.
Qed.




(** ** Validated moves *)

Lemma scan_ascii_digits (s : string) (acc : Z) :
  0 <= acc -> Py.all_digits s = true -> ascii_only s = true ->
  exists n, 0 <= n /\ Py.scan_digits acc false s = Some (n, "").
Proof.
  revert acc. induction s as [|c s IH]; intros acc Hacc Hd Ha.
  - exists acc. by split.
  - cbn in Hd, Ha. apply andb_prop in Hd as [Hc Hd].
    apply andb_prop in Ha as [Hlt Ha].
    assert (Hrange : Py.between 48 (Py.ord c) 57 = true).
    { unfold Py.isdigit, Py.between in *. by bool_lia. }
    cbn [Py.scan_digits]. unfold Py.digit_value. rewrite Hrange.
    apply IH; [|done..]. unfold Py.between in Hrange. by bool_lia.
Qed.

Lemma int_ascii_digits (s : string) :
  Py.str_isdigit s = true -> ascii_only s = true ->
  exists n, 0 <= n /\ Py.int s = Some n.
Proof.
  intros Hd Ha. destruct s as [|c s]; [discriminate|].
  unfold Py.str_isdigit in Hd.
  destruct (scan_ascii_digits (String c s) 0) as (n & Hn & Hscan);
    [lia|done..|].
  cbn in Hd, Ha. apply andb_prop in Hd as [Hc _].
  apply andb_prop in Ha as [Hlt _].
  assert (Hrange : Py.between 48 (Py.ord c) 57 = true).
  { unfold Py.isdigit, Py.between in *. by bool_lia. }
  exists n. split; [done|]. unfold Py.int. cbn [Py.lstrip].
  assert (Hsp : Py.isspace c = false).
  { unfold Py.isspace, Py.between in *. by bool_lia. }
  assert (Hplus : (Py.ord c =? 43) = false)
    by (unfold Py.between in Hrange; by bool_lia).
  assert (Hminus : (Py.ord c =? 45) = false)
    by (unfold Py.between in Hrange; by bool_lia).
  rewrite Hsp, Hplus, Hminus. unfold Py.digit_value at 1.
  rewrite Hrange, Hscan. cbn [Py.lstrip]. f_equal. lia.
Qed.

Lemma upper_ascii_letter (c : ascii) :
  Py.isalpha c = true -> (Py.ord c <? 128) = true ->
  exists u, Py.ord_str (Py.upper c) = inr u /\ 65 <= u <= 90.
Proof.
  destruct c as [[] [] [] [] [] [] [] []]; vm_compute; intros H1 H2;
    try discriminate; eexists; (split; [reflexivity|]);
    split; discriminate.
Qed.

(** On ASCII strings validation does what it is there for: a validated move
    decodes, to a column among the 26 letters and a non-negative row, and
    [process_shot] answers it with one of the six tokens. *)
Lemma validated_ascii_move_resolves (g : Game) (move : string) :
  reachable g -> validate_move move = true -> ascii_only move = true ->
  (exists col row, decode_move move = inr (col, row)
                   /\ 0 <= col < 26 /\ 0 <= row)
  /\ exists r g', process_shot move g = (inr r, g', []) /\ r ∈ tokens.
Proof.
  intros Hr Hv Ha. pose proof (reachable_wf g Hr) as Hwf.
  unfold validate_move in Hv.
  apply andb_prop in Hv as [[_ Halpha]%andb_prop Hdigits].
  destruct move as [|c rest]; [discriminate|].
  cbn [Py.head Py.tail] in *. cbn in Ha.
  apply andb_prop in Ha as [Hc Hrest].
  destruct (upper_ascii_letter c Halpha Hc) as (u & Hu & Hrange).
  destruct (int_ascii_digits rest Hdigits Hrest) as (row & Hrow & Hint).
  assert (Hd : decode_move (String c rest) = inr (u - 65, row)).
  { unfold decode_move. cbn [Py.head Py.tail]. by rewrite Hu, Hint. }
  split.
  - exists (u - 65), row. split; [done|lia].
  - pose proof (shot_viewP g (String c rest) Hwf) as V.
    destruct V as [e He|c' Hc' Hb|c' Hc' Hb Hshot
                   |c' r' g' Hc' Hb Hfresh Hwf' Hf Hs Ho Hh Hres];
      try congruence; eexists _, _; (split; [reflexivity|]).
    + set_solver.
    + set_solver.
    + apply resolved_token in Hres. set_solver.
Qed.

(** C10, on the code: a validated move can reach the exception branch.  The
    move made of [A] and the superscript two U+00B2 passes [validate_move]
    ([str.isdigit] accepts the superscript) but [int] rejects it, so
    [process_shot] returns the free-form message of its handler; the move
    made of U+00DF and [5] passes too, and makes [ord] raise a [TypeError]
    that nothing in [process_shot] catches. *)
Theorem validated_move_reaches_handler :
  let squared := String "A"%char (String (ascii_of_nat 178) "") in
  let eszett := String sharp_s "5" in
  validate_move squared = true
  /\ (forall g, process_shot squared g = (inr format_error, g, []))
  /\ (format_error ∉ tokens)
  /\ validate_move eszett = true
  /\ (forall g, process_shot eszett g = (inl Py.TypeError, g, [])).
Proof.
  cbv zeta. split_and!.
  - reflexivity.
  - intros g. by rewrite (process_shot_undecodable _ Py.ValueError g).
  - apply (bool_decide_unpack _). vm_compute. exact I.
  - reflexivity.
  - intros g. by rewrite (process_shot_undecodable _ Py.TypeError g).
Qed.

(** ** The drivers *)

Lemma peer_eta (p : Peer) :
  {| game := game p; rng := rng p; inbox := inbox p; keyboard := keyboard p |}
  = p.
Proof. by destruct p. Qed.

Lemma on_peer_run {A} (m : M event Game A) (p : Peer) r g' t :
  m (game p) = (r, g', t) ->
  on_peer m p
  = (r, {| game := g'; rng := rng p; inbox := inbox p;
           keyboard := keyboard p |}, t).
Proof. intros Hm. unfold on_peer. by rewrite Hm. Qed.

(** A move that is refused changes nothing and prints only the line that
    announces it. *)
Lemma handle_opponent_move_refused (g : Game) (data r : string) :
  process_shot data g = (inr r, g, []) -> r ∈ ["invalid"; "repeat"] ->
  handle_opponent_move data g
  = (inr r, g, [Line (newline +:+ "Opponent's move: " +:+ data)]).
Proof.
  intros Hshot Hr. unfold handle_opponent_move.
  rewrite (bind_run_quiet _ _ _ _ _ Hshot).
  apply elem_of_cons in Hr as [->|Hr]; [reflexivity|].
  apply elem_of_cons in Hr as [->|Hr]; [reflexivity|].
  by apply elem_of_nil in Hr.
Qed.

(** On a refused move the loop of the server's opponent turn never ends and
    never changes the peer: each pass resolves the same [data] again and
    sends the same outcome again. *)
Lemma server_answer_loops (p : Peer) (data r : string) :
  process_shot data (game p) = (inr r, game p, []) ->
  r ∈ ["invalid"; "repeat"] ->
  forall fuel result, result ∈ [""; "invalid"; "repeat"] ->
    Server.answer fuel data result p
    = (inr Unfinished, p, answers data r fuel).
Proof.
  intros Hshot Hr.
  pose proof (handle_opponent_move_refused _ data r Hshot Hr) as Hmove.
  induction fuel as [|fuel IH]; intros result Hres.
  - assert (Hcond : String.eqb result "repeat" || String.eqb result "invalid"
                    || String.eqb result "" = true).
    { repeat (apply elem_of_cons in Hres as [->|Hres]; [reflexivity|]).
      by apply elem_of_nil in Hres. }
    cbn [Server.answer]. by rewrite Hcond.
  - assert (Hcond : String.eqb result "repeat" || String.eqb result "invalid"
                    || String.eqb result "" = true).
    { repeat (apply elem_of_cons in Hres as [->|Hres]; [reflexivity|]).
      by apply elem_of_nil in Hres. }
    cbn [Server.answer]. rewrite Hcond.
    rewrite (bind_run _ _ p r p
               [Line (newline +:+ "Opponent's move: " +:+ data)]).
    2:{ rewrite (on_peer_run _ p _ _ _ Hmove). by rewrite peer_eta. }
    rewrite (bind_run (send r) _ p tt p [Sent r] eq_refl).
    assert (Hover : String.eqb r "gameover" = false).
    { repeat (apply elem_of_cons in Hr as [->|Hr]; [reflexivity|]).
      by apply elem_of_nil in Hr. }
    rewrite Hover, IH; [reflexivity|].
    repeat (apply elem_of_cons in Hr as [->|Hr]; [set_solver|]).
    by apply elem_of_nil in Hr.
Qed.

(** The client receives inside its loop: after a refused move it sends the
    outcome once and goes on with the next message of the opponent. *)
Lemma client_answer_awaits (fuel : nat) (p : Peer) (data r : string)
    (rest : list string) :
  inbox p = data :: rest -> data <> "" ->
  process_shot data (game p) = (inr r, game p, []) ->
  r ∈ ["invalid"; "repeat"] ->
  Client.answer (S fuel) p
  = match Client.answer fuel
            {| game := game p; rng := rng p; inbox := rest;
               keyboard := keyboard p |} with
    | (res, p', t) =>
        (res, p',
         [Line (newline +:+ "Opponent's move: " +:+ data); Sent r] ++ t)
    end.
Proof.
  intros Hinbox Hdata Hshot Hr.
  pose proof (handle_opponent_move_refused _ data r Hshot Hr) as Hmove.
  set (p1 := {| game := game p; rng := rng p; inbox := rest;
                keyboard := keyboard p |}).
  cbn [Client.answer].
  rewrite (bind_run_quiet recv _ p data p1)
    by (unfold recv; by rewrite Hinbox).
  rewrite (proj2 (String.eqb_neq data "") Hdata).
  rewrite (bind_run _ _ p1 r p1
             [Line (newline +:+ "Opponent's move: " +:+ data)]).
  2:{ by rewrite (on_peer_run _ p1 _ _ _ Hmove). }
  rewrite (bind_run (send r) _ p1 tt p1 [Sent r] eq_refl).
  assert (Hcond : String.eqb r "repeat" || String.eqb r "invalid" = true).
  { repeat (apply elem_of_cons in Hr as [->|Hr]; [reflexivity|]).
    by apply elem_of_nil in Hr. }
  rewrite Hcond. by destruct (Client.answer fuel p1) as [[res p'] t].
Qed.

(** C2, on the code: the server does not await another move.  Its loop
    receives once, before the loop; when the move [Z9] of the opponent is
    off the board, every pass resolves [Z9] again and sends [invalid] again:
    whatever the fuel, the loop is still running when it is used up, has sent
    one outcome per pass, and has left the next message of the opponent
    unread. *)
Theorem server_answers_without_end (fuel : nat) (g : Game) (gen : Rng)
    (rest keys : list string) :
  Server.answer fuel "Z9" ""
    {| game := g; rng := gen; inbox := rest; keyboard := keys |}
  = (inr Unfinished,
     {| game := g; rng := gen; inbox := rest; keyboard := keys |},
     answers "Z9" "invalid" fuel)
  /\ Server.iteration fuel false
       {| game := g; rng := gen; inbox := "Z9" :: rest; keyboard := keys |}
     = (inr Unfinished,
        {| game := g; rng := gen; inbox := rest; keyboard := keys |},
        [Boards (board g) (shots g) (hits g);
         Line (newline +:+ "Waiting for opponent's move...")]
        ++ answers "Z9" "invalid" fuel)
  /\ sent (answers "Z9" "invalid" fuel) = replicate fuel "invalid".
Proof.
  set (p := {| game := g; rng := gen; inbox := rest; keyboard := keys |}).
  assert (Hshot : process_shot "Z9" (game p) = (inr "invalid", game p, [])).
  { apply (process_shot_out_of_bounds "Z9" 25 9); [reflexivity|].
    unfold in_bounds, board_size; cbn; lia. }
  assert (Hloop : Server.answer fuel "Z9" "" p
                  = (inr Unfinished, p, answers "Z9" "invalid" fuel)).
  { apply (server_answer_loops p "Z9" "invalid" Hshot); set_solver. }
  split_and!.
  - exact Hloop.
  - unfold Server.iteration. cbn [negb].
    erewrite bind_run by reflexivity.
    erewrite bind_run by reflexivity.
    erewrite (bind_run_quiet recv) by reflexivity.
    change (String.eqb "Z9" "") with false. cbv iota.
    fold p.
    rewrite (bind_run _ _ _ _ _ _ Hloop). cbn. by rewrite app_nil_r.
  - clear Hloop. unfold answers. induction fuel as [|n IH]; [reflexivity|].
    cbn [replicate concat]. unfold sent in *. rewrite omap_app, IH.
    reflexivity.
Qed.

Lemma display_run (p : Peer) :
  on_peer display_game_state p
  = (inr tt, p, [Boards (board (game p)) (shots (game p)) (hits (game p))]).
Proof. by destruct p. Qed.

Lemma ask_move_accepts (fuel : nat) (p : Peer) (move : string)
    (keys : list string) :
  keyboard p = move :: keys -> validate_move move = true ->
  ask_move (S fuel) p
  = (inr (Done move),
     {| game := game p; rng := rng p; inbox := inbox p; keyboard := keys |},
     [Line (newline +:+ "Your move (e.g. A5): ")]).
Proof.
  intros Hkeys Hvalid. cbn [ask_move].
  erewrite bind_run.
  2:{ unfold input. erewrite bind_run by reflexivity.
      unfold read_line. rewrite Hkeys. reflexivity. }
  rewrite Hvalid. reflexivity.
Qed.

Lemma handle_move_result_refused (g : Game) (move result : string) :
  result ∈ ["invalid"; "repeat"] ->
  handle_move_result move result g = (inr tt, g, []).
Proof.
  intros Hr. unfold handle_move_result.
  by rewrite (bool_decide_eq_true_2 _ Hr), orb_true_r.
Qed.

(** The pass of the main loop in which the peer's own move is refused. *)
Lemma own_turn_refused (iteration : nat -> bool -> M event Peer (run flow))
    (fuel : nat) (p : Peer) (move response : string)
    (keys msgs : list string) :
  (iteration = Client.iteration \/ iteration = Server.iteration) ->
  keyboard p = move :: keys -> validate_move move = true ->
  inbox p = response :: msgs -> response ∈ ["invalid"; "repeat"] ->
  exists t,
    iteration (S fuel) true p
    = (inr (Done (Next true)),
       {| game := game p; rng := rng p; inbox := msgs; keyboard := keys |}, t)
    /\ sent t = [move].
Proof.
  intros Hit Hkeys Hvalid Hinbox Hresp.
  pose proof (ask_move_accepts fuel p move keys Hkeys Hvalid) as Hask.
  set (p1 := {| game := game p; rng := rng p; inbox := inbox p;
                keyboard := keys |}) in *.
  set (p2 := {| game := game p; rng := rng p; inbox := msgs;
                keyboard := keys |}).
  assert (Hrecv : recv p1 = (inr response, p2, [])).
  { unfold recv. cbn [inbox p1]. by rewrite Hinbox. }
  destruct Hit as [-> | ->].
  - unfold Client.iteration.
    rewrite (bind_run _ _ _ _ _ _ (display_run p)).
    rewrite (bind_run _ _ _ _ _ _ Hask). cbv iota.
    rewrite (bind_run (send move) _ p1 tt p1 [Sent move] eq_refl).
    rewrite (bind_run_quiet _ _ _ _ _ Hrecv).
    apply elem_of_cons in Hresp as [->|Hresp].
    { eexists. split; reflexivity. }
    apply elem_of_cons in Hresp as [->|Hresp].
    { eexists. split; reflexivity. }
    by apply elem_of_nil in Hresp.
  - unfold Server.iteration. cbn [negb].
    rewrite (bind_run _ _ _ _ _ _ (display_run p)).
    rewrite (bind_run _ _ _ _ _ _ Hask). cbv iota.
    rewrite (bind_run (send move) _ p1 tt p1 [Sent move] eq_refl).
    rewrite (bind_run_quiet _ _ _ _ _ Hrecv).
    apply elem_of_cons in Hresp as [->|Hresp].
    { eexists. split; reflexivity. }
    apply elem_of_cons in Hresp as [->|Hresp].
    { eexists. split; reflexivity. }
    by apply elem_of_nil in Hresp.
Qed.

(** C8. When the outcome that comes back for the peer's own move is
    [invalid] or [repeat], [handle_move_result] returns at once, leaving
    the game ([shots], [hits], [board], [opponent_shots], [sunk_ships]) as
    it was and printing nothing; and the pass of the main loop, of the
    client and of the server alike, ends with [my_turn] still true and the
    game untouched, having sent the move once, so that the loop goes on by
    asking the player for a move again. *)
Theorem refused_move_is_retried (p : Peer) (fuel : nat)
    (move response : string) (keys msgs : list string) :
  keyboard p = move :: keys -> validate_move move = true ->
  inbox p = response :: msgs -> response ∈ ["invalid"; "repeat"] ->
  let p' := {| game := game p; rng := rng p; inbox := msgs;
               keyboard := keys |} in
  handle_move_result move response (game p) = (inr tt, game p, [])
  /\ (exists t,
        Client.iteration (S fuel) true p = (inr (Done (Next true)), p', t)
        /\ sent t = [move]
        /\ Client.loop (S (S fuel)) true p
           = match Client.loop (S fuel) true p' with
             | (r, q, t') => (r, q, t ++ t')
             end)
  /\ (exists t,
        Server.iteration (S fuel) true p = (inr (Done (Next true)), p', t)
        /\ sent t = [move]
        /\ Server.loop (S (S fuel)) true p
           = match Server.loop (S fuel) true p' with
             | (r, q, t') => (r, q, t ++ t')
             end).
Proof.
  intros Hkeys Hvalid Hinbox Hresp p'. split_and!.
  - by apply handle_move_result_refused.
  - destruct (own_turn_refused Client.iteration fuel p move response keys msgs)
      as (t & Hpass & Hsent); auto.
    exists t. split_and!; [done..|].
    change (Client.loop (S (S fuel)) true p)
      with ((r ← Client.iteration (S fuel) true;
             match r with
             | Unfinished => mret Unfinished
             | Done Stop => mret (Done tt)
             | Done (Next my_turn') => Client.loop (S fuel) my_turn'
             end) p).
    by rewrite (bind_run _ _ _ _ _ _ Hpass).
  - destruct (own_turn_refused Server.iteration fuel p move response keys msgs)
      as (t & Hpass & Hsent); auto.
    exists t. split_and!; [done..|].
    change (Server.loop (S (S fuel)) true p)
      with ((r ← Server.iteration (S fuel) true;
             match r with
             | Unfinished => mret Unfinished
             | Done Stop => mret (Done tt)
             | Done (Next my_turn') => Server.loop (S fuel) my_turn'
             end) p).
    by rewrite (bind_run _ _ _ _ _ _ Hpass).
Qed.

Lemma refused_move_is_retried_witness :
  handle_move_result "A5" "repeat" (setup rows_rng)
  = (inr tt, setup rows_rng, []).
Proof.
  pose (p := {| game := setup rows_rng; rng := rows_rng;
                inbox := ["repeat"]; keyboard := ["A5"] |}).
  destruct (refused_move_is_retried p 0 "A5" "repeat" [] []) as (H & _).
  - reflexivity.
  - reflexivity.
  - reflexivity.
  - apply (bool_decide_unpack _). vm_compute. exact I.
  - exact H.
Defined.

(** ** Exhausted placement *)

(** A ship left unplaced can never be sunk, so the game never comes to
    [gameover]. *)
Lemma unplaced_ship_never_game_over (g : Game) (ship move : string) :
  reachable g -> (ship, ∅) ∈ ship_positions g ->
  (process_shot move g).1.1 <> inr "gameover".
Proof.
  intros Hr Hin Hover. pose proof (reachable_wf g Hr) as Hwf.
  destruct (process_shot_wf g move Hwf) as (Hwf' & Hf & _).
  destruct (decode_move move) as [e|c] eqn:Hd.
  { rewrite (process_shot_undecodable move e g Hd) in Hover.
    destruct (caught e); discriminate. }
  destruct (sink_only_completing g move c Hwf Hd (or_intror Hover))
    as (s & q & _ & _ & Hall).
  destruct (Hall Hover) as [_ Hsunk].
  assert (Hs : ship ∈ sunk_ships (process_shot move g).1.2).
  { apply Hsunk. apply (fleet_entry_name g ship ∅ Hwf Hin). }
  apply (wf_sunk _ Hwf') in Hs as (positions & Hp & Hne & _).
  rewrite Hf in Hp.
  by rewrite (fleet_entry_unique g ship positions ∅ Hwf Hp Hin) in Hne.
Qed.

(** C4, on the code: exhausting the attempts of a ship is not surfaced.
    Whatever the generator delivers, [place_ships_randomly] returns normally
    and prints nothing; with the generator stuck on zero the Carrier takes
    [A0]..[E0], each of the hundred attempts of every other ship collides
    with it, and the call still returns normally, with four ships left
    without a cell; the server then announces that all ships have been
    placed, and no shot can ever be answered [gameover]. *)
Theorem exhausted_placement_is_silent :
  (forall gen, (place_ships_randomly (init, gen)).1.1 = inr tt
               /\ (place_ships_randomly (init, gen)).2 = [])
  /\ ship_positions (setup stuck_rng)
     = [("Carrier", list_to_set [(0, 0); (1, 0); (2, 0); (3, 0); (4, 0)]);
        ("Battleship", ∅); ("Cruiser", ∅); ("Submarine", ∅);
        ("Destroyer", ∅)]
  /\ Line (newline +:+ "Game started! All ships have been placed.")
     ∈ (Server.main 0 {| game := init; rng := stuck_rng; inbox := [];
                         keyboard := [] |}).2
  /\ (forall moves,
        inr "gameover" ∉ (play (setup stuck_rng) moves).1).
Proof.
  assert (Hfleet : ship_positions (setup stuck_rng)
     = [("Carrier", list_to_set [(0, 0); (1, 0); (2, 0); (3, 0); (4, 0)]);
        ("Battleship", ∅); ("Cruiser", ∅); ("Submarine", ∅);
        ("Destroyer", ∅)]).
  { vm_compute. reflexivity. }
  split_and!.
  - intros gen. destruct (place_ships_randomly_returns gen) as (gen' & -> & _).
    by split.
  - exact Hfleet.
  - apply (bool_decide_unpack _). vm_compute. exact I.
  - intros moves.
    assert (Hgen : forall g, reachable g ->
              ship_positions g = ship_positions (setup stuck_rng) ->
              inr "gameover" ∉ (play g moves).1).
    { induction moves as [|move moves IH]; intros g Hr Hg; cbn.
      - apply not_elem_of_nil.
      - apply not_elem_of_cons. split.
        + intros E. symmetry in E. revert E.
          apply (unplaced_ship_never_game_over g "Battleship" move Hr).
          rewrite Hg, Hfleet. right; left.
        + apply IH; [by apply reach_shot|].
          destruct (process_shot_wf g move (reachable_wf g Hr)) as (_ & -> & _).
          done. }
    apply Hgen; [apply reach_setup|done].
Qed.

(** * Part IV: further properties of the code *)

(** ** The marks on the board *)

Lemma cell_insert (b : list (list ascii)) (line : list ascii)
    (col row : Z) (v : ascii) (c : coord) :
  0 <= col -> 0 <= row -> 0 <= c.1 -> 0 <= c.2 ->
  b !! Z.to_nat row = Some line ->
  (Z.to_nat col < length line)%nat ->
  cell (<[Z.to_nat row := <[Z.to_nat col := v]> line]> b) c
  = if decide (c = (col, row)) then Some v else cell b c.
Proof.
  intros Hcol Hrow Hc1 Hc2 Hline Hlen. destruct c as [x y]. cbn in *.
  unfold cell. cbn [fst snd].
  destruct (decide (Z.to_nat y = Z.to_nat row)) as [Ey|Ny].
  - rewrite Ey. rewrite list_lookup_insert_eq
      by (by eapply lookup_lt_Some). rewrite Hline.
    destruct (decide (Z.to_nat x = Z.to_nat col)) as [Ex|Nx].
    + rewrite Ex, list_lookup_insert_eq by done.
      rewrite decide_True; [done|]. f_equal; lia.
    + rewrite list_lookup_insert_ne by done.
      rewrite decide_False; [done|]. intros [= -> ->]. done.
  - rewrite list_lookup_insert_ne by done.
    rewrite decide_False; [done|]. intros [= -> ->]. done.
Qed.

(** [self.board[row][col] = v] changes the cell it names and no other. *)
Lemma board_assign_cell (row col : Z) (v : ascii) (g : Game) :
  board_ok (board g) -> in_bounds (col, row) ->
  exists b,
    board_ok b
    /\ board_assign row col v g = (inr tt, set_board b g, [])
    /\ forall c, 0 <= c.1 -> 0 <= c.2 ->
         cell b c = if decide (c = (col, row)) then Some v
                    else cell (board g) c.
Proof.
  intros [Hlen Hrows] [[Hc0 Hc1] [Hr0 Hr1]]. cbn in *.
  unfold board_assign.
  rewrite index_in_range; [|rewrite Hlen; unfold board_size in *; lia].
  destruct (board g !! Z.to_nat row) as [line|] eqn:Hline.
  2:{ apply lookup_ge_None in Hline. rewrite Hlen in Hline.
      unfold board_size in *; lia. }
  assert (Hll : length line = Z.to_nat board_size).
  { rewrite Forall_forall in Hrows. apply Hrows.
    eapply list_elem_of_lookup_2; eauto. }
  rewrite index_in_range; [|rewrite Hll; unfold board_size in *; lia].
  eexists. split_and!; [|reflexivity|].
  - split; [by rewrite length_insert|].
    apply Forall_insert; [done|]. by rewrite length_insert.
  - intros c H1 H2. apply cell_insert; try done.
    rewrite Hll. unfold board_size in *. lia.
Qed.

(** The loop that puts a ship on the board marks its cells with ['S'] and
    leaves every other cell as it was. *)
Lemma place_cells_board ship cells (g : Game) (rng : Rng) :
  board_ok (board g) ->
  NoDup (map fst (ship_positions g)) -> ship ∈ map fst (ship_positions g) ->
  (forall c, c ∈ cells -> in_bounds c) ->
  exists b, board_ok b
    /\ for_each cells (fun pos =>
         on_game (board_assign (snd pos) (fst pos) "S"%char);;
         on_game (positions_add ship pos)) (g, rng)
       = (inr tt,
          (set_ship_positions
             (with_cells ship (list_to_set cells) (ship_positions g))
             (set_board b g), rng), [])
    /\ forall c, 0 <= c.1 -> 0 <= c.2 ->
         cell b c = if decide (c ∈ cells) then Some "S"%char
                    else cell (board g) c.
Proof.
  revert g. induction cells as [|c0 cells IH]; intros g Hb Hnd Hin Hcells.
  - exists (board g). split_and!; [done| |].
    + cbn. by rewrite with_cells_empty, game_eta.
    + intros c _ _. rewrite decide_False; [done|]. apply not_elem_of_nil.
  - destruct c0 as [x y].
    destruct (board_assign_cell y x "S"%char g Hb) as (b1 & Hb1 & Hset & Hcell1).
    { apply Hcells. by left. }
    set (g1 := set_ship_positions
                 (with_cells ship {[(x, y)]} (ship_positions g))
                 (set_board b1 g)).
    destruct (IH g1) as (b2 & Hb2 & Hrest & Hcell2).
    + done.
    + cbn. by rewrite with_cells_names.
    + cbn. by rewrite with_cells_names.
    + intros c' Hc'. apply Hcells. by right.
    + exists b2. split_and!; [done| |].
      * assert (H1 : on_game (board_assign y x "S"%char) (g, rng)
                     = (inr tt, (set_board b1 g, rng), [])).
        { unfold on_game. by rewrite Hset. }
        assert (H2 : on_game (positions_add ship (x, y)) (set_board b1 g, rng)
                     = (inr tt, (g1, rng), [])).
        { unfold on_game, positions_add. cbn [ship_positions set_board].
          by rewrite (dict_add_with_cells ship (x, y) (ship_positions g) Hnd Hin). }
        cbn [for_each].
        rewrite (bind_run_quiet _ _ (g, rng) tt (g1, rng)).
        -- rewrite Hrest. unfold g1, set_ship_positions, set_board.
           cbn [board opponent_shots ship_positions sunk_ships shots hits].
           by rewrite with_cells_twice.
        -- cbn [fst snd]. by rewrite (bind_run_quiet _ _ _ _ _ H1).
      * intros c Hc1 Hc2. rewrite (Hcell2 c Hc1 Hc2).
        cbn [board g1 set_ship_positions set_board].
        rewrite (Hcell1 c Hc1 Hc2).
        destruct (decide (c ∈ cells)) as [Hi|Hi].
        -- rewrite decide_True; [done|]. by right.
        -- destruct (decide (c = (x, y))) as [->|Hne].
           ++ rewrite decide_True; [done|]. by left.
           ++ rewrite decide_False; [done|].
              intros [?|?]%elem_of_cons; done.
Qed.

(** One ship, with the board: either nothing changes, or the ship takes a
    run of free cells, which get the mark ['S']. *)
Lemma place_ship_board budget ship size (g : Game) (rng : Rng) :
  board_ok (board g) ->
  NoDup (map fst (ship_positions g)) -> ship ∈ map fst (ship_positions g) ->
  0 < size <= board_size ->
  let g' := (place_ship budget ship size (g, rng)).1.2.1 in
  g' = g
  \/ exists h x y,
       anchored h x y size
       /\ (forall c kv, c ∈ run_cells h x y size ->
                        kv ∈ ship_positions g -> c ∉ kv.2)
       /\ ship_positions g'
          = with_cells ship (list_to_set (run_cells h x y size))
              (ship_positions g)
       /\ forall c, 0 <= c.1 -> 0 <= c.2 ->
            cell (board g') c
            = if decide (c ∈ run_cells h x y size) then Some "S"%char
              else cell (board g) c.
Proof.
  intros Hb Hnd Hin Hsz. revert rng.
  induction budget as [|budget IH]; intros rng; [by left|].
  cbn [place_ship].
  destruct (random_choice_run g rng) as (h & Hh).
  set (rng1 := fun i => rng (S i)) in *.
  assert (Hcand : exists x y rng3,
    anchored h x y size
    /\ (if h
        then x ← randint 0 (board_size - size);
             y ← randint 0 (board_size - 1);
             mret (map (fun i => (x + i, y)) (seqZ 0 size))
        else x ← randint 0 (board_size - 1);
             y ← randint 0 (board_size - size);
             mret (map (fun i => (x, y + i)) (seqZ 0 size))) (g, rng1)
       = (inr (run_cells h x y size), (g, rng3), [])).
  { unfold anchored, run_cells, board_size in *. destruct h.
    - destruct (randint_run 0 (10 - size) g rng1) as (x & Hx & Ex); [lia|].
      destruct (randint_run 0 (10 - 1) g (fun i => rng1 (S i)))
        as (y & Hy & Ey); [lia|].
      exists x, y, (fun i => rng1 (S (S i))). split; [lia|].
      by rewrite (bind_run_quiet _ _ _ _ _ Ex), (bind_run_quiet _ _ _ _ _ Ey).
    - destruct (randint_run 0 (10 - 1) g rng1) as (x & Hx & Ex); [lia|].
      destruct (randint_run 0 (10 - size) g (fun i => rng1 (S i)))
        as (y & Hy & Ey); [lia|].
      exists x, y, (fun i => rng1 (S (S i))). split; [lia|].
      by rewrite (bind_run_quiet _ _ _ _ _ Ex), (bind_run_quiet _ _ _ _ _ Ey). }
  destruct Hcand as (x & y & rng3 & Hanch & Hcand).
  rewrite (bind_run_quiet _ _ _ _ _ Hh).
  rewrite (bind_run_quiet _ _ _ _ _ Hcand).
  rewrite (bind_run_quiet get _ _ (g, rng3) (g, rng3) eq_refl).
  destruct (existsb (fun pos => bool_decide (pos ∈ claimed g))
              (run_cells h x y size)) eqn:Hov; cbn [negb].
  - apply IH.
  - destruct (place_cells_board ship (run_cells h x y size) g rng3 Hb Hnd Hin)
      as (b & Hb' & Hplace & Hcell).
    { intros c Hc. eapply run_cells_in_bounds; eauto. lia. }
    rewrite Hplace. right. exists h, x, y. split_and!; try done.
    by apply overlap_test.
Qed.

Lemma claimed_with_cells (ship : string) (cells : gset coord) (g g' : Game) (c : coord) :
  ship ∈ map fst (ship_positions g) ->
  ship_positions g' = with_cells ship cells (ship_positions g) ->
  c ∈ claimed g' <-> c ∈ cells \/ c ∈ claimed g.
Proof.
  intros Hin Heq. rewrite !elem_of_claimed, Heq. unfold with_cells. split.
  - intros (kv' & Hkv' & Hc).
    apply list_elem_of_fmap in Hkv' as (kv & -> & Hkv).
    destruct (decide (kv.1 = ship)); cbn in Hc.
    + apply elem_of_union in Hc as [Hc|Hc]; [by left|right; eauto].
    + right; eauto.
  - intros [Hc|(kv & Hkv & Hc)].
    + change (map fst (ship_positions g)) with (fst <$> ship_positions g) in Hin.
      apply list_elem_of_fmap in Hin as (kv & -> & Hkv).
      exists (kv.1, cells ∪ kv.2). split; [|by apply elem_of_union_l].
      apply list_elem_of_fmap. exists kv. by rewrite decide_True.
    + exists (if decide (kv.1 = ship) then (kv.1, cells ∪ kv.2) else kv).
      split; [apply list_elem_of_fmap; eauto|].
      destruct (decide (kv.1 = ship)); [by apply elem_of_union_r|done].
Qed.

Lemma marked_init : marked init.
Proof.
  intros [x y] [[Hx0 Hx1] [Hy0 Hy1]]. unfold board_size in *. cbn in *.
  unfold cell, mark. cbn [fst snd init board opponent_shots].
  rewrite (lookup_replicate_2 _ _ (Z.to_nat y)) by (unfold board_size; lia).
  rewrite (lookup_replicate_2 _ _ (Z.to_nat x)) by (unfold board_size; lia).
  rewrite decide_False by apply not_elem_of_empty.
  rewrite decide_False; [done|].
  rewrite elem_of_claimed. intros (kv & Hkv & Hc). cbn in Hkv.
  repeat (apply elem_of_cons in Hkv as [->|Hkv];
          [by apply not_elem_of_empty in Hc|]).
  by apply elem_of_nil in Hkv.
Qed.

(** The placement of the fleet keeps the board and the dictionary of
    positions in step. *)
Lemma place_fleet_marked todo (g : Game) (rng : Rng) :
  placement_ok todo g ->
  (forall x, x ∈ todo -> x ∈ ships) -> NoDup (map fst todo) ->
  marked g ->
  marked (for_each todo (fun '(ship, size) => place_ship 100 ship size)
            (g, rng)).1.2.1.
Proof.
  revert g rng.
  induction todo as [|[ship size] todo IH]; intros g rng Hok Hsub Hnd Hm.
  - done.
  - cbn in Hnd. apply NoDup_cons in Hnd as [Hnot Hnd].
    assert (Hship : (ship, size) ∈ ships) by (apply Hsub; left).
    pose proof (ship_size_bounds ship size Hship) as Hsz.
    assert (Hnames : NoDup (map fst (ship_positions g))).
    { rewrite (po_names _ _ Hok). apply fleet_names_NoDup. }
    assert (Hin : ship ∈ map fst (ship_positions g)).
    { rewrite (po_names _ _ Hok). unfold fleet_names.
      change (map fst ships) with (fst <$> ships).
      apply list_elem_of_fmap. by exists (ship, size). }
    assert (Hsize : 0 < size <= board_size) by (unfold board_size; lia).
    destruct (place_ship_run 100 ship size g rng (po_board _ _ Hok)
                Hnames Hin Hsize) as (g1 & rng1 & Hrun & Hres).
    pose proof (place_ship_board 100 ship size g rng (po_board _ _ Hok)
                  Hnames Hin Hsize) as Hbrd.
    rewrite Hrun in Hbrd. cbn [fst snd] in Hbrd.
    assert (Hok1 : placement_ok todo g1).
    { destruct Hres as [->|(h & x & y & b & Hanch & Hb & Hfree & ->)].
      - by eapply placement_ok_weaken.
      - by eapply placement_ok_step. }
    assert (Hm1 : marked g1).
    { destruct Hbrd as [->|(h & x & y & Hanch & Hfree & Hpos & Hcell)];
        [done|].
      intros c Hc. rewrite Hcell by (destruct Hc; lia).
      unfold mark. rewrite (po_shots _ _ Hok1).
      rewrite (decide_False (P := c ∈ (∅ : gset coord))) by apply not_elem_of_empty.
      pose proof (claimed_with_cells ship
                    (list_to_set (run_cells h x y size)) g g1 c Hin Hpos)
        as Hcl.
      rewrite elem_of_list_to_set in Hcl.
      destruct (decide (c ∈ run_cells h x y size)) as [Hi|Hi].
      - rewrite decide_True; [done|]. apply Hcl. by left.
      - rewrite (Hm c Hc). unfold mark. rewrite (po_shots _ _ Hok).
        rewrite (decide_False (P := c ∈ (∅ : gset coord))) by apply not_elem_of_empty.
        destruct (decide (c ∈ claimed g)) as [Hg|Hg].
        + rewrite decide_True; [done|]. apply Hcl. by right.
        + rewrite decide_False; [done|]. intros [?|?]%Hcl; done. }
    cbn [for_each]. rewrite (bind_run_quiet _ _ _ _ _ Hrun).
    apply IH; try done.
    intros x Hx. apply Hsub. by right.
Qed.

Lemma marked_setup (rng : Rng) : marked (setup rng).
Proof.
  unfold setup, place_ships_randomly.
  apply place_fleet_marked.
  - apply placement_ok_init.
  - done.
  - apply fleet_names_NoDup.
  - apply marked_init.
Qed.

(** The scan of the fleet writes one cell of the board: ['H'] when a ship
    occupies the coordinate, ['M'] otherwise. *)
Lemma resolve_hit_board values col row (g : Game) :
  board_ok (board g) -> in_bounds (col, row) ->
  forall c : coord, 0 <= c.1 -> 0 <= c.2 ->
    cell (board (resolve_hit values col row g).1.2) c
    = if decide (c = (col, row))
      then Some (if existsb (fun p => bool_decide ((col, row) ∈ p)) values
                 then "H" else "M")%char
      else cell (board g) c.
Proof.
  intros Hb Hin c Hc1 Hc2. induction values as [|positions values IH].
  - destruct (board_assign_cell row col "M"%char g Hb Hin)
      as (b & Hbok & Hset & Hcell).
    cbn [resolve_hit existsb]. unfold mbind, M_bind. rewrite Hset. cbn.
    by apply Hcell.
  - cbn [resolve_hit existsb].
    destruct (bool_decide ((col, row) ∈ positions)); cbn [orb]; [|done].
    destruct (board_assign_cell row col "H"%char g Hb Hin)
      as (b & Hbok & Hset & Hcell).
    unfold mbind, M_bind at 1. rewrite Hset.
    unfold check_ship_sunk, mbind, M_bind, get.
    rewrite check_ship_sunk_from_find.
    rewrite <- (Hcell c Hc1 Hc2).
    destruct (find _ _) as [kv|]; cbn.
    + by destruct (bool_decide (size ({[kv.1]} ∪ sunk_ships g) = _)).
    + by destruct (bool_decide (size (sunk_ships g) = _)).
Qed.

Lemma scan_finds_claimed (g : Game) (c : coord) :
  existsb (fun p => bool_decide (c ∈ p)) (map snd (ship_positions g)) = true
  <-> c ∈ claimed g.
Proof.
  rewrite existsb_exists, elem_of_claimed. split.
  - intros (p & Hp & Hc). apply in_map_iff in Hp as (kv & <- & Hkv).
    exists kv. split; [by apply list_elem_of_In|].
    by apply bool_decide_eq_true in Hc.
  - intros (kv & Hkv & Hc). exists kv.2. split.
    + apply in_map. by apply list_elem_of_In.
    + by apply bool_decide_eq_true.
Qed.

(** A shot keeps the board and the sets in step. *)
Lemma process_shot_marked (g : Game) move :
  wf g -> marked g -> marked (process_shot move g).1.2.
Proof.
  intros Hwf Hm. destruct (decode_move move) as [e|[col row]] eqn:Hd.
  { rewrite (process_shot_undecodable move e g Hd). by destruct (caught e). }
  destruct (decide (in_bounds (col, row))) as [Hb|Hb].
  2:{ by rewrite (process_shot_out_of_bounds move col row g Hd Hb). }
  destruct (decide ((col, row) ∈ opponent_shots g)) as [Hin|Hin].
  { by rewrite (process_shot_already_shot move col row g Hd Hb Hin). }
  destruct (shot_step g move (col, row) Hwf Hd Hb Hin)
    as (r & g' & Hrun & _ & Hf & Hs & _ & _ & _).
  assert (Hg' : g' = (resolve_hit (map snd (ship_positions g)) col row
                        (fire col row g)).1.2).
  { pose proof (process_shot_fresh move col row g Hd Hb Hin) as E.
    rewrite Hrun in E.
    destruct (resolve_hit _ col row _) as [[[e|r'] g''] t];
      [destruct (caught e)|]; by inversion E. }
  rewrite Hrun. cbn [fst snd]. intros c Hc.
  rewrite Hg', resolve_hit_board; [|apply Hwf|done|destruct Hc; lia..].
  rewrite <- Hg'.
  assert (Hcl : c ∈ claimed g' <-> c ∈ claimed g).
  { unfold claimed. by rewrite Hf. }
  assert (Hsh : c ∈ opponent_shots g'
                <-> c = (col, row) \/ c ∈ opponent_shots g).
  { by rewrite Hs, elem_of_union, elem_of_singleton. }
  pose proof (scan_finds_claimed g (col, row)) as Hscan.
  change (board (fire col row g)) with (board g).
  destruct (decide (c = (col, row))) as [->|Hne].
  - assert (Hshot : (col, row) ∈ opponent_shots g') by (apply Hsh; by left).
    unfold mark. destruct (decide (_ ∈ opponent_shots g')); [|done].
    destruct (existsb _ _) eqn:Hex;
      destruct (decide (_ ∈ claimed g')); first [done|naive_solver].
  - rewrite (Hm c Hc). unfold mark. repeat case_decide; try done; tauto.
Qed.

Lemma reachable_marked (g : Game) : reachable g -> marked g.
Proof.
  induction 1 as [rng|g move Hr IH|g move result Hr IH].
  - apply marked_setup.
  - apply process_shot_marked; [by apply reachable_wf|done].
  - destruct (handle_move_result_frame g move result) as (Hb & Hs & Hf & _).
    intros c Hc. rewrite Hb, (IH c Hc). unfold mark, claimed.
    by rewrite Hs, Hf.
Qed.

(** X1. On every game a peer can hold, each cell of the 10x10 board carries
    exactly the mark its coordinate has in the sets of the game: ['H'] where
    the opponent has shot a cell of a ship, ['M'] where the opponent has shot
    the water, ['S'] on a cell of a ship not shot yet, a blank elsewhere. *)
Theorem board_shows_fleet_and_shots (g : Game) (c : coord) :
  reachable g -> in_bounds c -> cell (board g) c = Some (mark g c).
Proof.
  intros Hr. revert c. change (marked g).
  induction Hr as [rng|g move Hr IH|g move result Hr IH].
  - apply marked_setup.
  - apply process_shot_marked; [by apply reachable_wf|done].
  - destruct (handle_move_result_frame g move result) as (Hb & Hs & Hf & _).
    intros c Hc. rewrite Hb, (IH c Hc). unfold mark, claimed.
    by rewrite Hs, Hf.
Qed.

Lemma board_shows_fleet_and_shots_witness :
  cell (board (process_shot "A0" (setup rows_rng)).1.2) (0, 0)
  = Some (mark (process_shot "A0" (setup rows_rng)).1.2 (0, 0)).
Proof.
  apply board_shows_fleet_and_shots.
  - apply reach_shot, reach_setup.
  - unfold in_bounds, board_size. cbn. lia.
Defined.

(** ** Shots *)

(** X2. A shot at a coordinate of the grid not shot before is recorded and
    answered by what lies there: [miss], with no ship sunk, when no ship
    occupies the coordinate, and one of [hit], [hit\nsunk] and [gameover]
    when a ship does. *)
Theorem fresh_shot_hits_or_misses (g : Game) (move : string) (c : coord) :
  reachable g -> decode_move move = inr c -> in_bounds c ->
  c ∉ opponent_shots g ->
  exists (r : string) (g' : Game),
    process_shot move g = (inr r, g', [])
    /\ opponent_shots g' = {[c]} ∪ opponent_shots g
    /\ (c ∉ claimed g -> r = "miss" /\ sunk_ships g' = sunk_ships g)
    /\ (c ∈ claimed g -> r ∈ ["hit"; hit_sunk; "gameover"]).
Proof.
  intros Hr Hd Hb Hfresh.
  destruct (shot_step g move c (reachable_wf g Hr) Hd Hb Hfresh)
    as (r & g' & Hrun & _ & _ & Hs & _ & _ & Hres).
  exists r, g'. split_and!; [done..| |].
  - intros Hwater. rewrite elem_of_claimed in Hwater.
    remember (sunk_ships g') as sunk' eqn:Esunk.
    destruct Hres as [Hnone|s p Hsp Hcp _ _|s p Hsp Hcp _ _ _|s p Hsp Hcp _ _ _];
      [done|exfalso; apply Hwater; by exists (s, p)..].
  - intros Hship. apply elem_of_claimed in Hship as (kv & Hkv & Hc).
    remember (sunk_ships g') as sunk' eqn:Esunk.
    destruct Hres as [Hnone|s p Hsp Hcp _ _|s p Hsp Hcp _ _ _|s p Hsp Hcp _ _ _].
    + by destruct (Hnone kv Hkv).
    + by left.
    + by right; left.
    + by right; right; left.
Qed.

Lemma fresh_shot_hits_or_misses_witness :
  exists (r : string) (g' : Game),
    process_shot "A9" (setup rows_rng) = (inr r, g', [])
    /\ opponent_shots g' = {[(0, 9)]} ∪ opponent_shots (setup rows_rng)
    /\ ((0, 9) ∉ claimed (setup rows_rng)
        -> r = "miss" /\ sunk_ships g' = sunk_ships (setup rows_rng))
    /\ ((0, 9) ∈ claimed (setup rows_rng)
        -> r ∈ ["hit"; hit_sunk; "gameover"]).
Proof.
  apply fresh_shot_hits_or_misses.
  - apply reach_setup.
  - reflexivity.
  - unfold in_bounds, board_size. cbn. lia.
  - apply (bool_decide_unpack _). vm_compute. exact I.
Defined.

(** X3. Whatever the move, [process_shot] prints nothing, leaves the fleet
    and the peer's own [shots] and [hits] as they are, and only adds to
    [opponent_shots] and [sunk_ships]; the game changes at all only when the
    shot is answered by [miss], [hit], [hit\nsunk] or [gameover]. *)
Theorem shot_only_adds (g : Game) (move : string) :
  reachable g ->
  exists (r : Py.exn + string) (g' : Game),
    process_shot move g = (r, g', [])
    /\ ship_positions g' = ship_positions g
    /\ shots g' = shots g /\ hits g' = hits g
    /\ opponent_shots g ⊆ opponent_shots g'
    /\ sunk_ships g ⊆ sunk_ships g'
    /\ (g' = g \/ exists s, r = inr s
                            /\ s ∈ ["miss"; "hit"; hit_sunk; "gameover"]).
Proof.
  intros Hr. pose proof (shot_viewP g move (reachable_wf g Hr)) as V.
  destruct V as [e He|c Hc Hb|c Hc Hb Hin
                 |c r g' Hc Hb Hfresh Hwf' Hf Hs Ho Hh Hres].
  - eexists _, g. split_and!; try done. by left.
  - exists (inr "invalid"), g. split_and!; try done. by left.
  - exists (inr "repeat"), g. split_and!; try done. by left.
  - exists (inr r), g'. split_and!; try done.
    + rewrite Hs. apply union_subseteq_r.
    + remember (sunk_ships g') as sunk' eqn:Esunk.
      destruct Hres; try done; apply union_subseteq_r.
    + right. exists r. split; [done|]. by eapply resolved_token.
Qed.

Lemma shot_only_adds_witness :
  exists (r : Py.exn + string) (g' : Game),
    process_shot "A0" (setup rows_rng) = (r, g', [])
    /\ ship_positions g' = ship_positions (setup rows_rng)
    /\ shots g' = shots (setup rows_rng) /\ hits g' = hits (setup rows_rng)
    /\ opponent_shots (setup rows_rng) ⊆ opponent_shots g'
    /\ sunk_ships (setup rows_rng) ⊆ sunk_ships g'
    /\ (g' = setup rows_rng
        \/ exists s, r = inr s /\ s ∈ ["miss"; "hit"; hit_sunk; "gameover"]).
Proof. apply shot_only_adds, reach_setup. Defined.

Lemma play_reachable (g : Game) (moves : list string) :
  reachable g -> reachable (play g moves).2.
Proof.
  revert g. induction moves as [|move moves IH]; intros g Hr; [done|].
  cbn. by apply IH, reach_shot.
Qed.

(** X4. On every game a peer can hold, [sunk_ships] holds exactly the ships
    that occupy at least one cell and have all their cells among the
    opponent's shots. *)
Theorem sunk_iff_all_cells_shot (g : Game) (ship : string) :
  reachable g ->
  ship ∈ sunk_ships g
  <-> exists positions,
        (ship, positions) ∈ ship_positions g
        /\ positions <> ∅ /\ positions ⊆ opponent_shots g.
Proof. intros Hr. apply (wf_sunk g (reachable_wf g Hr)). Qed.

Lemma sunk_iff_all_cells_shot_witness :
  "Destroyer" ∈ sunk_ships destroyer_sunk_game
  /\ (exists positions : gset coord,
        ("Destroyer", positions) ∈ ship_positions destroyer_sunk_game
        /\ positions <> ∅
        /\ positions ⊆ opponent_shots destroyer_sunk_game)
  /\ ("Carrier" ∉ sunk_ships destroyer_sunk_game)
  /\ ~ (exists positions : gset coord,
          ("Carrier", positions) ∈ ship_positions destroyer_sunk_game
          /\ positions <> ∅
          /\ positions ⊆ opponent_shots destroyer_sunk_game).
Proof.
  assert (Hr : reachable destroyer_sunk_game).
  { apply play_reachable, reach_setup. }
  assert (Hsunk : "Destroyer" ∈ sunk_ships destroyer_sunk_game).
  { apply (bool_decide_unpack _). vm_compute. exact I. }
  assert (Hafloat : "Carrier" ∉ sunk_ships destroyer_sunk_game).
  { apply (bool_decide_unpack _). vm_compute. exact I. }
  split_and!.
  - exact Hsunk.
  - exact (proj1 (sunk_iff_all_cells_shot destroyer_sunk_game "Destroyer" Hr)
             Hsunk).
  - exact Hafloat.
  - intros Hall. apply Hafloat.
    exact (proj2 (sunk_iff_all_cells_shot destroyer_sunk_game "Carrier" Hr)
             Hall).
Defined.

(** X5. On every game a peer can hold, every recorded hit is a recorded
    shot: [hits] is a subset of [shots]. *)
Theorem hits_are_shots (g : Game) :
  reachable g -> hits g ⊆ shots g.
Proof.
  induction 1 as [rng|g move Hr IH|g move result Hr IH].
  - destruct (place_ships_randomly_returns rng) as (_ & _ & Hok).
    destruct (po_own _ _ Hok) as [-> ->]. done.
  - pose proof (shot_viewP g move (reachable_wf g Hr)) as V.
    destruct V as [e He|c Hc Hb|c Hc Hb Hin
                   |c r g' Hc Hb Hfresh Hwf' Hf Hs Ho Hh Hres];
      cbn [fst snd]; [done..|].
    by rewrite Ho, Hh.
  - unfold handle_move_result.
    destruct (String.eqb result ""
              || bool_decide (result ∈ ["invalid"; "repeat"])); [done|].
    unfold mbind, M_bind, lift, modify, emit, mret, M_ret.
    destruct (decode_move move) as [e|[col row]]; [done|]. cbn.
    destruct (Py.contains "hit" result); cbn.
    + destruct (Py.contains "sunk" result); cbn; set_solver.
    + destruct (Py.contains "miss" result); cbn; [set_solver|].
      destruct (String.eqb result "gameover"); cbn; set_solver.
Qed.

Lemma hits_are_shots_witness :
  hits (handle_move_result "B3" "hit" (setup rows_rng)).1.2
  ⊆ shots (handle_move_result "B3" "hit" (setup rows_rng)).1.2.
Proof. apply hits_are_shots, reach_result, reach_setup. Defined.

(** ** Outcomes on both sides *)

Lemma handle_move_result_accepted (a : Game) (move r : string) (c : coord) :
  decode_move move = inr c ->
  r ∈ ["miss"; "hit"; hit_sunk; "gameover"] ->
  handle_move_result move r a
  = (inr tt,
     (if String.eqb r "hit" || String.eqb r hit_sunk
      then set_hits ({[c]} ∪ hits a) (set_shots ({[c]} ∪ shots a) a)
      else set_shots ({[c]} ∪ shots a) a),
     outcome_banners true r).
Proof.
  intros Hd Hr. destruct c as [col row].
  unfold handle_move_result, mbind, M_bind, lift.
  repeat (apply elem_of_cons in Hr as [->|Hr]; [by rewrite Hd|]).
  by apply elem_of_nil in Hr.
Qed.

(** X6. When a shot at a fresh coordinate of the grid is resolved by the
    peer fired at and the outcome is handled by the peer who fired, the
    latter records the coordinate among its [shots], and among its [hits]
    exactly when a ship lies there and the outcome is not [gameover]: the
    shot that wins the game is recorded as a shot but not as a hit. *)
Theorem attacker_records_outcome (d a : Game) (move : string) (c : coord) :
  reachable d -> decode_move move = inr c -> in_bounds c ->
  c ∉ opponent_shots d ->
  exists (r : string) (d' a' : Game),
    process_shot move d = (inr r, d', [])
    /\ handle_move_result move r a = (inr tt, a', outcome_banners true r)
    /\ shots a' = {[c]} ∪ shots a
    /\ hits a' = (if bool_decide (c ∈ claimed d)
                     && negb (String.eqb r "gameover")
                  then {[c]} ∪ hits a else hits a).
Proof.
  intros Hr Hd Hb Hfresh.
  destruct (shot_step d move c (reachable_wf d Hr) Hd Hb Hfresh)
    as (r & d' & Hrun & _ & _ & _ & _ & _ & Hres).
  pose proof (resolved_token _ _ _ _ Hres) as Htok.
  exists r, d'. eexists. split; [done|].
  split; [by apply handle_move_result_accepted|].
  assert (Hcl : forall s p, (s, p) ∈ ship_positions d -> c ∈ p ->
                            bool_decide (c ∈ claimed d) = true).
  { intros s p Hsp Hcp. apply bool_decide_eq_true, elem_of_claimed.
    by exists (s, p). }
  remember (sunk_ships d') as sunk' eqn:Esunk.
  destruct Hres as [Hnone|s p Hsp Hcp _ _|s p Hsp Hcp _ _ _|s p Hsp Hcp _ _ _].
  - rewrite bool_decide_eq_false_2; [done|].
    intros (kv & Hkv & Hc)%elem_of_claimed. by destruct (Hnone kv Hkv).
  - by rewrite (Hcl s p Hsp Hcp).
  - by rewrite (Hcl s p Hsp Hcp).
  - by rewrite (Hcl s p Hsp Hcp).
Qed.

Lemma attacker_records_outcome_witness :
  exists (r : string) (d' a' : Game),
    process_shot "A0" (setup rows_rng) = (inr r, d', [])
    /\ handle_move_result "A0" r init = (inr tt, a', outcome_banners true r)
    /\ shots a' = {[(0, 0)]} ∪ shots init
    /\ hits a' = (if bool_decide ((0, 0) ∈ claimed (setup rows_rng))
                     && negb (String.eqb r "gameover")
                  then {[(0, 0)]} ∪ hits init else hits init).
Proof.
  apply attacker_records_outcome.
  - apply reach_setup.
  - reflexivity.
  - unfold in_bounds, board_size. cbn. lia.
  - apply (bool_decide_unpack _). vm_compute. exact I.
Defined.

(** X7. [handle_opponent_move] returns what [process_shot] returns and leaves
    the game [process_shot] leaves.  When [process_shot] raises, nothing is
    printed; otherwise the move is announced, followed by the banners of the
    outcome: none for [invalid], [repeat] and the message of the exception
    handler, and the banner of defeat alone for [gameover]. *)
Theorem opponent_move_is_announced (g : Game) (move : string) :
  reachable g ->
  exists (r : Py.exn + string) (g' : Game),
    process_shot move g = (r, g', [])
    /\ handle_opponent_move move g
       = (r, g',
          match r with
          | inl _ => []
          | inr s => Line (newline +:+ "Opponent's move: " +:+ move)
                     :: outcome_banners false s
          end).
Proof.
  intros Hr. pose proof (reachable_wf g Hr) as Hwf.
  pose proof (process_shot_returns_token g move) as Htok.
  pose proof (shot_viewP g move Hwf) as V.
  destruct (process_shot move g) as [[r g'] t] eqn:Hrun.
  assert (t = []) as -> by (by inversion V).
  exists r, g'. split; [done|].
  unfold handle_opponent_move, mbind at 1, M_bind at 1. rewrite Hrun.
  destruct r as [e|s]; [done|].
  specialize (Htok s Hwf eq_refl). destruct Htok as [Htok| ->].
  - unfold tokens in Htok.
    repeat (apply elem_of_cons in Htok as [->|Htok]; [reflexivity|]).
    by apply elem_of_nil in Htok.
  - reflexivity.
Qed.

Lemma opponent_move_is_announced_witness :
  exists (r : Py.exn + string) (g' : Game),
    process_shot "A0" (setup rows_rng) = (r, g', [])
    /\ handle_opponent_move "A0" (setup rows_rng)
       = (r, g',
          match r with
          | inl _ => []
          | inr s => Line (newline +:+ "Opponent's move: " +:+ "A0")
                     :: outcome_banners false s
          end).
Proof. apply opponent_move_is_announced, reach_setup. Defined.

(** ** The prompt *)

(** X8. The prompt loop hands back the first line of input that
    [validate_move] accepts: every line before it is answered by
    [Invalid move format!] and a new prompt, and neither the game nor the
    messages waiting on the connection are touched. *)
Theorem ask_move_skips_refused_lines (fuel : nat) (p : Peer)
    (bad : list string) (move : string) (keys : list string) :
  keyboard p = bad ++ move :: keys ->
  Forall (fun line => validate_move line = false) bad ->
  validate_move move = true ->
  (length bad < fuel)%nat ->
  ask_move fuel p
  = (inr (Done move),
     {| game := game p; rng := rng p; inbox := inbox p; keyboard := keys |},
     refusals bad ++ [Line (newline +:+ "Your move (e.g. A5): ")]).
Proof.
  revert fuel p. induction bad as [|line bad IH]; intros fuel p Hk Hbad Hok Hf.
  - destruct fuel as [|fuel]; [cbn in Hf; lia|].
    by apply ask_move_accepts.
  - destruct fuel as [|fuel]; [cbn in Hf; lia|].
    apply Forall_cons in Hbad as [Hline Hbad].
    change ((line :: bad) ++ move :: keys)
      with (line :: (bad ++ move :: keys)) in Hk.
    cbn [ask_move].
    erewrite bind_run.
    2:{ unfold input. erewrite bind_run by reflexivity.
        unfold read_line. rewrite Hk. reflexivity. }
    rewrite Hline.
    erewrite bind_run by reflexivity.
    rewrite (IH fuel {| game := game p; rng := rng p; inbox := inbox p;
                        keyboard := bad ++ move :: keys |} eq_refl Hbad Hok);
      [reflexivity|].
    cbn in Hf. lia.
Qed.

Lemma ask_move_skips_refused_lines_witness :
  ask_move 3 {| game := init; rng := rows_rng; inbox := ["hit"];
                keyboard := ["5A"; "A"; "a5"; "B7"] |}
  = (inr (Done "a5"),
     {| game := init; rng := rows_rng; inbox := ["hit"];
        keyboard := ["B7"] |},
     refusals ["5A"; "A"] ++ [Line (newline +:+ "Your move (e.g. A5): ")]).
Proof.
  apply (ask_move_skips_refused_lines 3
           {| game := init; rng := rows_rng; inbox := ["hit"];
              keyboard := ["5A"; "A"; "a5"; "B7"] |}
           ["5A"; "A"] "a5" ["B7"]).
  - reflexivity.
  - repeat constructor.
  - reflexivity.
  - cbn. lia.
Defined.

(** ** The end of the connection *)

Lemma recv_closed (p : Peer) : inbox p = [] -> recv p = (inr "", p, []).
Proof. intros H. unfold recv. by rewrite H. Qed.

Lemma recv_message (p : Peer) (msg : string) (rest : list string) :
  inbox p = msg :: rest ->
  recv p = (inr msg, {| game := game p; rng := rng p; inbox := rest;
                        keyboard := keyboard p |}, []).
Proof. intros H. unfold recv. by rewrite H. Qed.

Lemma print_run (text : string) (p : Peer) :
  print text p = (inr tt, p, [Line text]).
Proof. reflexivity. Qed.

Lemma send_run (msg : string) (p : Peer) :
  send msg p = (inr tt, p, [Sent msg]).
Proof. reflexivity. Qed.

(** The opponent has closed the connection while the peer waits for a
    move. *)
Lemma opponent_turn_closed (fuel : nat) (p : Peer) :
  inbox p = [] ->
  let t := [Boards (board (game p)) (shots (game p)) (hits (game p));
            Line (newline +:+ "Waiting for opponent's move...")] in
  Server.loop (S fuel) false p = (inr (Done tt), p, t)
  /\ Client.loop (S (S fuel)) false p = (inr (Done tt), p, t).
Proof.
  intros Hin t. pose proof (recv_closed p Hin) as Hrecv. split.
  - assert (Hit : Server.iteration fuel false p = (inr (Done Stop), p, t)).
    { unfold Server.iteration. cbn [negb].
      rewrite (bind_run _ _ _ _ _ _ (display_run p)).
      rewrite (bind_run _ _ _ _ _ _ (print_run _ p)).
      by rewrite (bind_run_quiet _ _ _ _ _ Hrecv). }
    cbn [Server.loop]. by rewrite (bind_run _ _ _ _ _ _ Hit).
  - assert (Hit : Client.iteration (S fuel) false p
                  = (inr (Done Stop), p, t)).
    { unfold Client.iteration.
      rewrite (bind_run _ _ _ _ _ _ (display_run p)).
      rewrite (bind_run _ _ _ _ _ _ (print_run _ p)).
      cbn [Client.answer].
      by rewrite (bind_run_quiet _ _ _ _ _
                    (bind_run_quiet _ _ _ _ _ Hrecv)). }
    cbn [Client.loop]. by rewrite (bind_run _ _ _ _ _ _ Hit).
Qed.

(** ** The opponent's turn *)

Lemma handle_opponent_move_run (g g' : Game) (move s : string) :
  process_shot move g = (inr s, g', []) ->
  s ∈ tokens \/ s = format_error ->
  handle_opponent_move move g
  = (inr s, g',
     Line (newline +:+ "Opponent's move: " +:+ move)
     :: outcome_banners false s).
Proof.
  intros Hrun Htok.
  unfold handle_opponent_move, mbind at 1, M_bind at 1. rewrite Hrun.
  destruct Htok as [Htok| ->]; [|reflexivity].
  unfold tokens in Htok.
  repeat (apply elem_of_cons in Htok as [->|Htok]; [reflexivity|]).
  by apply elem_of_nil in Htok.
Qed.

Lemma decode_move_nonempty (move : string) (c : coord) :
  decode_move move = inr c -> String.eqb move "" = false.
Proof. by destruct move. Qed.

(** The pass of the main loop in which the opponent's shot is resolved. *)
Lemma opponent_turn_resolved (fuel : nat) (p : Peer) (data r : string)
    (rest : list string) (g' : Game) :
  inbox p = data :: rest -> String.eqb data "" = false ->
  process_shot data (game p) = (inr r, g', []) ->
  r ∈ ["miss"; "hit"; hit_sunk; "gameover"] ->
  let p' := {| game := g'; rng := rng p; inbox := rest;
               keyboard := keyboard p |} in
  let t := [Boards (board (game p)) (shots (game p)) (hits (game p));
            Line (newline +:+ "Waiting for opponent's move...");
            Line (newline +:+ "Opponent's move: " +:+ data)]
           ++ outcome_banners false r ++ [Sent r]
           ++ (if String.eqb r "gameover"
               then [Boards (board g') (shots g') (hits g')] else []) in
  Server.iteration (S fuel) false p = (inr (Done (Next true)), p', t)
  /\ Client.iteration (S fuel) false p
     = (inr (Done (if String.eqb r "gameover" then Stop else Next true)),
        p', t).
Proof.
  intros Hin Hdata Hrun Hr p' t.
  set (p1 := {| game := game p; rng := rng p; inbox := rest;
                keyboard := keyboard p |}).
  pose proof (recv_message p data rest Hin) as Hrecv. fold p1 in Hrecv.
  assert (Htok : r ∈ tokens \/ r = format_error).
  { left. unfold tokens. by do 2 right. }
  pose proof (handle_opponent_move_run (game p) g' data r Hrun Htok) as Hmove.
  assert (Hpeer : on_peer (handle_opponent_move data) p1
                  = (inr r, p',
                     Line (newline +:+ "Opponent's move: " +:+ data)
                     :: outcome_banners false r)).
  { by rewrite (on_peer_run _ p1 _ _ _ Hmove). }
  set (t1 := Line (newline +:+ "Opponent's move: " +:+ data)
             :: outcome_banners false r ++ [Sent r]
             ++ (if String.eqb r "gameover"
                 then [Boards (board g') (shots g') (hits g')] else [])).
  assert (Hserver : Server.answer (S fuel) data "" p1
                    = (inr (Done r), p', t1)).
  { cbn [Server.answer String.eqb orb].
    rewrite (bind_run _ _ _ _ _ _ Hpeer).
    rewrite (bind_run _ _ _ _ _ _ (send_run r p')).
    clear Hrun Hmove Hpeer Htok. subst t t1.
    repeat (apply elem_of_cons in Hr as [->|Hr];
            [by destruct fuel|]).
    by apply elem_of_nil in Hr. }
  assert (Hclient : Client.answer (S fuel) p
                    = (inr (Done (Some r)), p',
                       Line (newline +:+ "Opponent's move: " +:+ data)
                       :: outcome_banners false r ++ [Sent r])).
  { cbn [Client.answer].
    rewrite (bind_run_quiet _ _ _ _ _ Hrecv). rewrite Hdata.
    rewrite (bind_run _ _ _ _ _ _ Hpeer).
    rewrite (bind_run _ _ _ _ _ _ (send_run r p')).
    clear Hrun Hmove Hpeer Htok Hserver. subst t t1.
    repeat (apply elem_of_cons in Hr as [->|Hr]; [reflexivity|]).
    by apply elem_of_nil in Hr. }
  split.
  - unfold Server.iteration. cbn [negb].
    rewrite (bind_run _ _ _ _ _ _ (display_run p)).
    rewrite (bind_run _ _ _ _ _ _ (print_run _ p)).
    rewrite (bind_run_quiet _ _ _ _ _ Hrecv). rewrite Hdata.
    rewrite (bind_run _ _ _ _ _ _ Hserver).
    subst t t1. cbn. by rewrite app_nil_r.
  - unfold Client.iteration.
    rewrite (bind_run _ _ _ _ _ _ (display_run p)).
    rewrite (bind_run _ _ _ _ _ _ (print_run _ p)).
    rewrite (bind_run _ _ _ _ _ _ Hclient).
    clear Hrun Hmove Hpeer Htok Hserver Hclient. subst t t1.
    repeat (apply elem_of_cons in Hr as [->|Hr]; [reflexivity|]).
    by apply elem_of_nil in Hr.
Qed.

(** X9. In the opponent's turn, a shot at a coordinate of the grid not shot
    before is answered by exactly one message, its outcome, in the server and
    in the client alike, and the game is left as [process_shot] leaves it.
    The turn then passes to the peer; on [gameover] the client leaves the
    main loop, while the server, whose inner loop alone is left by
    [break], goes on to its own turn. *)
Theorem answered_shot_passes_turn (fuel : nat) (p : Peer) (data : string)
    (rest : list string) (c : coord) :
  reachable (game p) -> inbox p = data :: rest ->
  decode_move data = inr c -> in_bounds c -> c ∉ opponent_shots (game p) ->
  exists (r : string) (g' : Game) (t : list event),
    process_shot data (game p) = (inr r, g', [])
    /\ Server.iteration (S fuel) false p
       = (inr (Done (Next true)),
          {| game := g'; rng := rng p; inbox := rest;
             keyboard := keyboard p |}, t)
    /\ Client.iteration (S fuel) false p
       = (inr (Done (if String.eqb r "gameover" then Stop else Next true)),
          {| game := g'; rng := rng p; inbox := rest;
             keyboard := keyboard p |}, t)
    /\ sent t = [r].
Proof.
  intros Hr Hin Hd Hb Hfresh.
  destruct (shot_step (game p) data c (reachable_wf _ Hr) Hd Hb Hfresh)
    as (r & g' & Hrun & _ & _ & _ & _ & _ & Hres).
  pose proof (resolved_token _ _ _ _ Hres) as Htok.
  destruct (opponent_turn_resolved fuel p data r rest g' Hin
              (decode_move_nonempty data c Hd) Hrun Htok) as [Hs Hc].
  exists r, g'. eexists. split_and!; [done|exact Hs|exact Hc|].
  clear Hs Hc Hres Hrun.
  repeat (apply elem_of_cons in Htok as [->|Htok]; [reflexivity|]).
  by apply elem_of_nil in Htok.
Qed.

Lemma answered_shot_passes_turn_witness :
  exists (r : string) (g' : Game) (t : list event),
    process_shot "C7" (setup rows_rng) = (inr r, g', [])
    /\ Server.iteration 1 false
         {| game := setup rows_rng; rng := rows_rng; inbox := ["C7"; "D7"];
            keyboard := [] |}
       = (inr (Done (Next true)),
          {| game := g'; rng := rows_rng; inbox := ["D7"];
             keyboard := [] |}, t)
    /\ Client.iteration 1 false
         {| game := setup rows_rng; rng := rows_rng; inbox := ["C7"; "D7"];
            keyboard := [] |}
       = (inr (Done (if String.eqb r "gameover" then Stop else Next true)),
          {| game := g'; rng := rows_rng; inbox := ["D7"];
             keyboard := [] |}, t)
    /\ sent t = [r].
Proof.
  apply (answered_shot_passes_turn 0
           {| game := setup rows_rng; rng := rows_rng;
              inbox := ["C7"; "D7"]; keyboard := [] |}
           "C7" ["D7"] (2, 7)).
  - apply reach_setup.
  - reflexivity.
  - reflexivity.
  - unfold in_bounds, board_size. cbn. lia.
  - apply (bool_decide_unpack _). vm_compute. exact I.
Defined.

(** X10. When the shot received sinks the last ship, the client shows the
    boards and its main loop ends, whereas the main loop of the server goes
    on: after sending [gameover] the defeated server starts a pass of its
    own turn. *)
Theorem defeated_server_plays_on (fuel : nat) (p : Peer) (data : string)
    (rest : list string) :
  reachable (game p) -> inbox p = data :: rest ->
  (process_shot data (game p)).1.1 = inr "gameover" ->
  let g' := (process_shot data (game p)).1.2 in
  let p' := {| game := g'; rng := rng p; inbox := rest;
               keyboard := keyboard p |} in
  let t := [Boards (board (game p)) (shots (game p)) (hits (game p));
            Line (newline +:+ "Waiting for opponent's move...");
            Line (newline +:+ "Opponent's move: " +:+ data);
            Banner LOSE_ART; Sent "gameover";
            Boards (board g') (shots g') (hits g')] in
  Client.loop (S (S fuel)) false p = (inr (Done tt), p', t)
  /\ Server.loop (S (S fuel)) false p
     = match Server.loop (S fuel) true p' with
       | (r, q, t') => (r, q, t ++ t')
       end.
Proof.
  intros Hr Hin Hover g' p' t.
  assert (Hrun : process_shot data (game p) = (inr "gameover", g', [])).
  { pose proof (shot_viewP (game p) data (reachable_wf _ Hr)) as V.
    subst g'. destruct (process_shot data (game p)) as [[r g''] t'].
    cbn in Hover. subst r. by inversion V. }
  assert (Hdata : String.eqb data "" = false).
  { destruct data; [|done].
    rewrite (process_shot_undecodable "" Py.IndexError) in Hrun; done. }
  destruct (opponent_turn_resolved fuel p data "gameover" rest g' Hin Hdata
              Hrun) as [Hs Hc].
  { by do 3 right; left. }
  split.
  - cbn [Client.loop]. by rewrite (bind_run _ _ _ _ _ _ Hc).
  - change (Server.loop (S (S fuel)) false p)
      with ((r ← Server.iteration (S fuel) false;
             match r with
             | Unfinished => mret Unfinished
             | Done Stop => mret (Done tt)
             | Done (Next my_turn') => Server.loop (S fuel) my_turn'
             end) p).
    by rewrite (bind_run _ _ _ _ _ _ Hs).
Qed.

Lemma defeated_server_plays_on_witness :
  let p := last_shot_peer in
  let g' := (process_shot "B4" (game p)).1.2 in
  let p' := {| game := g'; rng := rng p; inbox := [];
               keyboard := keyboard p |} in
  let t := [Boards (board (game p)) (shots (game p)) (hits (game p));
            Line (newline +:+ "Waiting for opponent's move...");
            Line (newline +:+ "Opponent's move: " +:+ "B4");
            Banner LOSE_ART; Sent "gameover";
            Boards (board g') (shots g') (hits g')] in
  Client.loop 2 false p = (inr (Done tt), p', t).
Proof.
  assert (Hr : reachable last_shot_game) by apply play_reachable, reach_setup.
  assert (H : (process_shot "B4" last_shot_game).1.1 = inr "gameover").
  { apply (bool_decide_unpack _). vm_compute. exact I. }
  exact (proj1 (defeated_server_plays_on 0 last_shot_peer "B4" []
                  Hr eq_refl H)).
Defined.

(** ** The peer's own turn *)

(** The pass of the main loop in which the outcome of the peer's own move
    is neither [repeat] nor [invalid]; [response] is what [recv] returns,
    the empty string when the connection is closed. *)
Lemma own_turn_handled (iteration : nat -> bool -> M event Peer (run flow))
    (fuel : nat) (p : Peer) (move response : string)
    (keys msgs : list string) :
  (iteration = Client.iteration \/ iteration = Server.iteration) ->
  keyboard p = move :: keys -> validate_move move = true ->
  (inbox p = response :: msgs \/ inbox p = [] /\ response = "" /\ msgs = []) ->
  String.eqb response "repeat" = false ->
  String.eqb response "invalid" = false ->
  let pre := [Boards (board (game p)) (shots (game p)) (hits (game p));
              Line (newline +:+ "Your move (e.g. A5): "); Sent move] in
  iteration (S fuel) true p
  = match handle_move_result move response (game p) with
    | (inl e, g', t) =>
        (inl e, {| game := g'; rng := rng p; inbox := msgs;
                   keyboard := keys |}, pre ++ t)
    | (inr _, g', t) =>
        (inr (Done (if String.eqb response "gameover" then Stop
                    else Next false)),
         {| game := g'; rng := rng p; inbox := msgs; keyboard := keys |},
         pre ++ t ++ (if String.eqb response "gameover"
                      then [Boards (board g') (shots g') (hits g')]
                      else []))
    end.
Proof.
  intros Hit Hkeys Hvalid Hinbox Hrep Hinv pre.
  pose proof (ask_move_accepts fuel p move keys Hkeys Hvalid) as Hask.
  set (p1 := {| game := game p; rng := rng p; inbox := inbox p;
                keyboard := keys |}) in *.
  set (p2 := {| game := game p; rng := rng p; inbox := msgs;
                keyboard := keys |}).
  assert (Hrecv : recv p1 = (inr response, p2, [])).
  { unfold recv, p1, p2. cbn [inbox].
    destruct Hinbox as [Hin|(Hin & -> & ->)]; by rewrite Hin. }
  assert (Hrest :
    (on_peer (handle_move_result move response);;
     if String.eqb response "gameover"
     then on_peer display_game_state;; mret (Done Stop)
     else mret (Done (Next false))) p2
    = match handle_move_result move response (game p) with
      | (inl e, g', t) =>
          (inl e, {| game := g'; rng := rng p; inbox := msgs;
                     keyboard := keys |}, t)
      | (inr _, g', t) =>
          (inr (Done (if String.eqb response "gameover" then Stop
                      else Next false)),
           {| game := g'; rng := rng p; inbox := msgs; keyboard := keys |},
           t ++ (if String.eqb response "gameover"
                 then [Boards (board g') (shots g') (hits g')]
                 else []))
      end).
  { unfold mbind at 1, M_bind at 1, on_peer at 1. cbn [game p2].
    destruct (handle_move_result move response (game p)) as [[[e|[]] g'] t];
      [reflexivity|].
    cbn [rng inbox keyboard p2].
    destruct (String.eqb response "gameover"); reflexivity. }
  destruct Hit as [-> | ->].
  - unfold Client.iteration.
    rewrite (bind_run _ _ _ _ _ _ (display_run p)).
    rewrite (bind_run _ _ _ _ _ _ Hask). cbv iota.
    rewrite (bind_run (send move) _ p1 tt p1 [Sent move] eq_refl).
    rewrite (bind_run_quiet _ _ _ _ _ Hrecv).
    rewrite Hrep, Hinv, Hrest.
    by destruct (handle_move_result move response (game p))
      as [[[e|[]] g'] t].
  - unfold Server.iteration. cbn [negb].
    rewrite (bind_run _ _ _ _ _ _ (display_run p)).
    rewrite (bind_run _ _ _ _ _ _ Hask). cbv iota.
    rewrite (bind_run (send move) _ p1 tt p1 [Sent move] eq_refl).
    rewrite (bind_run_quiet _ _ _ _ _ Hrecv).
    rewrite Hrep, Hinv, Hrest.
    by destruct (handle_move_result move response (game p))
      as [[[e|[]] g'] t].
Qed.

Lemma outcome_not_refused (r : string) :
  r ∈ ["miss"; "hit"; hit_sunk; "gameover"] ->
  String.eqb r "repeat" = false /\ String.eqb r "invalid" = false.
Proof.
  intros Hr.
  repeat (apply elem_of_cons in Hr as [->|Hr]; [by split|]).
  by apply elem_of_nil in Hr.
Qed.

(** X11. When the outcome that comes back for the peer's own move is [miss],
    [hit], [hit\nsunk] or [gameover], the pass of the main loop, of the
    client and of the server alike, sends the move once, records its
    coordinate among the [shots], and among the [hits] for [hit] and
    [hit\nsunk] only, prints the banners of the outcome and hands the turn
    to the opponent; on [gameover] it shows the boards once more and leaves
    the loop. *)
Theorem own_move_outcome_is_recorded (fuel : nat) (p : Peer)
    (move response : string) (keys msgs : list string) (c : coord) :
  keyboard p = move :: keys -> validate_move move = true ->
  inbox p = response :: msgs -> decode_move move = inr c ->
  response ∈ ["miss"; "hit"; hit_sunk; "gameover"] ->
  exists g' : Game,
    shots g' = {[c]} ∪ shots (game p)
    /\ hits g' = (if String.eqb response "hit" || String.eqb response hit_sunk
                  then {[c]} ∪ hits (game p) else hits (game p))
    /\ board g' = board (game p)
    /\ opponent_shots g' = opponent_shots (game p)
    /\ sunk_ships g' = sunk_ships (game p)
    /\ let p' := {| game := g'; rng := rng p; inbox := msgs;
                    keyboard := keys |} in
       let over := String.eqb response "gameover" in
       let t := [Boards (board (game p)) (shots (game p)) (hits (game p));
                 Line (newline +:+ "Your move (e.g. A5): "); Sent move]
                ++ outcome_banners true response
                ++ (if over then [Boards (board g') (shots g') (hits g')]
                    else []) in
       Client.iteration (S fuel) true p
       = (inr (Done (if over then Stop else Next false)), p', t)
       /\ Server.iteration (S fuel) true p
          = (inr (Done (if over then Stop else Next false)), p', t).
Proof.
  intros Hkeys Hvalid Hinbox Hd Hr.
  destruct (outcome_not_refused response Hr) as [Hrep Hinv].
  pose proof (handle_move_result_accepted (game p) move response c Hd Hr)
    as Hres.
  pose proof (own_turn_handled Client.iteration fuel p move response keys msgs
                (or_introl eq_refl) Hkeys Hvalid (or_introl Hinbox) Hrep Hinv)
    as Hclient.
  pose proof (own_turn_handled Server.iteration fuel p move response keys msgs
                (or_intror eq_refl) Hkeys Hvalid (or_introl Hinbox) Hrep Hinv)
    as Hserver.
  cbv zeta in Hclient, Hserver. rewrite Hres in Hclient, Hserver.
  exists (if String.eqb response "hit" || String.eqb response hit_sunk
          then set_hits ({[c]} ∪ hits (game p))
                 (set_shots ({[c]} ∪ shots (game p)) (game p))
          else set_shots ({[c]} ∪ shots (game p)) (game p)).
  do 5 (split;
        [by destruct (String.eqb response "hit"
                      || String.eqb response hit_sunk)|]).
  cbv zeta. by split.
Qed.

Lemma own_move_outcome_is_recorded_witness :
  exists g' : Game,
    shots g' = {[(1, 3)]} ∪ shots init
    /\ hits g' = {[(1, 3)]} ∪ hits init
    /\ board g' = board init
    /\ opponent_shots g' = opponent_shots init
    /\ sunk_ships g' = sunk_ships init.
Proof.
  destruct (own_move_outcome_is_recorded 0
              {| game := init; rng := rows_rng; inbox := ["hit"];
                 keyboard := ["b3"] |}
              "b3" "hit" [] [] (1, 3))
    as (g' & Hs & Hh & Hb & Ho & Hk & _).
  - reflexivity.
  - reflexivity.
  - reflexivity.
  - reflexivity.
  - by right; left.
  - exists g'. by split_and!.
Defined.

(** X12. When the opponent has closed the connection, the main loop of the
    server and of the client ends with the game as it was.  In the
    opponent's turn it ends at once, with nothing sent; in the peer's own
    turn the move typed is still sent, the empty answer is taken for an
    outcome that records nothing, and the loop ends in the pass that
    follows. *)
Theorem closed_connection_ends_game (fuel : nat) (p : Peer) :
  inbox p = [] ->
  let shown := Boards (board (game p)) (shots (game p)) (hits (game p)) in
  let waiting := Line (newline +:+ "Waiting for opponent's move...") in
  (Server.loop (S fuel) false p = (inr (Done tt), p, [shown; waiting])
   /\ Client.loop (S (S fuel)) false p = (inr (Done tt), p, [shown; waiting]))
  /\ forall (move : string) (keys : list string),
       keyboard p = move :: keys -> validate_move move = true ->
       let p' := {| game := game p; rng := rng p; inbox := [];
                    keyboard := keys |} in
       let t := [shown; Line (newline +:+ "Your move (e.g. A5): ");
                 Sent move; shown; waiting] in
       Server.loop (S (S (S fuel))) true p = (inr (Done tt), p', t)
       /\ Client.loop (S (S (S fuel))) true p = (inr (Done tt), p', t).
Proof.
  intros Hin shown waiting. split; [by apply opponent_turn_closed|].
  intros move keys Hkeys Hvalid p' t.
  assert (Hres : handle_move_result move "" (game p) = (inr tt, game p, []))
    by reflexivity.
  pose proof (own_turn_handled Client.iteration (S fuel) p move "" keys []
                (or_introl eq_refl) Hkeys Hvalid
                (or_intror (conj Hin (conj eq_refl eq_refl)))
                eq_refl eq_refl) as Hclient.
  pose proof (own_turn_handled Server.iteration (S fuel) p move "" keys []
                (or_intror eq_refl) Hkeys Hvalid
                (or_intror (conj Hin (conj eq_refl eq_refl)))
                eq_refl eq_refl) as Hserver.
  cbv zeta in Hclient, Hserver. rewrite Hres in Hclient, Hserver.
  destruct (opponent_turn_closed fuel p' eq_refl) as [_ Hc].
  destruct (opponent_turn_closed (S fuel) p' eq_refl) as [Hs' _].
  subst p' t. cbn [game] in Hc, Hs'.
  split.
  - change (Server.loop (S (S (S fuel))) true p)
      with ((r ← Server.iteration (S (S fuel)) true;
             match r with
             | Unfinished => mret Unfinished
             | Done Stop => mret (Done tt)
             | Done (Next my_turn') => Server.loop (S (S fuel)) my_turn'
             end) p).
    rewrite (bind_run _ _ _ _ _ _ Hserver).
    cbn [String.eqb]. cbv iota. by rewrite Hs'.
  - change (Client.loop (S (S (S fuel))) true p)
      with ((r ← Client.iteration (S (S fuel)) true;
             match r with
             | Unfinished => mret Unfinished
             | Done Stop => mret (Done tt)
             | Done (Next my_turn') => Client.loop (S (S fuel)) my_turn'
             end) p).
    rewrite (bind_run _ _ _ _ _ _ Hclient).
    cbn [String.eqb]. cbv iota. by rewrite Hc.
Qed.

Lemma closed_connection_ends_game_witness :
  Server.loop 1 false {| game := init; rng := rows_rng; inbox := [];
                         keyboard := ["A5"] |}
  = (inr (Done tt),
     {| game := init; rng := rows_rng; inbox := []; keyboard := ["A5"] |},
     [Boards (board init) ∅ ∅;
      Line (newline +:+ "Waiting for opponent's move...")]).
Proof.
  destruct (closed_connection_ends_game 0
              {| game := init; rng := rows_rng; inbox := [];
                 keyboard := ["A5"] |} eq_refl) as [[Hs _] _].
  exact Hs.
Defined.

(** ** From the first message to the end of the connection *)

Lemma on_placement_setup (p : Peer) :
  game p = init ->
  exists rng' : Rng,
    on_placement place_ships_randomly p
    = (inr tt, {| game := setup (rng p); rng := rng'; inbox := inbox p;
                  keyboard := keyboard p |}, []).
Proof.
  intros Hinit. destruct (place_ships_randomly_returns (rng p))
    as (rng' & Hrun & _).
  exists rng'. unfold on_placement. by rewrite Hinit, Hrun.
Qed.

(** [main] of the server, from the game that [BattleshipGame()] builds. *)
Lemma server_main_run (fuel : nat) (p : Peer) :
  game p = init ->
  exists rng' : Rng,
    Server.main fuel p
    = match Server.loop fuel false
              {| game := setup (rng p); rng := rng'; inbox := inbox p;
                 keyboard := keyboard p |} with
      | (inl e, q, t) =>
          (inr (Done tt), q,
           [Sent "ready";
            Line (newline +:+ "Game started! All ships have been placed.")]
           ++ t ++ [Report e; Closed])
      | (inr (Done _), q, t) =>
          (inr (Done tt), q,
           [Sent "ready";
            Line (newline +:+ "Game started! All ships have been placed.")]
           ++ t ++ [Closed])
      | (inr Unfinished, q, t) =>
          (inr Unfinished, q,
           [Sent "ready";
            Line (newline +:+ "Game started! All ships have been placed.")]
           ++ t)
      end.
Proof.
  intros Hinit. destruct (on_placement_setup p Hinit) as (rng' & Hplace).
  exists rng'. unfold Server.main.
  rewrite (bind_run _ _ _ _ _ _ (send_run "ready" p)).
  rewrite (bind_run_quiet _ _ _ _ _ Hplace).
  rewrite (bind_run _ _ _ _ _ _ (print_run _ _)).
  unfold mbind at 1, M_bind at 1, try_except.
  destruct (Server.loop fuel false _) as [[[e|[[]|]] q] t];
    unfold mbind, M_bind, emit, mret, M_ret; cbn;
    by rewrite <- ?app_assoc, ?app_nil_r.
Qed.

(** [main] of the client, from the game that [BattleshipGame()] builds and
    the message that announces that the server is ready. *)
Lemma client_main_run (fuel : nat) (p : Peer) :
  game p = init ->
  exists rng' : Rng,
    Client.main fuel p
    = match Client.loop fuel true
              {| game := setup (rng p); rng := rng'; inbox := tail (inbox p);
                 keyboard := keyboard p |} with
      | (inl e, q, t) =>
          (inr (Done tt), q,
           [Line (newline +:+ "Game Started! All ships have been placed:")]
           ++ t ++ [Report e; Closed])
      | (inr (Done _), q, t) =>
          (inr (Done tt), q,
           [Line (newline +:+ "Game Started! All ships have been placed:")]
           ++ t ++ [Closed])
      | (inr Unfinished, q, t) =>
          (inr Unfinished, q,
           [Line (newline +:+ "Game Started! All ships have been placed:")]
           ++ t)
      end.
Proof.
  intros Hinit.
  set (p0 := {| game := game p; rng := rng p; inbox := tail (inbox p);
                keyboard := keyboard p |}).
  assert (Hrecv : exists msg, recv p = (inr msg, p0, [])).
  { unfold recv, p0. destruct (inbox p) as [|msg rest] eqn:Hin.
    - exists "". cbn. by rewrite <- Hin, peer_eta.
    - by exists msg. }
  destruct Hrecv as (msg & Hrecv).
  destruct (on_placement_setup p0 Hinit) as (rng' & Hplace).
  exists rng'. unfold Client.main.
  unfold mbind at 1, M_bind at 1, try_except.
  rewrite (bind_run_quiet _ _ _ _ _ Hrecv).
  rewrite (bind_run_quiet _ _ _ _ _ Hplace).
  rewrite (bind_run _ _ _ _ _ _ (print_run _ _)).
  cbn [rng inbox keyboard p0].
  destruct (Client.loop fuel true _) as [[[e|[[]|]] q] t];
    unfold mbind, M_bind, emit, mret, M_ret; cbn;
    by rewrite <- ?app_assoc, ?app_nil_r.
Qed.

(** ** Exceptions in the main loop *)

(** Running a sequence whose first part raises. *)
Lemma bind_raise {E S A B} (m : M E S A) (k : A -> M E S B) s e s1 t1 :
  m s = (inl e, s1, t1) -> (m ≫= k) s = (inl e, s1, t1).
Proof. intros Hm. unfold mbind, M_bind. by rewrite Hm. Qed.

(** X13. A message whose decoding raises an exception that [process_shot]
    does not catch ends the main loop of the peer that receives it, server
    or client: the exception leaves the loop before anything is answered,
    with the game as it was; in the server, which starts with the opponent's
    turn, [main] reports it and closes the connection. *)
Theorem uncaught_move_ends_loop (fuel : nat) (p : Peer) (data : string)
    (rest : list string) (e : Py.exn) :
  inbox p = data :: rest -> decode_move data = inl e -> caught e = false ->
  let p' := {| game := game p; rng := rng p; inbox := rest;
               keyboard := keyboard p |} in
  let t := [Boards (board (game p)) (shots (game p)) (hits (game p));
            Line (newline +:+ "Waiting for opponent's move...")] in
  Server.loop (S (S fuel)) false p = (inl e, p', t)
  /\ Client.loop (S (S fuel)) false p = (inl e, p', t)
  /\ (game p = init ->
      exists (q : Peer) (shown : event),
        Server.main (S (S fuel)) p
        = (inr (Done tt), q,
           [Sent "ready";
            Line (newline +:+ "Game started! All ships have been placed.");
            shown; Line (newline +:+ "Waiting for opponent's move...");
            Report e; Closed])).
Proof.
  intros Hin Hd Hcaught p' t.
  assert (Hdata : String.eqb data "" = false).
  { destruct data; [|done]. cbn in Hd. by injection Hd as <-. }
  assert (Hpass : forall q : Peer, inbox q = data :: rest ->
    let q' := {| game := game q; rng := rng q; inbox := rest;
                 keyboard := keyboard q |} in
    let tq := [Boards (board (game q)) (shots (game q)) (hits (game q));
               Line (newline +:+ "Waiting for opponent's move...")] in
    Server.loop (S (S fuel)) false q = (inl e, q', tq)
    /\ Client.loop (S (S fuel)) false q = (inl e, q', tq)).
  { clear p Hin p' t. intros q Hin q' tq.
    pose proof (recv_message q data rest Hin) as Hrecv. fold q' in Hrecv.
    assert (Hmove : on_peer (handle_opponent_move data) q' = (inl e, q', [])).
    { unfold on_peer, handle_opponent_move, mbind, M_bind. cbn [game q'].
      rewrite (process_shot_undecodable data e (game q) Hd), Hcaught.
      reflexivity. }
    assert (Hserver : Server.answer (S fuel) data "" q' = (inl e, q', [])).
    { cbn [Server.answer String.eqb orb].
      by rewrite (bind_raise _ _ _ _ _ _ Hmove). }
    assert (Hclient : Client.answer (S fuel) q = (inl e, q', [])).
    { cbn [Client.answer].
      rewrite (bind_run_quiet _ _ _ _ _ Hrecv). rewrite Hdata.
      by rewrite (bind_raise _ _ _ _ _ _ Hmove). }
    split.
    - assert (Hit : Server.iteration (S fuel) false q = (inl e, q', tq)).
      { unfold Server.iteration. cbn [negb].
        rewrite (bind_run _ _ _ _ _ _ (display_run q)).
        rewrite (bind_run _ _ _ _ _ _ (print_run _ q)).
        rewrite (bind_run_quiet _ _ _ _ _ Hrecv). rewrite Hdata.
        by rewrite (bind_raise _ _ _ _ _ _ Hserver). }
      cbn [Server.loop]. by rewrite (bind_raise _ _ _ _ _ _ Hit).
    - assert (Hit : Client.iteration (S fuel) false q = (inl e, q', tq)).
      { unfold Client.iteration.
        rewrite (bind_run _ _ _ _ _ _ (display_run q)).
        rewrite (bind_run _ _ _ _ _ _ (print_run _ q)).
        by rewrite (bind_raise _ _ _ _ _ _ Hclient). }
      cbn [Client.loop]. by rewrite (bind_raise _ _ _ _ _ _ Hit). }
  destruct (Hpass p Hin) as [Hs Hc]. split_and!; [done..|].
  intros Hinit. destruct (server_main_run (S (S fuel)) p Hinit) as (rng' & ->).
  destruct (Hpass {| game := setup (rng p); rng := rng'; inbox := inbox p;
                     keyboard := keyboard p |} Hin) as [-> _].
  by eexists _, _.
Qed.

Lemma uncaught_move_ends_loop_witness :
  Server.loop 2 false
    {| game := init; rng := rows_rng; inbox := [String sharp_s "5"; "A1"];
       keyboard := [] |}
  = (inl Py.TypeError,
     {| game := init; rng := rows_rng; inbox := ["A1"]; keyboard := [] |},
     [Boards (board init) ∅ ∅;
      Line (newline +:+ "Waiting for opponent's move...")]).
Proof.
  destruct (uncaught_move_ends_loop 0
              {| game := init; rng := rows_rng;
                 inbox := [String sharp_s "5"; "A1"]; keyboard := [] |}
              (String sharp_s "5") ["A1"] Py.TypeError)
    as (Hs & _).
  - reflexivity.
  - reflexivity.
  - reflexivity.
  - exact Hs.
Defined.

Lemma handle_move_result_undecodable (g : Game) (move response : string)
    (e : Py.exn) :
  decode_move move = inl e ->
  String.eqb response "" = false -> response ∉ ["invalid"; "repeat"] ->
  handle_move_result move response g = (inl e, g, []).
Proof.
  intros Hd Hempty Hr. unfold handle_move_result, mbind, M_bind, lift.
  by rewrite Hempty, (bool_decide_eq_false_2 _ Hr), Hd.
Qed.

(** X14. A move that [validate_move] accepts and the decoding statements
    reject ends the main loop of the peer who typed it, client or server:
    the move is sent, and when an answer other than [invalid], [repeat] and
    the empty string comes back, [handle_move_result] raises the exception
    of the decoding outside any handler but that of [main], with the game
    as it was. *)
Theorem undecodable_own_move_ends_loop (fuel : nat) (p : Peer)
    (move response : string) (keys msgs : list string) (e : Py.exn) :
  keyboard p = move :: keys -> validate_move move = true ->
  decode_move move = inl e ->
  inbox p = response :: msgs ->
  String.eqb response "" = false -> response ∉ ["invalid"; "repeat"] ->
  let p' := {| game := game p; rng := rng p; inbox := msgs;
               keyboard := keys |} in
  let t := [Boards (board (game p)) (shots (game p)) (hits (game p));
            Line (newline +:+ "Your move (e.g. A5): "); Sent move] in
  Client.loop (S (S fuel)) true p = (inl e, p', t)
  /\ Server.loop (S (S fuel)) true p = (inl e, p', t).
Proof.
  intros Hkeys Hvalid Hd Hinbox Hempty Hr p' t.
  pose proof (handle_move_result_undecodable (game p) move response e
                Hd Hempty Hr) as Hres.
  assert (Hrep : String.eqb response "repeat" = false).
  { apply String.eqb_neq. intros ->. apply Hr. by right; left. }
  assert (Hinv : String.eqb response "invalid" = false).
  { apply String.eqb_neq. intros ->. apply Hr. by left. }
  pose proof (own_turn_handled Client.iteration fuel p move response keys msgs
                (or_introl eq_refl) Hkeys Hvalid (or_introl Hinbox) Hrep Hinv)
    as Hclient.
  pose proof (own_turn_handled Server.iteration fuel p move response keys msgs
                (or_intror eq_refl) Hkeys Hvalid (or_introl Hinbox) Hrep Hinv)
    as Hserver.
  cbv zeta in Hclient, Hserver. rewrite Hres in Hclient, Hserver.
  split.
  - cbn [Client.loop]. rewrite (bind_raise _ _ _ _ _ _ Hclient).
    subst t. by rewrite app_nil_r.
  - cbn [Server.loop]. rewrite (bind_raise _ _ _ _ _ _ Hserver).
    subst t. by rewrite app_nil_r.
Qed.

Lemma undecodable_own_move_ends_loop_witness :
  let squared := String "A"%char (String (ascii_of_nat 178) "") in
  Client.loop 2 true
    {| game := init; rng := rows_rng; inbox := [format_error];
       keyboard := [squared] |}
  = (inl Py.ValueError,
     {| game := init; rng := rows_rng; inbox := []; keyboard := [] |},
     [Boards (board init) ∅ ∅;
      Line (newline +:+ "Your move (e.g. A5): "); Sent squared]).
Proof.
  intros squared.
  destruct (undecodable_own_move_ends_loop 0
              {| game := init; rng := rows_rng; inbox := [format_error];
                 keyboard := [squared] |}
              squared format_error [] [] Py.ValueError)
    as (Hc & _).
  - reflexivity.
  - reflexivity.
  - reflexivity.
  - reflexivity.
  - reflexivity.
  - apply (bool_decide_unpack _). vm_compute. exact I.
  - exact Hc.
Defined.

(** ** The end of the client *)

Lemma on_peer_frame {A} (m : M event Game A) (p : Peer) :
  exists (r : Py.exn + A) (g' : Game) (t : list event),
    on_peer m p
    = (r, {| game := g'; rng := rng p; inbox := inbox p;
             keyboard := keyboard p |}, t).
Proof.
  unfold on_peer. destruct (m (game p)) as [[r g'] t]. by exists r, g', t.
Qed.

(** The prompt loop ends when the lines typed are fewer than the fuel: by
    a move, which takes at least one line, or by the end of the input. *)
Lemma ask_move_ends (fuel : nat) (p : Peer) :
  (length (keyboard p) < fuel)%nat ->
  exists (r : Py.exn + run string) (q : Peer) (t : list event),
    ask_move fuel p = (r, q, t)
    /\ inbox q = inbox p
    /\ match r with
       | inl _ => True
       | inr Unfinished => False
       | inr (Done _) => (length (keyboard q) < length (keyboard p))%nat
       end.
Proof.
  revert p. induction fuel as [|fuel IH]; intros p Hf; [lia|].
  cbn [ask_move]. destruct (keyboard p) as [|line rest] eqn:Hk.
  - assert (Hinput : input (newline +:+ "Your move (e.g. A5): ") p
                     = (inl Py.EOFError, p,
                        [Line (newline +:+ "Your move (e.g. A5): ")])).
    { unfold input. rewrite (bind_run _ _ _ _ _ _ (print_run _ p)).
      unfold read_line. by rewrite Hk. }
    rewrite (bind_raise _ _ _ _ _ _ Hinput). by eexists _, _, _.
  - set (p1 := {| game := game p; rng := rng p; inbox := inbox p;
                  keyboard := rest |}).
    assert (Hinput : input (newline +:+ "Your move (e.g. A5): ") p
                     = (inr line, p1,
                        [Line (newline +:+ "Your move (e.g. A5): ")])).
    { unfold input. rewrite (bind_run _ _ _ _ _ _ (print_run _ p)).
      unfold read_line. by rewrite Hk. }
    rewrite (bind_run _ _ _ _ _ _ Hinput).
    destruct (validate_move line).
    + eexists _, _, _. split; [reflexivity|]. split; [done|]. cbn. lia.
    + rewrite (bind_run _ _ _ _ _ _ (print_run _ p1)).
      destruct (IH p1) as (r & q & t & Hrun & Hi & Hr).
      { cbn in *. lia. }
      rewrite Hrun. eexists _, _, _. split; [reflexivity|].
      split; [done|].
      destruct r as [e|[m|]]; cbn in *; [done|lia|done].
Qed.

(** The loop of the client's opponent turn ends when the messages waiting
    are fewer than the fuel: an outcome that passes the turn takes at least
    one message. *)
Lemma client_answer_ends (fuel : nat) (p : Peer) :
  (length (inbox p) < fuel)%nat ->
  exists (r : Py.exn + run (option string)) (q : Peer) (t : list event),
    Client.answer fuel p = (r, q, t)
    /\ keyboard q = keyboard p
    /\ match r with
       | inl _ => True
       | inr Unfinished => False
       | inr (Done None) => (length (inbox q) <= length (inbox p))%nat
       | inr (Done (Some _)) => (length (inbox q) < length (inbox p))%nat
       end.
Proof.
  revert p. induction fuel as [|fuel IH]; intros p Hf; [lia|].
  cbn [Client.answer]. destruct (inbox p) as [|data rest] eqn:Hin.
  - rewrite (bind_run_quiet _ _ _ _ _ (recv_closed p Hin)).
    cbn [String.eqb]. eexists _, _, _. split; [reflexivity|].
    split; [done|]. by rewrite Hin.
  - rewrite (bind_run_quiet _ _ _ _ _ (recv_message p data rest Hin)).
    set (p1 := {| game := game p; rng := rng p; inbox := rest;
                  keyboard := keyboard p |}).
    destruct (String.eqb data "").
    { eexists _, _, _. split; [reflexivity|]. split; [done|]. cbn. lia. }
    destruct (on_peer_frame (handle_opponent_move data) p1)
      as ([e|result] & g' & t & Hmove).
    { rewrite (bind_raise _ _ _ _ _ _ Hmove). by eexists _, _, _. }
    rewrite (bind_run _ _ _ _ _ _ Hmove).
    rewrite (bind_run _ _ _ _ _ _ (send_run result _)).
    destruct (String.eqb result "repeat" || String.eqb result "invalid").
    + destruct (IH {| game := g'; rng := rng p1; inbox := inbox p1;
                      keyboard := keyboard p1 |})
        as (r & q & t' & Hrun & Hk & Hr).
      { cbn in *. lia. }
      rewrite Hrun. eexists _, _, _. split; [reflexivity|].
      split; [done|].
      destruct r as [e|[[s|]|]]; cbn in *; [done|lia|lia|done].
    + eexists _, _, _. split; [reflexivity|]. split; [done|]. cbn. lia.
Qed.

(** A pass of the client's main loop with enough fuel ends, and when the
    loop goes on after it, a message or a typed line has been taken. *)
Lemma client_iteration_ends (fuel : nat) (my_turn : bool) (p : Peer) :
  (length (inbox p) < fuel)%nat -> (length (keyboard p) < fuel)%nat ->
  exists (r : Py.exn + run flow) (q : Peer) (t : list event),
    Client.iteration fuel my_turn p = (r, q, t)
    /\ match r with
       | inl _ => True
       | inr Unfinished => False
       | inr (Done Stop) => True
       | inr (Done (Next _)) =>
           (length (inbox q) + length (keyboard q)
            < length (inbox p) + length (keyboard p))%nat
       end.
Proof.
  intros Hi Hk. unfold Client.iteration.
  rewrite (bind_run _ _ _ _ _ _ (display_run p)).
  destruct my_turn.
  - destruct (ask_move_ends fuel p Hk) as (r & p1 & t & Hask & Hin1 & Hr).
    destruct r as [e|[move|]]; [|clear Hk|done].
    { rewrite (bind_raise _ _ _ _ _ _ Hask). by eexists _, _, _. }
    rewrite (bind_run _ _ _ _ _ _ Hask). cbv iota.
    rewrite (bind_run _ _ _ _ _ _ (send_run move p1)).
    assert (Hrecv : exists (response : string) (p2 : Peer),
      recv p1 = (inr response, p2, [])
      /\ keyboard p2 = keyboard p1
      /\ (length (inbox p2) <= length (inbox p1))%nat).
    { destruct (inbox p1) as [|msg rest] eqn:Hin.
      - exists "", p1. rewrite (recv_closed p1 Hin). by rewrite Hin.
      - eexists _, _. rewrite (recv_message p1 msg rest Hin).
        split_and!; [done..|]. cbn. lia. }
    destruct Hrecv as (response & p2 & Hrecv & Hk2 & Hi2).
    rewrite (bind_run_quiet _ _ _ _ _ Hrecv).
    destruct (String.eqb response "repeat").
    { eexists _, _, _. split; [reflexivity|].
      cbn [inbox keyboard]. rewrite Hk2, <- Hin1. lia. }
    destruct (String.eqb response "invalid").
    { eexists _, _, _. split; [reflexivity|].
      cbn [inbox keyboard]. rewrite Hk2, <- Hin1. lia. }
    destruct (on_peer_frame (handle_move_result move response) p2)
      as ([e|[]] & g' & t' & Hres).
    { rewrite (bind_raise _ _ _ _ _ _ Hres). by eexists _, _, _. }
    rewrite (bind_run _ _ _ _ _ _ Hres).
    destruct (String.eqb response "gameover").
    + rewrite (bind_run _ _ _ _ _ _ (display_run _)).
      by eexists _, _, _.
    + eexists _, _, _. split; [reflexivity|].
      cbn [inbox keyboard]. rewrite Hk2, <- Hin1. lia.
  - rewrite (bind_run _ _ _ _ _ _ (print_run _ p)).
    destruct (client_answer_ends fuel p Hi) as (r & q & t & Hans & Hk1 & Hr).
    destruct r as [e|[[result|]|]]; [| | |done].
    + rewrite (bind_raise _ _ _ _ _ _ Hans). by eexists _, _, _.
    + rewrite (bind_run _ _ _ _ _ _ Hans). cbv iota.
      destruct (String.eqb result "gameover").
      * rewrite (bind_run _ _ _ _ _ _ (display_run _)). by eexists _, _, _.
      * eexists _, _, _. split; [reflexivity|]. rewrite Hk1. lia.
    + rewrite (bind_run _ _ _ _ _ _ Hans). by eexists _, _, _.
Qed.

(** The main loop of the client ends on every finite supply of messages
    and typed lines. *)
Lemma client_loop_ends (fuel : nat) (my_turn : bool) (p : Peer) :
  (length (inbox p) + length (keyboard p) + 1 < fuel)%nat ->
  exists (r : Py.exn + unit) (q : Peer) (t : list event),
    Client.loop fuel my_turn p
    = (match r with inl e => inl e | inr _ => inr (Done tt) end, q, t).
Proof.
  revert my_turn p. induction fuel as [|fuel IH]; intros my_turn p Hf; [lia|].
  cbn [Client.loop].
  destruct (client_iteration_ends fuel my_turn p) as (r & q & t & Hit & Hr);
    [lia..|].
  destruct r as [e|[[my_turn'|]|]]; [| | |done].
  - rewrite (bind_raise _ _ _ _ _ _ Hit). by exists (inl e), q, t.
  - rewrite (bind_run _ _ _ _ _ _ Hit). cbv iota.
    destruct (IH my_turn' q) as (r' & q' & t' & Hrun); [lia|].
    rewrite Hrun. by exists r', q', (t ++ t').
  - rewrite (bind_run _ _ _ _ _ _ Hit). by exists (inr tt), q, (t ++ []).
Qed.

Lemma on_placement_frame {A} (m : M event (Game * Rng) A) (p : Peer) :
  exists (r : Py.exn + A) (g' : Game) (rng' : Rng) (t : list event),
    on_placement m p
    = (r, {| game := g'; rng := rng'; inbox := inbox p;
             keyboard := keyboard p |}, t).
Proof.
  unfold on_placement. destruct (m (game p, rng p)) as [[r [g' rng']] t].
  by exists r, g', rng', t.
Qed.

(** X15. On every finite supply of messages and of typed lines, [main] of
    the client comes to an end, whatever the game it starts from: with fuel
    beyond the number of messages and lines, the model never runs out of
    fuel, [main] returns without an exception, and the last thing it does
    is to close the connection. *)
Theorem client_main_ends (fuel : nat) (p : Peer) :
  (length (inbox p) + length (keyboard p) + 1 < fuel)%nat ->
  exists (q : Peer) (t : list event),
    Client.main fuel p = (inr (Done tt), q, t ++ [Closed]).
Proof.
  intros Hf.
  assert (Hrecv : exists (msg : string) (p0 : Peer),
    recv p = (inr msg, p0, [])
    /\ keyboard p0 = keyboard p
    /\ (length (inbox p0) <= length (inbox p))%nat).
  { destruct (inbox p) as [|msg rest] eqn:Hin.
    - exists "", p. rewrite (recv_closed p Hin). by rewrite Hin.
    - eexists _, _. rewrite (recv_message p msg rest Hin).
      split_and!; [done..|]. cbn. lia. }
  destruct Hrecv as (msg & p0 & Hrecv & Hk0 & Hi0).
  destruct (on_placement_frame place_ships_randomly p0)
    as (rp & g' & rng' & tp & Hplace).
  set (p1 := {| game := g'; rng := rng'; inbox := inbox p0;
                keyboard := keyboard p0 |}) in *.
  destruct (client_loop_ends fuel true p1) as (rl & q & tl & Hloop).
  { cbn [inbox keyboard p1]. rewrite Hk0. lia. }
  assert (Hbody : exists (rb : Py.exn + unit) (q' : Peer) (t' : list event),
    (recv;;
     on_placement place_ships_randomly;;
     print (newline +:+ "Game Started! All ships have been placed:");;
     Client.loop fuel true) p
    = (match rb with inl e => inl e | inr _ => inr (Done tt) end, q', t')).
  { rewrite (bind_run_quiet _ _ _ _ _ Hrecv).
    destruct rp as [e|[]].
    - rewrite (bind_raise _ _ _ _ _ _ Hplace). by exists (inl e), p1, tp.
    - rewrite (bind_run _ _ _ _ _ _ Hplace).
      rewrite (bind_run _ _ _ _ _ _ (print_run _ p1)).
      rewrite Hloop. by eexists rl, _, _. }
  destruct Hbody as (rb & q' & t' & Hbody).
  unfold Client.main, mbind at 1, M_bind at 1, try_except.
  rewrite Hbody.
  destruct rb as [e|[]]; unfold mbind, M_bind, emit, mret, M_ret; cbn.
  - exists q', (t' ++ [Report e]). by rewrite <- !app_assoc.
  - exists q', t'. by rewrite ?app_nil_r.
Qed.

Lemma client_main_ends_witness :
  exists (q : Peer) (t : list event),
    Client.main 5
      {| game := init; rng := rows_rng; inbox := ["ready"; "Z9"];
         keyboard := ["A5"] |}
    = (inr (Done tt), q, t ++ [Closed]).
Proof.
  apply (client_main_ends 5
           {| game := init; rng := rows_rng; inbox := ["ready"; "Z9"];
              keyboard := ["A5"] |}).
  cbn. lia.
Defined.

(** ** The first ship *)

(** One attempt to place a ship: a candidate run is drawn, and the ship
    takes it if none of its cells is claimed. *)
Lemma place_ship_attempt budget ship size (g : Game) (rng : Rng) :
  0 < size <= board_size ->
  exists (h : bool) (x y : Z) (rng' : Rng),
    anchored h x y size
    /\ place_ship (S budget) ship size (g, rng)
       = if existsb (fun pos => bool_decide (pos ∈ claimed g))
              (run_cells h x y size)
         then place_ship budget ship size (g, rng')
         else for_each (run_cells h x y size) (fun pos =>
                on_game (board_assign (snd pos) (fst pos) "S"%char);;
                on_game (positions_add ship pos)) (g, rng').
Proof.
  intros Hsz. cbn [place_ship].
  destruct (random_choice_run g rng) as (h & Hh).
  set (rng1 := fun i => rng (S i)) in *.
  assert (Hcand : exists x y rng3,
    anchored h x y size
    /\ (if h
        then x ← randint 0 (board_size - size);
             y ← randint 0 (board_size - 1);
             mret (map (fun i => (x + i, y)) (seqZ 0 size))
        else x ← randint 0 (board_size - 1);
             y ← randint 0 (board_size - size);
             mret (map (fun i => (x, y + i)) (seqZ 0 size))) (g, rng1)
       = (inr (run_cells h x y size), (g, rng3), [])).
  { unfold anchored, run_cells, board_size in *. destruct h.
    - destruct (randint_run 0 (10 - size) g rng1) as (x & Hx & Ex); [lia|].
      destruct (randint_run 0 (10 - 1) g (fun i => rng1 (S i)))
        as (y & Hy & Ey); [lia|].
      exists x, y, (fun i => rng1 (S (S i))). split; [lia|].
      by rewrite (bind_run_quiet _ _ _ _ _ Ex), (bind_run_quiet _ _ _ _ _ Ey).
    - destruct (randint_run 0 (10 - 1) g rng1) as (x & Hx & Ex); [lia|].
      destruct (randint_run 0 (10 - size) g (fun i => rng1 (S i)))
        as (y & Hy & Ey); [lia|].
      exists x, y, (fun i => rng1 (S (S i))). split; [lia|].
      by rewrite (bind_run_quiet _ _ _ _ _ Ex), (bind_run_quiet _ _ _ _ _ Ey). }
  destruct Hcand as (x & y & rng3 & Hanch & Hcand).
  exists h, x, y, rng3. split; [done|].
  rewrite (bind_run_quiet _ _ _ _ _ Hh).
  rewrite (bind_run_quiet _ _ _ _ _ Hcand).
  rewrite (bind_run_quiet get _ _ (g, rng3) (g, rng3) eq_refl).
  by destruct (existsb _ _).
Qed.

(** The ships placed after a ship leave its cells alone. *)
Lemma place_fleet_keeps (todo : list (string * Z)) (g : Game) (rng : Rng)
    (ship : string)
    (positions : gset coord) :
  placement_ok todo g ->
  (forall x, x ∈ todo -> x ∈ ships) -> NoDup (map fst todo) ->
  ship ∉ map fst todo ->
  (ship, positions) ∈ ship_positions g ->
  (ship, positions)
  ∈ ship_positions
      (for_each todo (fun '(ship, size) => place_ship 100 ship size)
         (g, rng)).1.2.1.
Proof.
  revert g rng.
  induction todo as [|[other size] todo IH];
    intros g rng Hok Hsub Hnd Hnot Hin; [done|].
  cbn in Hnd. apply NoDup_cons in Hnd as [Hfresh Hnd].
  cbn in Hnot. apply not_elem_of_cons in Hnot as [Hne Hnot].
  assert (Hship : (other, size) ∈ ships) by (apply Hsub; left).
  pose proof (ship_size_bounds other size Hship) as Hsz.
  destruct (place_ship_run 100 other size g rng) as (g1 & rng1 & Hrun & Hres).
  { apply Hok. }
  { rewrite (po_names _ _ Hok). apply fleet_names_NoDup. }
  { rewrite (po_names _ _ Hok). unfold fleet_names.
    change (map fst ships) with (fst <$> ships).
    apply list_elem_of_fmap. by exists (other, size). }
  { unfold board_size. lia. }
  cbn [for_each]. rewrite (bind_run_quiet _ _ _ _ _ Hrun).
  apply IH; [|intros x Hx; apply Hsub; by right|done..|].
  - destruct Hres as [->|(h & x & y & b & Hanch & Hb & Hfree & ->)].
    + by eapply placement_ok_weaken.
    + by eapply placement_ok_step.
  - destruct Hres as [->|(h & x & y & b & Hanch & Hb & Hfree & ->)]; [done|].
    cbn [ship_positions set_ship_positions]. unfold with_cells.
    apply list_elem_of_fmap. exists (ship, positions).
    cbn [fst]. by rewrite decide_False.
Qed.

(** X16. Whatever the generator delivers, the Carrier, the first ship of
    the dictionary, is placed: its first candidate finds the board empty,
    and the ships placed after it leave its cells alone.  Its set of
    positions is one run of five cells. *)
Theorem carrier_is_always_placed (rng : Rng) :
  exists positions : gset coord,
    ("Carrier", positions) ∈ ship_positions (setup rng)
    /\ positions <> ∅ /\ is_run 5 positions.
Proof.
  destruct (place_ship_attempt 99 "Carrier" 5 init rng)
    as (h & x & y & rng1 & Hanch & Hstep).
  { unfold board_size. lia. }
  change (S 99) with 100%nat in Hstep.
  assert (Hfree : forall (c : coord) (kv : string * gset coord),
            c ∈ run_cells h x y 5 -> kv ∈ ship_positions init -> c ∉ kv.2).
  { intros c kv Hc Hkv. cbn in Hkv.
    repeat (apply elem_of_cons in Hkv as [->|Hkv];
            [apply not_elem_of_empty|]).
    by apply elem_of_nil in Hkv. }
  rewrite (proj2 (overlap_test init _) Hfree) in Hstep.
  destruct (place_cells "Carrier" (run_cells h x y 5) init rng1)
    as (b & Hb & Hplace).
  { apply board_ok_init. }
  { apply fleet_names_NoDup. }
  { by left. }
  { intros c Hc. eapply run_cells_in_bounds; eauto. lia. }
  rewrite Hplace in Hstep.
  set (cells := list_to_set (run_cells h x y 5) : gset coord) in *.
  set (g1 := set_ship_positions (with_cells "Carrier" cells
                                   (ship_positions init))
               (set_board b init)) in *.
  assert (Hok1 : placement_ok (tail ships) g1).
  { eapply (placement_ok_step "Carrier" 5 (tail ships) init g1 h x y b);
      try done.
    - apply placement_ok_init.
    - by left.
    - cbn. intros Hin.
      repeat (apply elem_of_cons in Hin as [Hin|Hin]; [discriminate|]).
      by apply elem_of_nil in Hin. }
  assert (Hnonempty : cells ∪ ∅ <> (∅ : gset coord)).
  { assert (Hlen : length (run_cells h x y 5) = 5%nat).
    { rewrite run_cells_length; lia. }
    destruct (run_cells h x y 5) as [|c l] eqn:Hcells; [done|].
    intros Hempty. apply (not_elem_of_empty (C := gset coord) c).
    rewrite <- Hempty. apply elem_of_union_l. subst cells.
    apply elem_of_list_to_set. by left. }
  exists (cells ∪ ∅). split; [|split; [done|]].
  - unfold setup, place_ships_randomly.
    change ships with (("Carrier", 5) :: tail ships).
    cbn [for_each]. rewrite (bind_run_quiet _ _ _ _ _ Hstep).
    apply place_fleet_keeps; [done| | | |].
    + intros kv Hkv. by right.
    + apply (NoDup_cons_1_2 "Carrier"), fleet_names_NoDup.
    + cbn. intros Hin.
      repeat (apply elem_of_cons in Hin as [Hin|Hin]; [discriminate|]).
      by apply elem_of_nil in Hin.
    + by left.
  - exists h, x, y. split; [done|]. subst cells.
    apply set_eq. intros c. rewrite elem_of_union.
    split; [intros [?|?%not_elem_of_empty]; done|by left].
Qed.

(** ** The boards on the screen *)

Lemma enemy_loop (P : nat -> bool) (v : nat -> ascii) (d : ascii)
    (m : nat) (pre : list ascii) :
  foldl (fun row j => if P j then <[j := v j]> row else row)
    (pre ++ replicate m d) (seq (length pre) m)
  = pre ++ map (fun j => if P j then v j else d) (seq (length pre) m).
Proof.
  revert pre. induction m as [|m IH]; intros pre; [done|].
  cbn [seq foldl replicate map].
  assert (Hstep : (if P (length pre)
                   then <[length pre := v (length pre)]>
                          (pre ++ d :: replicate m d)
                   else pre ++ d :: replicate m d)
                  = (pre ++ [if P (length pre) then v (length pre) else d])
                    ++ replicate m d).
  { rewrite <- app_assoc. cbn [app]. destruct (P (length pre)); [|done].
    rewrite <- (Nat.add_0_r (length pre)) at 1.
    by rewrite insert_app_r. }
  rewrite Hstep.
  replace (S (length pre))
    with (length (pre ++ [if P (length pre) then v (length pre) else d]))
    by (rewrite length_app; cbn; lia).
  rewrite IH. by rewrite <- app_assoc.
Qed.

Lemma enemy_row_shown (g : Game) (i : nat) :
  enemy_row (shots g) (hits g) i
  = map (fun j => shown_enemy g (Z.of_nat j, Z.of_nat i)) (seq 0 10).
Proof.
  unfold enemy_row.
  rewrite (enemy_loop
             (fun j => bool_decide ((Z.of_nat j, Z.of_nat i) ∈ shots g))
             (fun j => if bool_decide ((Z.of_nat j, Z.of_nat i) ∈ hits g)
                       then "X"%char else "O"%char)
             " "%char 10 []).
  apply map_ext. intros j. unfold shown_enemy.
  by repeat case_bool_decide; repeat case_decide.
Qed.

Lemma convert_loop (post pre : list ascii) :
  convert_row (seq (length pre) (length post)) (pre ++ post)
  = inr (pre ++ map screen_mark post).
Proof.
  revert pre. induction post as [|c post IH]; intros pre; [done|].
  cbn [length seq convert_row map].
  rewrite list_lookup_middle by done.
  assert (Hstep : (if Ascii.eqb c "H"
                   then <[length pre := "X"%char]> (pre ++ c :: post)
                   else if Ascii.eqb c "M"
                        then <[length pre := "O"%char]> (pre ++ c :: post)
                        else pre ++ c :: post)
                  = (pre ++ [screen_mark c]) ++ post).
  { rewrite <- app_assoc. cbn [app]. unfold screen_mark.
    destruct (Ascii.eqb c "H"); [|destruct (Ascii.eqb c "M"); [|done]];
      rewrite <- (Nat.add_0_r (length pre)) at 1;
      by rewrite insert_app_r. }
  rewrite Hstep.
  replace (S (length pre)) with (length (pre ++ [screen_mark c]))
    by (rewrite length_app; cbn; lia).
  rewrite IH. by rewrite <- app_assoc.
Qed.

Lemma screen_mark_shown (g : Game) (c : coord) :
  screen_mark (mark g c) = shown_own g c.
Proof. unfold mark, shown_own. by repeat case_decide. Qed.

(** A row of the board of a game whose marks are in step with its sets. *)
Lemma marked_row (g : Game) (i : nat) :
  board_ok (board g) -> marked g -> (i < 10)%nat ->
  board g !! i
  = Some (map (fun j => mark g (Z.of_nat j, Z.of_nat i)) (seq 0 10)).
Proof.
  intros [Hlen Hrows] Hm Hi.
  destruct (board g !! i) as [line|] eqn:Hline.
  2:{ apply lookup_ge_None in Hline. rewrite Hlen in Hline.
      unfold board_size in Hline. lia. }
  assert (Hll : length line = 10%nat).
  { rewrite Forall_forall in Hrows.
    apply (Hrows line). eapply list_elem_of_lookup_2; eauto. }
  f_equal. apply list_eq. intros j.
  rewrite list_lookup_fmap.
  destruct (decide (j < 10)%nat) as [Hj|Hj].
  - rewrite lookup_seq_lt by done. cbn.
    pose proof (Hm (Z.of_nat j, Z.of_nat i)) as Hcell.
    unfold cell in Hcell. cbn [fst snd] in Hcell.
    rewrite !Nat2Z.id, Hline in Hcell. apply Hcell.
    unfold in_bounds, board_size. cbn. lia.
  - rewrite lookup_seq_ge by lia. cbn.
    apply lookup_ge_None. lia.
Qed.

Lemma my_board_rows_shown (g : Game) (rows : list nat) :
  board_ok (board g) -> marked g -> Forall (fun i => (i < 10)%nat) rows ->
  my_board_rows (board g) rows
  = inr (map (fun i =>
                Py.str (Z.of_nat i) +:+ " |"
                +:+ join_cells
                      (map (fun j => shown_own g (Z.of_nat j, Z.of_nat i))
                         (seq 0 10))
                +:+ "|") rows).
Proof.
  intros Hb Hm. induction rows as [|i rows IH]; intros Hrows; [done|].
  apply Forall_cons in Hrows as [Hi Hrows].
  cbn [my_board_rows map]. rewrite (marked_row g i Hb Hm Hi).
  pose proof (convert_loop
                (map (fun j => mark g (Z.of_nat j, Z.of_nat i)) (seq 0 10))
                []) as Hconv.
  rewrite length_map, length_seq in Hconv. cbn [length app] in Hconv.
  rewrite map_map in Hconv.
  rewrite (map_ext
             (fun j => screen_mark (mark g (Z.of_nat j, Z.of_nat i)))
             (fun j => shown_own g (Z.of_nat j, Z.of_nat i)))
    in Hconv by (intros j; apply screen_mark_shown).
  by rewrite Hconv, (IH Hrows).
Qed.

Lemma print_boards_picture (g : Game) :
  board_ok (board g) -> marked g ->
  print_boards (board g) (shots g) (hits g) = inr (picture g).
Proof.
  intros Hb Hm. unfold print_boards, my_rows.
  rewrite (my_board_rows_shown g (seq 0 10) Hb Hm).
  2:{ apply Forall_forall. intros i [_ Hi]%elem_of_seq. cbn in Hi. lia. }
  unfold enemy_rows.
  rewrite (map_ext _ (fun i =>
             Py.str (Z.of_nat i) +:+ " |"
             +:+ join_cells
                   (map (fun j => shown_enemy g (Z.of_nat j, Z.of_nat i))
                      (seq 0 10)) +:+ "|   ")).
  2:{ intros i. by rewrite enemy_row_shown. }
  reflexivity.
Qed.

(** X17. On every game a peer can hold, [print_boards], called as
    [display_game_state] calls it, raises no exception and prints the
    picture of the game: a blank line, the two headers, ten rows, the two
    footers and a blank line, where the enemy board shows the peer's hits as
    [X] and its other shots as [O], and the player's board shows the
    opponent's shots as [X] on a ship and [O] on the water, and [S] on the
    cells of ships not shot. *)
Theorem print_boards_shows_the_game (g : Game) :
  reachable g ->
  print_boards (board g) (shots g) (hits g) = inr (picture g).
Proof.
  intros Hr. apply print_boards_picture.
  - apply (wf_board g (reachable_wf g Hr)).
  - by apply reachable_marked.
Qed.

Lemma print_boards_shows_the_game_witness :
  print_boards (board (setup rows_rng)) (shots (setup rows_rng))
    (hits (setup rows_rng))
  = inr (picture (setup rows_rng)).
Proof. apply print_boards_shows_the_game, reach_setup. Defined.

(** ** Decoding *)

(** X18. The column letter of a move is read without regard to case: a
    small letter decodes as the capital letter does, to the column that
    counts the letters from [A], with the row that [int] reads from the
    rest of the move. *)
Theorem column_letter_ignores_case (n : Z) (rest : string) :
  0 <= n < 26 ->
  decode_move (String (Py.chr (97 + n)) rest)
  = decode_move (String (Py.chr (65 + n)) rest)
  /\ decode_move (String (Py.chr (97 + n)) rest)
     = match Py.int rest with
       | None => inl Py.ValueError
       | Some row => inr (n, row)
       end.
Proof.
  intros Hn. unfold decode_move. cbn [Py.head Py.tail].
  change (Py.ord "A"%char) with 65.
  assert (Hl : Py.upper (Py.chr (97 + n)) = [65 + n]).
  { unfold Py.upper. rewrite ord_chr by lia. unfold Py.between.
    replace (97 + n - 32) with (65 + n) by lia. by bool_lia. }
  assert (Hu : Py.upper (Py.chr (65 + n)) = [65 + n]).
  { unfold Py.upper. rewrite ord_chr by lia. unfold Py.between. by bool_lia. }
  rewrite Hl, Hu. cbn [Py.ord_str]. split; [done|].
  destruct (Py.int rest); [|done]. do 2 f_equal. lia.
Qed.

Lemma column_letter_ignores_case_witness :
  decode_move "c7" = decode_move "C7" /\ decode_move "c7" = inr (2, 7).
Proof. apply (column_letter_ignores_case 2 "7"). lia. Defined.

(** X19. On a game a peer can hold, and for a move of code points up to
    U+00FF, the only exception [process_shot] lets through is the
    [TypeError] of [ord], raised by a move whose first character is U+00DF,
    and the game is then as it was: assignments to the board never leave the
    grid, and every other failure of the decoding is caught. *)
Theorem process_shot_raises_only_type_error (g g' : Game) (move : string)
    (e : Py.exn) (t : list event) :
  reachable g -> process_shot move g = (inl e, g', t) ->
  e = Py.TypeError /\ g' = g /\ t = []
  /\ exists rest : string, move = String sharp_s rest.
Proof.
  intros Hr Hrun. pose proof (shot_viewP g move (reachable_wf g Hr)) as V.
  rewrite Hrun in V. inversion V as [e' He' Hres| | |]; subst.
  destruct (caught e') eqn:Hcaught; [discriminate|].
  injection Hres as ->.
  unfold decode_move in He'. destruct move as [|c rest].
  { cbn in He'. injection He' as <-. discriminate. }
  cbn [Py.head Py.tail] in He'.
  destruct (ord_upper c) as [[-> Hc]|[_ (u & Hc)]]; rewrite Hc in He'.
  - injection He' as <-. split_and!; [done..|]. by exists rest.
  - destruct (Py.int rest); [discriminate|].
    injection He' as <-. discriminate.
Qed.

Lemma process_shot_raises_only_type_error_witness :
  Py.TypeError = Py.TypeError /\ setup rows_rng = setup rows_rng
  /\ @nil event = []
  /\ exists rest : string, String sharp_s "5" = String sharp_s rest.
Proof.
  apply (process_shot_raises_only_type_error (setup rows_rng)
           (setup rows_rng) (String sharp_s "5") Py.TypeError []).
  - apply reach_setup.
  - by rewrite (process_shot_undecodable _ Py.TypeError).
Defined.

(** X20. A move of ASCII characters that [validate_move] accepts and that
    fits into one message of 1024 bytes is decoded, to one of the 26 letter
    columns and a row that is not negative, and [process_shot] answers it
    with one of the six tokens, [invalid] exactly when the coordinate is off
    the grid. *)
Theorem accepted_ascii_move_gets_token (g : Game) (move : string) :
  reachable g -> validate_move move = true -> ascii_only move = true ->
  (String.length move <= 1024)%nat ->
  exists (col row : Z) (r : string) (g' : Game),
    decode_move move = inr (col, row)
    /\ 0 <= col < 26 /\ 0 <= row
    /\ process_shot move g = (inr r, g', [])
    /\ r ∈ tokens
    /\ (r = "invalid" <-> ~ in_bounds (col, row)).
Proof.
  intros Hr Hv Ha _.
  destruct (validated_ascii_move_resolves g move Hr Hv Ha)
    as [(col & row & Hd & Hcol & Hrow) (r & g' & Hrun & Htok)].
  exists col, row, r, g'. do 5 (split; [done|]).
  pose proof (shot_viewP g move (reachable_wf g Hr)) as V.
  rewrite Hrun in V.
  inversion V as [e He Hres|c Hc Hb Hres|c Hc Hb Hin Hres
                  |c r' g'' Hc Hb Hfresh Hwf' Hf Hs Ho Hh Hres Heq]; subst.
  - congruence.
  - assert (c = (col, row)) as -> by congruence. by split.
  - assert (c = (col, row)) as -> by congruence. split; [discriminate|done].
  - assert (c = (col, row)) as -> by congruence. split; [|done].
    intros ->. apply resolved_token in Hres.
    repeat (apply elem_of_cons in Hres as [Hres|Hres]; [discriminate|]).
    by apply elem_of_nil in Hres.
Qed.

Lemma accepted_ascii_move_gets_token_witness :
  exists (col row : Z) (r : string) (g' : Game),
    decode_move "k12" = inr (col, row)
    /\ 0 <= col < 26 /\ 0 <= row
    /\ process_shot "k12" (setup rows_rng) = (inr r, g', [])
    /\ r ∈ tokens
    /\ (r = "invalid" <-> ~ in_bounds (col, row)).
Proof.
  apply accepted_ascii_move_gets_token.
  - apply reach_setup.
  - reflexivity.
  - reflexivity.
  - cbn. lia.
Defined.

(** ** The server from start to end *)























(** ** The shot that wins *)

(** X22. The shot that wins the game is drawn as a miss: when the outcome
    [gameover] comes back for a move at a coordinate that is no hit yet,
    [handle_move_result] records the coordinate as a shot and not as a hit,
    so that in the picture [print_boards] then prints the enemy board
    carries an [O] there. *)
Theorem winning_shot_is_drawn_as_miss (g : Game) (move : string) (c : coord) :
  reachable g -> decode_move move = inr c -> c ∉ hits g ->
  let g' := (handle_move_result move "gameover" g).1.2 in
  c ∈ shots g' /\ (c ∉ hits g')
  /\ shown_enemy g' c = "O"%char
  /\ print_boards (board g') (shots g') (hits g') = inr (picture g').
Proof.
  intros Hr Hd Hhit g'.
  assert (Hg' : g' = set_shots ({[c]} ∪ shots g) g).
  { subst g'.
    rewrite (handle_move_result_accepted g move "gameover" c Hd); [done|].
    by do 3 right; left. }
  assert (Hr' : reachable g') by apply reach_result, Hr.
  assert (Hs : c ∈ shots g').
  { rewrite Hg'. cbn. by apply elem_of_union_l, elem_of_singleton. }
  assert (Hh : c ∉ hits g') by (by rewrite Hg').
  split_and!; [done..| |].
  - unfold shown_enemy. by rewrite decide_True, decide_False.
  - apply print_boards_picture.
    + apply (wf_board g' (reachable_wf g' Hr')).
    + by apply reachable_marked.
Qed.

Lemma winning_shot_is_drawn_as_miss_witness :
  let g' := (handle_move_result "B4" "gameover" (setup rows_rng)).1.2 in
  (1, 4) ∈ shots g' /\ ((1, 4) ∉ hits g')
  /\ shown_enemy g' (1, 4) = "O"%char
  /\ print_boards (board g') (shots g') (hits g') = inr (picture g').
Proof.
  apply (winning_shot_is_drawn_as_miss (setup rows_rng) "B4" (1, 4)).
  - apply reach_setup.
  - reflexivity.
  - apply (bool_decide_unpack _). vm_compute. exact I.
Defined.
